(** * mnstr-dash: the distribution analytics of the gacha dashboard

    The dashboard (the React entry point with [probabilityScale],
    [computeMetrics] and [buildProfitCurve]) and the command line script
    ([calculateExpectedValue]) turn a list of cards, each with a fair
    market value and a pull probability, and a pack price into an expected
    value, a weighted median, the odds of pulling a card worth at least the
    pack, and a survival curve.

    All the arithmetic is done on JavaScript Numbers.  Part 1 is a model
    of the ECMAScript Number type: a value is NaN, an infinity, -0, or a
    finite value kept as the rational it denotes, and every operation is
    the one of ECMAScript (Number::add, Number::multiply, ...): special
    values first, and otherwise the exact rational result rounded to the
    nearest binary64 value, ties to even, large results going to an
    infinity and small ones to the subnormals and to zero.  [representable]
    tells the finite values binary64 holds; the operations return such
    values, and the facts proved below hold for every value of the type.
    Part 2 is the program: the three functions above, and what the
    dashboard does around them, the theme hook, what TierSection shows
    and loadData.  Parts 3 and 4 are the facts about Numbers and about the
    program that the statements rest on, Part 5 the claims, Part 6
    further facts. *)

From Stdlib Require Import ZArith QArith Qround Qabs Qreduction Qpower.
From Stdlib Require Import Lqa Lia List Bool String Permutation Sorted.
From Stdlib Require SpecFloat.
Import ListNotations.
Local Open Scope Q_scope.

(* ===================================================================== *)
(** * Part 1. The ECMAScript Number type                                  *)
(* ===================================================================== *)

Module Number.

(** A Number is NaN, +Infinity, -Infinity, -0, or a finite value, kept as
    the rational it denotes ([Fin 0] is +0). *)
Inductive number : Type :=
| NaN
| PosInf
| NegInf
| NegZero
| Fin (q : Q).

(** [pow2 k] is 2^k for any integer [k]. *)
Definition pow2 (k : Z) : Q := 2 ^ k.

(** [ilog2 q] is floor(log2 q) for a positive rational [q]. *)
Definition ilog2 (q : Q) : Z :=
  let k := (Z.log2 (Qnum q) - Z.log2 (Zpos (Qden q)))%Z in
  if Qle_bool (pow2 k) q then k else (k - 1)%Z.

(** [rne q] is the integer nearest to [q], ties going to the even one. *)
Definition rne (q : Q) : Z :=
  let f := Qfloor q in
  match Qcompare (q - inject_Z f) (1 # 2) with
  | Lt => f
  | Gt => (f + 1)%Z
  | Eq => if Z.even f then f else (f + 1)%Z
  end.

(** The exponent of the unit in the last place of the binade of a positive
    [q]: 52 below floor(log2 q), and never below that of the subnormals. *)
Definition ulpExp (q : Q) : Z := (Z.max (ilog2 q) (-1022) - 52)%Z.

(** [q] rounded to 53 significant bits (fewer in the subnormal range), the
    exponent not yet bounded from above. *)
Definition roundedValue (q : Q) : Q :=
  inject_Z (rne (q * pow2 (- ulpExp q))) * pow2 (ulpExp q).

(** The integer significand that [roundedValue] multiplies by the unit in
    the last place. *)
Definition sig (q : Q) : Z := rne (q * pow2 (- ulpExp q)).

(** The Number value for a positive rational: 2^1024 and above is
    +Infinity. *)
Definition roundPos (q : Q) : number :=
  let v := roundedValue q in
  if Qle_bool (pow2 1024) v then PosInf else Fin (Qred v).

(** Number::unaryMinus. *)
Definition neg (x : number) : number :=
  match x with
  | NaN => NaN
  | PosInf => NegInf
  | NegInf => PosInf
  | NegZero => Fin 0
  | Fin q => if Qeq_bool q 0 then NegZero else Fin (- q)
  end.

(** The Number value for a rational (ECMAScript's F): round to nearest,
    ties to even; a negative rational that rounds to zero gives -0. *)
Definition F (q : Q) : number :=
  match Qcompare q 0 with
  | Eq => Fin 0
  | Gt => roundPos q
  | Lt => neg (roundPos (- q))
  end.

(** The rational [F] aims at, before the exponent is bounded. *)
Definition roundQ (q : Q) : Q :=
  match Qcompare q 0 with
  | Eq => 0
  | Gt => roundedValue q
  | Lt => - roundedValue (- q)
  end.

(** The mathematical value of a finite Number (ECMAScript's R). *)
Definition R (x : number) : Q :=
  match x with
  | Fin q => q
  | _ => 0
  end.

Definition isZero (x : number) : bool :=
  match x with
  | NegZero => true
  | Fin q => Qeq_bool q 0
  | _ => false
  end.

Definition isNaN (x : number) : bool :=
  match x with
  | NaN => true
  | _ => false
  end.

(** Number.isFinite. *)
Definition isFinite (x : number) : bool :=
  match x with
  | NegZero | Fin _ => true
  | _ => false
  end.

(** The sign bit: [true] for negative values and -0. *)
Definition sgn (x : number) : bool :=
  match x with
  | NegInf | NegZero => true
  | Fin q => negb (Qle_bool 0 q)
  | _ => false
  end.

Definition inf (s : bool) : number := if s then NegInf else PosInf.
Definition zero (s : bool) : number := if s then NegZero else Fin 0.

(** Number::add. *)
Definition add (x y : number) : number :=
  match x, y with
  | NaN, _ | _, NaN => NaN
  | PosInf, NegInf | NegInf, PosInf => NaN
  | PosInf, _ | _, PosInf => PosInf
  | NegInf, _ | _, NegInf => NegInf
  | NegZero, NegZero => NegZero
  | _, _ => F (R x + R y)
  end.

(** Number::subtract. *)
Definition sub (x y : number) : number := add x (neg y).

(** Number::multiply. *)
Definition mul (x y : number) : number :=
  match x, y with
  | NaN, _ | _, NaN => NaN
  | (PosInf | NegInf), _ | _, (PosInf | NegInf) =>
      if isZero x || isZero y then NaN else inf (xorb (sgn x) (sgn y))
  | _, _ =>
      if isZero x || isZero y then zero (xorb (sgn x) (sgn y))
      else F (R x * R y)
  end.

(** Number::divide. *)
Definition div (x y : number) : number :=
  match x, y with
  | NaN, _ | _, NaN => NaN
  | (PosInf | NegInf), (PosInf | NegInf) => NaN
  | (PosInf | NegInf), _ => inf (xorb (sgn x) (sgn y))
  | _, (PosInf | NegInf) => zero (xorb (sgn x) (sgn y))
  | _, _ =>
      if isZero y
      then (if isZero x then NaN else inf (xorb (sgn x) (sgn y)))
      else if isZero x then zero (xorb (sgn x) (sgn y))
      else F (R x / R y)
  end.

(** Math.abs. *)
Definition abs (x : number) : number :=
  match x with
  | NaN => NaN
  | PosInf | NegInf => PosInf
  | NegZero => Fin 0
  | Fin q => Fin (Qabs q)
  end.

(** [x < y] of JavaScript: false as soon as one side is NaN. *)
Definition ltb (x y : number) : bool :=
  match x, y with
  | NaN, _ | _, NaN => false
  | PosInf, _ => false
  | _, PosInf => true
  | _, NegInf => false
  | NegInf, _ => true
  | _, _ => negb (Qle_bool (R y) (R x))
  end.

(** [x <= y] of JavaScript. *)
Definition leb (x y : number) : bool :=
  match x, y with
  | NaN, _ | _, NaN => false
  | _, PosInf => true
  | PosInf, _ => false
  | NegInf, _ => true
  | _, NegInf => false
  | _, _ => Qle_bool (R x) (R y)
  end.

(** [x >= y] of JavaScript. *)
Definition geb (x y : number) : bool := leb y x.

(** [x === y] of JavaScript on Numbers: NaN differs from itself, and +0
    equals -0. *)
Definition eqb (x y : number) : bool := leb x y && leb y x.

(** Math.max of two arguments: NaN if one is NaN, and +0 above -0. *)
Definition mathMax (x y : number) : number :=
  match x, y with
  | NaN, _ | _, NaN => NaN
  | _, _ =>
      if ltb x y then y
      else if ltb y x then x
      else if sgn x then y else x
  end.

(** A decimal literal of the source text, or a JSON number: the Number
    value for the rational it denotes. *)
Definition lit (q : Q) : number := F q.

(** The relations behind the comparisons. *)
Definition le (x y : number) : Prop := leb x y = true.
Definition nonneg (x : number) : Prop := leb (Fin 0) x = true.

(** The rationals that binary64 holds: an integer below 2^53 in absolute
    value times a power of two not below 2^-1074, below 2^1024 in absolute
    value. *)
Definition isDouble (q : Q) : Prop :=
  exists (m k : Z),
    q == inject_Z m * pow2 k /\
    (Z.abs m < 2 ^ 53)%Z /\ (-1074 <= k)%Z /\ Qabs q < pow2 1024.

(** A Number of the model that a JavaScript program can hold. *)
Definition representable (x : number) : Prop :=
  match x with
  | Fin q => isDouble q
  | _ => True
  end.

(** The same Number, written the same way. *)
Definition sameNumber (x y : number) : bool :=
  match x, y with
  | NaN, NaN | PosInf, PosInf | NegInf, NegInf | NegZero, NegZero => true
  | Fin p, Fin q => Z.eqb (Qnum p) (Qnum q) && Pos.eqb (Qden p) (Qden q)
  | _, _ => false
  end.

(** Reading a binary64 value of the Standard Library's specification of
    floating point numbers as a Number. *)
Definition ofSpecFloat (f : SpecFloat.spec_float) : number :=
  match f with
  | SpecFloat.S754_zero s => zero s
  | SpecFloat.S754_infinity s => inf s
  | SpecFloat.S754_nan => NaN
  | SpecFloat.S754_finite s m e =>
      let v := inject_Z (Zpos m) * pow2 e in
      Fin (Qred (if s then - v else v))
  end.

End Number.

Import Number.

(* ===================================================================== *)
(** * Part 2. The program                                                 *)
(* ===================================================================== *)

(** The literals of the source text. *)
Definition n0 : number := Fin 0.
Definition n1 : number := lit 1.
Definition n100 : number := lit 100.
Definition n0_5 : number := lit (1 # 2).
Definition n0_01 : number := lit (1 # 100).
Definition n1e_6 : number := lit (1 # 1000000).
Definition n1e_2 : number := lit (1 # 100).

(** A card of the chase-cards payload.  [fmv] and [probability] are the
    fields after the [Number(...)] the source applies at every use (a field
    that is not numeric is NaN); [title] stands for the display fields,
    which the computations never read. *)
Record Card : Type := mkCard {
  title : string;
  fmv : number;
  probability : number
}.

(** ** probabilityScale *)

(** [cards.reduce((sum, card) => sum + Number(card.probability), 0)] *)
Definition rawSum (cards : list Card) : number :=
  fold_left (fun sum card => add sum (probability card)) cards n0.

Definition probabilityScale (cards : list Card) : number :=
  let rawSum := rawSum cards in
  if ltb (abs (sub rawSum n1)) n1e_6 then n1
  else if ltb (abs (sub rawSum n100)) n1e_2 then n0_01
  else div n1 rawSum.

(** ** The three reductions of computeMetrics *)

(** [cards.reduce((sum, card) => { const p = Number(card.probability) *
    scale; const value = Number(card.fmv); return sum + p * value; }, 0)] *)
Definition expectedValueOf (cards : list Card) (scale : number) : number :=
  fold_left
    (fun sum card =>
       let p := mul (probability card) scale in
       let value := fmv card in
       add sum (mul p value))
    cards n0.

(** The comparator handed to [sort]. *)
Definition byFmv (a b : Card) : number := sub (fmv a) (fmv b).

(** [Array.prototype.sort] with a comparator.  ECMAScript asks for a stable
    sort: [a] is placed after [b] exactly when the comparator's result is
    greater than zero (a NaN result counts as zero), and elements that
    compare as equal keep their order.  The model is insertion, from the
    last element to the first.  It is the sort of the program for a
    consistent comparator, which [byFmv] is when no fmv is NaN
    ([sortByFmv_sorted], [sortByFmv_stable]).  For a comparator that is
    not consistent ECMAScript leaves the order to the implementation:
    the order of the model is then one of those it allows, and need not
    be the one an engine produces. *)
Fixpoint insertSorted (cmp : Card -> Card -> number) (a : Card)
  (l : list Card) : list Card :=
  match l with
  | [] => [a]
  | b :: rest =>
      if ltb n0 (cmp a b) then b :: insertSorted cmp a rest
      else a :: l
  end.

Definition sortWith (cmp : Card -> Card -> number) (l : list Card)
  : list Card :=
  fold_right (insertSorted cmp) [] l.

Definition sortByFmv (cards : list Card) : list Card := sortWith byFmv cards.

(** The [for (const card of sorted)] loop with its [break]: [cumulative]
    is the running total on entry; the result is [medianValue] on exit,
    which keeps its initial value 0 when the loop runs to the end. *)
Fixpoint medianLoop (sorted : list Card) (scale cumulative : number)
  : number :=
  match sorted with
  | [] => n0
  | card :: rest =>
      let cumulative := add cumulative (mul (probability card) scale) in
      if geb cumulative n0_5 then fmv card
      else medianLoop rest scale cumulative
  end.

Definition medianOf (sorted : list Card) (scale : number) : number :=
  medianLoop sorted scale n0.

(** [cards.reduce((sum, card) => { if (Number(card.fmv) >= costOfPack)
    { return sum + Number(card.probability) * scale; } return sum; }, 0)
    * 100] *)
Definition oddsSum (cards : list Card) (scale costOfPack : number)
  : number :=
  fold_left
    (fun sum card =>
       if geb (fmv card) costOfPack
       then add sum (mul (probability card) scale)
       else sum)
    cards n0.

Definition oddsOverCostOf (cards : list Card) (scale costOfPack : number)
  : number :=
  mul (oddsSum cards scale costOfPack) n100.

Record Metrics : Type := mkMetrics {
  expectedValue : number;
  medianValue : number;
  oddsOverCost : number;
  costOfPack : number;
  profit : number;
  evPercent : number;
  profitPercent : number;
  medianPercent : number;
  probScale : number
}.

(** The end of computeMetrics: the four derived values and the object
    returned, from the values computed before. *)
Definition metricsRecord
  (expectedValue medianValue oddsOverCost costOfPack scale : number)
  : Metrics :=
  let profit := sub expectedValue costOfPack in
  let evPercent := mul (div expectedValue costOfPack) n100 in
  let profitPercent := mul (div profit costOfPack) n100 in
  let medianPercent :=
    mul (div (sub medianValue costOfPack) costOfPack) n100 in
  {| expectedValue := expectedValue;
     medianValue := medianValue;
     oddsOverCost := oddsOverCost;
     costOfPack := costOfPack;
     profit := profit;
     evPercent := evPercent;
     profitPercent := profitPercent;
     medianPercent := medianPercent;
     probScale := scale |}.

(** ** The curve of buildProfitCurve *)

Module CurvePoint.
Record t : Type := mk {
  x : number;
  y : number;
  profitPct : number
}.
End CurvePoint.

(** [sorted.reduce((sum, card) => sum + Number(card.probability) * scale,
    0)] *)
Definition scaledMass (cards : list Card) (scale : number) : number :=
  fold_left (fun sum card => add sum (mul (probability card) scale))
    cards n0.

(** [sorted.map(card => ...)], whose callback reads and then decrements the
    captured variable [tailProb]. *)
Fixpoint curveWalk (sorted : list Card) (priceUsd scale tailProb : number)
  : list CurvePoint.t :=
  match sorted with
  | [] => []
  | card :: rest =>
      let value := mathMax (fmv card) n0_01 in
      let profitPct := mul (div (sub value priceUsd) priceUsd) n100 in
      let y := mul tailProb n100 in
      let tailProb := sub tailProb (mul (probability card) scale) in
      CurvePoint.mk value y profitPct
        :: curveWalk rest priceUsd scale tailProb
  end.

Definition curveFrom (sorted : list Card) (priceUsd scale : number)
  : list CurvePoint.t :=
  curveWalk sorted priceUsd scale (scaledMass sorted scale).

(** ** Arrays are objects: the store *)

(** A JavaScript array is a mutable object that the callee shares with its
    caller.  The store holds the arrays of cards allocated so far; a
    reference is a position in it. *)
Definition ref : Type := nat.
Definition Store : Type := list (list Card).

(** A computation on the store; [None] is the use of a reference that was
    never allocated, which no JavaScript program can form. *)
Definition M (A : Type) : Type := Store -> option (A * Store).

Definition ret {A : Type} (a : A) : M A := fun s => Some (a, s).

Definition bind {A B : Type} (m : M A) (k : A -> M B) : M B :=
  fun s =>
    match m s with
    | Some (a, s') => k a s'
    | None => None
    end.

Notation "v <- m ;; k" := (bind m (fun v => k))
  (at level 61, m at next level, right associativity).

(** Reading the elements of an array ([reduce], [for ... of] and [map]
    only read). *)
Definition elements (r : ref) : M (list Card) :=
  fun s =>
    match nth_error s r with
    | Some cs => Some (cs, s)
    | None => None
    end.

(** [[...cards]]: a new array with the same elements. *)
Definition spread (r : ref) : M ref :=
  fun s =>
    match nth_error s r with
    | Some cs => Some (List.length s, s ++ [cs])
    | None => None
    end.

Fixpoint setArray (r : ref) (cs : list Card) (s : Store) : Store :=
  match s, r with
  | [], _ => []
  | _ :: rest, O => cs :: rest
  | a :: rest, S r' => a :: setArray r' cs rest
  end.

(** [array.sort(cmp)]: sorts the array in place and returns it. *)
Definition sortInPlace (cmp : Card -> Card -> number) (r : ref) : M ref :=
  fun s =>
    match nth_error s r with
    | Some cs => Some (r, setArray r (sortWith cmp cs) s)
    | None => None
    end.

(** ** computeMetrics and buildProfitCurve *)

(** [priceUsd] is the price after [Number(priceUsd)]. *)
Definition computeMetrics (cards : ref) (priceUsd : number) : M Metrics :=
  let costOfPack := priceUsd in
  cs <- elements cards ;;
  let scale := probabilityScale cs in
  cs <- elements cards ;;
  let expectedValue := expectedValueOf cs scale in
  copy <- spread cards ;;
  sorted <- sortInPlace byFmv copy ;;
  ss <- elements sorted ;;
  let medianValue := medianOf ss scale in
  cs <- elements cards ;;
  let oddsOverCost := oddsOverCostOf cs scale costOfPack in
  ret (metricsRecord expectedValue medianValue oddsOverCost costOfPack scale).

Definition buildProfitCurve (cards : ref) (priceUsd scale : number)
  : M (list CurvePoint.t) :=
  copy <- spread cards ;;
  sorted <- sortInPlace byFmv copy ;;
  ss <- elements sorted ;;
  ret (curveFrom ss priceUsd scale).

(** What the two functions return for an array holding [cards]
    ([computeMetrics_run] and [buildProfitCurve_run] below). *)
Definition metricsOf (cards : list Card) (priceUsd : number) : Metrics :=
  let costOfPack := priceUsd in
  let scale := probabilityScale cards in
  let expectedValue := expectedValueOf cards scale in
  let medianValue := medianOf (sortByFmv cards) scale in
  let oddsOverCost := oddsOverCostOf cards scale costOfPack in
  metricsRecord expectedValue medianValue oddsOverCost costOfPack scale.

Definition curveOf (cards : list Card) (priceUsd scale : number)
  : list CurvePoint.t :=
  curveFrom (sortByFmv cards) priceUsd scale.

(** ** The command line script *)

(** [calculateExpectedValue] of the script, from the two parsed responses
    on: [cards] is [payload.data] and [costOfPack] is
    [Number(prices.data[tier].priceUsd)].  The fetches before and the
    [console.log] lines after are input and output only. *)
Module Script.

Record Report : Type := mkReport {
  expectedCardValue : number;
  medianCardValue : number;
  costOfPack : number;
  expectedProfit : number;
  evPercent : number;
  profitPercent : number;
  oddsOverCostPercent : number
}.

Definition probScale (cards : list Card) : number :=
  let rawProbSum :=
    fold_left (fun sum card => add sum (probability card)) cards n0 in
  if ltb (abs (sub rawProbSum n1)) n1e_6 then n1
  else if ltb (abs (sub rawProbSum n100)) n1e_2 then div n1 n100
  else div n1 rawProbSum.

Definition calculateExpectedValue (cards : list Card) (costOfPack : number)
  : Report :=
  let probScale := probScale cards in
  let expectedCardValue :=
    fold_left
      (fun sum card =>
         let p := mul (probability card) probScale in
         let value := fmv card in
         add sum (mul p value))
      cards n0 in
  let sortedCards := sortByFmv cards in
  let medianCardValue := medianLoop sortedCards probScale n0 in
  let oddsOverCost :=
    fold_left
      (fun sum card =>
         if geb (fmv card) costOfPack
         then add sum (mul (probability card) probScale)
         else sum)
      cards n0 in
  let oddsOverCostPercent := mul oddsOverCost n100 in
  let expectedProfit := sub expectedCardValue costOfPack in
  let evPercent := mul (div expectedCardValue costOfPack) n100 in
  let profitPercent := mul (div expectedProfit costOfPack) n100 in
  {| expectedCardValue := expectedCardValue;
     medianCardValue := medianCardValue;
     costOfPack := costOfPack;
     expectedProfit := expectedProfit;
     evPercent := evPercent;
     profitPercent := profitPercent;
     oddsOverCostPercent := oddsOverCostPercent |}.

End Script.

(** ** usePersistentTheme *)

(** localStorage: [getItem] gives null ([None]) for a key that was never
    set. *)
Definition Storage : Type := string -> option string.

Definition getItem (st : Storage) (key : string) : option string := st key.

Definition setItem (key value : string) (st : Storage) : Storage :=
  fun k => if String.eqb k key then Some value else st k.

(** [v || d] where [v] is a string or null: null and the empty string are
    falsy. *)
Definition orElse (v : option string) (d : string) : string :=
  match v with
  | Some s => if String.eqb s "" then d else s
  | None => d
  end.

(** The state of the hook, with what its effect writes: the item of
    localStorage and the attribute data-theme of the document. *)
Record Page : Type := mkPage {
  theme : string;
  storage : Storage;
  dataTheme : option string
}.

(** The effect, run after the first render and after every render in
    which [theme] has changed. *)
Definition themeEffect (p : Page) : Page :=
  {| theme := theme p;
     storage := setItem "theme" (theme p) (storage p);
     dataTheme := Some (theme p) |}.

(** The first render: [useState(() => localStorage.getItem('theme') ||
    'light')], then the effect.  [attribute] is what data-theme held
    before. *)
Definition usePersistentTheme (st : Storage) (attribute : option string)
  : Page :=
  themeEffect
    {| theme := orElse (getItem st "theme") "light";
       storage := st;
       dataTheme := attribute |}.

(** [setTheme(current => current === 'dark' ? 'light' : 'dark')]; a state
    that has not changed gives no render and no effect. *)
Definition toggleTheme (p : Page) : Page :=
  let next := if String.eqb (theme p) "dark" then "light"%string
              else "dark"%string in
  if String.eqb next (theme p) then p
  else themeEffect
         {| theme := next; storage := storage p; dataTheme := dataTheme p |}.

(** ** ChartBox and TierSection *)

(** The object [{ tierName, cards, metrics, curve }] that loadData builds
    for a tier and TierSection receives; [cards] is the array itself. *)
Module Tier.
Record t : Type := mk {
  tierName : string;
  cards : ref;
  metrics : Metrics;
  curve : list CurvePoint.t
}.
End Tier.

(** The data set of the chart, [curve.map(pt => ({ x: pt.x, y: pt.y }))];
    the effect of ChartBox returns before it draws when the curve is
    empty. *)
Definition chartData (curve : list CurvePoint.t)
  : option (list (number * number)) :=
  match curve with
  | [] => None
  | _ => Some (map (fun pt => (CurvePoint.x pt, CurvePoint.y pt)) curve)
  end.

(** The class of a profit chip, [pct >= 0 ? '' : 'negative'], and the sign
    written before its percentage, [pct >= 0 ? '+' : '']. *)
Definition chipClass (pct : number) : string :=
  if geb pct n0 then ""%string else "negative"%string.

Definition signPrefix (pct : number) : string :=
  if geb pct n0 then "+"%string else ""%string.

(** The pull percentage of a row of the table:
    [Number(card.probability) * metrics.probScale * 100]. *)
Definition chance (card : Card) (metrics : Metrics) : number :=
  mul (mul (probability card) (probScale metrics)) n100.

(** What TierSection shows below the metrics: the table, one pull
    percentage per card, with the chart, or the text that there is no card
    data. *)
Inductive TierBody : Type :=
| CardTable (pullPercents : list number)
    (chart : option (list (number * number)))
| NoCardData.

Definition tierBody (cards : list Card) (metrics : Metrics)
  (curve : list CurvePoint.t) : TierBody :=
  match cards with
  | [] => NoCardData
  | _ => CardTable (map (fun card => chance card metrics) cards)
           (chartData curve)
  end.

Definition tierSection (tier : Tier.t) : M TierBody :=
  cs <- elements (Tier.cards tier) ;;
  ret (tierBody cs (Tier.metrics tier) (Tier.curve tier)).

(** ** loadData *)

(** An array that did not exist before: an array literal, or an array of a
    parsed response. *)
Definition newArray (cs : list Card) : M ref :=
  fun s => Some (List.length s, s ++ [cs]).

(** [payload.data || []]: [data] is the array of the payload, if it has
    one. *)
Definition dataOrEmpty (data : option ref) : M ref :=
  match data with
  | Some cards => ret cards
  | None => newArray []
  end.

(** The callback of [tiers.map] from the parsed payload on; [priceUsd] is
    [Number(priceData.data[tierName].priceUsd)]. *)
Definition loadTier (tierName : string) (data : option ref)
  (priceUsd : number) : M Tier.t :=
  cards <- dataOrEmpty data ;;
  metrics <- computeMetrics cards priceUsd ;;
  curve <- buildProfitCurve cards (costOfPack metrics) (probScale metrics) ;;
  ret (Tier.mk tierName cards metrics curve).

(** How an awaited promise has settled; an error is kept as its message.
    A promise that never settles is no value of this type: loadData awaits
    [fetch] without a timeout, and with a request that stays pending it
    stays pending itself, [loading] being true. *)
Inductive Settled (A : Type) : Type :=
| Fulfilled (value : A)
| Rejected (message : string).

Arguments Fulfilled {A} value.
Arguments Rejected {A} message.

(** What [fetch] resolves to, as far as loadData reads it: the [ok] flag
    and what [json()] settles to. *)
Record Response (A : Type) : Type := mkResponse {
  ok : bool;
  json : Settled A
}.

Arguments mkResponse {A} ok json.
Arguments ok {A} r.
Arguments json {A} r.

(** The [data] of the price payload, if it has one: the tiers in the order
    of [Object.keys], each with [Number(priceUsd)] of its entry. *)
Definition PriceData : Type := option (list (string * number)).

(** The [data] of a card payload, if it has one. *)
Definition CardData : Type := option (list Card).

(** The start of the try block: the price response, the test of [ok], the
    parsed payload, and [Object.keys(priceData.data || {})] with the price
    of each key. *)
Definition fetchPrices (priceResponse : Settled (Response PriceData))
  : Settled (list (string * number)) :=
  match priceResponse with
  | Rejected e => Rejected e
  | Fulfilled res =>
      if negb (ok res) then Rejected "Failed to fetch prices"%string
      else match json res with
           | Rejected e => Rejected e
           | Fulfilled data =>
               Fulfilled (match data with
                          | Some entries => entries
                          | None => []
                          end)
           end
  end.

(** The callback of [tiers.map]: the promise it returns is rejected with
    what it throws. *)
Definition tierCallback (tierName : string) (priceUsd : number)
  (cardRes : Settled (Response CardData)) : M (Settled Tier.t) :=
  match cardRes with
  | Rejected e => ret (Rejected e)
  | Fulfilled res =>
      if negb (ok res)
      then ret (Rejected ("Failed to fetch cards for " ++ tierName)%string)
      else match json res with
           | Rejected e => ret (Rejected e)
           | Fulfilled payloadData =>
               data <- match payloadData with
                       | Some cs => (r <- newArray cs ;; ret (Some r))
                       | None => ret None
                       end ;;
               tier <- loadTier tierName data priceUsd ;;
               ret (Fulfilled tier)
           end
  end.

(** The promises of [tiers.map(async ...)], each settled; [cardResponse]
    is what the card request of a tier settles to.  The arrays are
    allocated in the order of the tiers. *)
Fixpoint settleAll (entries : list (string * number))
  (cardResponse : string -> Settled (Response CardData))
  : M (list (Settled Tier.t)) :=
  match entries with
  | [] => ret []
  | (tierName, priceUsd) :: rest =>
      p <- tierCallback tierName priceUsd (cardResponse tierName) ;;
      ps <- settleAll rest cardResponse ;;
      ret (p :: ps)
  end.

Fixpoint allFulfilled {A : Type} (ps : list (Settled A)) : option (list A) :=
  match ps with
  | [] => Some []
  | Fulfilled v :: rest =>
      match allFulfilled rest with
      | Some vs => Some (v :: vs)
      | None => None
      end
  | Rejected _ :: _ => None
  end.

(** [Promise.all]: fulfilled with the values in the order of the promises
    when all are fulfilled; rejected as soon as one is, with its error,
    the first rejection in time being any of the rejections. *)
Inductive promiseAll {A : Type} (ps : list (Settled A))
  : Settled (list A) -> Prop :=
| all_fulfilled (vs : list A) :
    allFulfilled ps = Some vs -> promiseAll ps (Fulfilled vs)
| one_rejected (e : string) :
    In (Rejected e) ps -> promiseAll ps (Rejected e).

(** The text of the status line; [Updated] carries the time of day. *)
Inductive Status : Type :=
| Waiting
| Fetching
| Updated (time : string)
| ErrorLoading.

(** The state of App that loadData sets. *)
Record App : Type := mkApp {
  tiers : list Tier.t;
  status : Status;
  error : string;
  loading : bool
}.

(** The end of loadData: [setTiers] and [setStatus] after [Promise.all],
    or the catch block with [err.message || 'Unable to load data right
    now.'], and the finally block. *)
Definition settle (time : string) (outcome : Settled (list Tier.t))
  (app : App) : App :=
  match outcome with
  | Fulfilled tierResults =>
      {| tiers := tierResults;
         status := Updated time;
         error := ""%string;
         loading := false |}
  | Rejected message =>
      {| tiers := tiers app;
         status := ErrorLoading;
         error := orElse (Some message) "Unable to load data right now.";
         loading := false |}
  end.

(** loadData, from the state and the store at the call to those when its
    promise has settled, for requests that have settled as [priceResponse]
    and [cardResponse] say. *)
Inductive loadData (time : string)
  (priceResponse : Settled (Response PriceData))
  (cardResponse : string -> Settled (Response CardData))
  (app : App) (s : Store) : App -> Store -> Prop :=
| prices_failed (e : string) :
    fetchPrices priceResponse = Rejected e ->
    loadData time priceResponse cardResponse app s
      (settle time (Rejected e) app) s
| tiers_settled (entries : list (string * number))
    (ps : list (Settled Tier.t)) (s' : Store)
    (outcome : Settled (list Tier.t)) :
    fetchPrices priceResponse = Fulfilled entries ->
    settleAll entries cardResponse s = Some (ps, s') ->
    promiseAll ps outcome ->
    loadData time priceResponse cardResponse app s
      (settle time outcome app) s'.

(** ** Notions the statements use *)


(** A card with its value replaced. *)
Definition withFmv (v : number) (card : Card) : Card :=
  mkCard (title card) v (probability card).

(** Every later element is [<=] every earlier one. *)
Definition nonIncreasing (ys : list number) : Prop :=
  forall i j yi yj, (i < j)%nat ->
    nth_error ys i = Some yi -> nth_error ys j = Some yj -> le yj yi.

(** A card whose value is a Number other than NaN. *)
Definition wellFormed (c : Card) : Prop :=
  isNaN (fmv c) = false /\ representable (fmv c).

Definition ascending (a b : Card) : Prop := le (fmv a) (fmv b).

(** The page after the first render and a number of clicks on the theme
    button. *)
Definition pageAfter (st : Storage) (attribute : option string)
  (clicks : nat) : Page :=
  Nat.iter clicks toggleTheme (usePersistentTheme st attribute).

(** A card request that makes the callback of loadData throw: the request
    or the parsing is rejected, or the response is not ok. *)
Definition cardsFailed (cardRes : Settled (Response CardData)) : bool :=
  match cardRes with
  | Rejected _ => true
  | Fulfilled res =>
      negb (ok res) ||
      match json res with
      | Rejected _ => true
      | Fulfilled _ => false
      end
  end.

(** The cards a callback that does not throw works on:
    [payload.data || []]. *)
Definition cardsOf (cardRes : Settled (Response CardData)) : list Card :=
  match cardRes with
  | Fulfilled res =>
      match json res with
      | Fulfilled (Some cs) => cs
      | _ => []
      end
  | Rejected _ => []
  end.

(** The object a callback returns for a tier and its price, from the
    cards [cs] held by the array [cards]. *)
Definition tierOf (entry : string * number) (cs : list Card) (cards : ref)
  : Tier.t :=
  Tier.mk (fst entry) cards (metricsOf cs (snd entry))
    (curveOf cs (snd entry) (probabilityScale cs)).

(** The unit roundoff of binary64, and half the smallest subnormal. *)
Definition eps : Q := pow2 (-53).
Definition eta : Q := pow2 (-1075).

(** The exact sum, a rational, of the values [f] gives for the cards, and
    the number of cards as a rational. *)
Definition exactSum (f : Card -> number) (cards : list Card) : Q :=
  fold_right (fun card q => R (f card) + q) 0 cards.

Definition cardCount (cards : list Card) : Q :=
  inject_Z (Z.of_nat (List.length cards)).

(** What the normalizer achieves for a scale [s]: the scaled
    probabilities are finite, and their exact sum and the sum the code
    computes, whatever the order, are within [b] of 1. *)
Definition normalizedWithin (cards order : list Card) (s : number) (b : Q)
  : Prop :=
  isFinite s = true /\ nonneg s /\
  isFinite (scaledMass order s) = true /\
  (forall c, In c cards ->
     nonneg (mul (probability c) s) /\
     isFinite (mul (probability c) s) = true) /\
  1 - b <= R (scaledMass order s) /\ R (scaledMass order s) <= 1 + b /\
  1 - b <= exactSum (fun c => mul (probability c) s) cards /\
  exactSum (fun c => mul (probability c) s) cards <= 1 + b.

(** ** Inputs used as examples *)

(** The scenario of the specification: three cards, true probabilities. *)
Definition scenario : list Card :=
  [ mkCard "common"%string (lit 1) (lit (1 # 2));
    mkCard "rare"%string (lit 10) (lit (3 # 10));
    mkCard "chase"%string (lit 100) (lit (2 # 10)) ].

(** Three equally likely cards, the probabilities in arbitrary units. *)
Definition threeAlike : list Card :=
  [ mkCard "a"%string (lit 1) (lit 1);
    mkCard "b"%string (lit 2) (lit 1);
    mkCard "c"%string (lit 3) (lit 1) ].

(** The degenerate distribution: every probability is 0. *)
Definition allZero : list Card :=
  [ mkCard "a"%string (lit 1) n0; mkCard "b"%string (lit 2) n0 ].

(** One card whose probability, 1.0000005, is within 1e-6 of 1. *)
Definition nearlyOne : list Card :=
  [ mkCard "only"%string (lit 10) (lit (10000005 # 10000000)) ].

(** Three cards worth 3 with probabilities 0.1, 0.7 and 0.2, whose sum in
    binary64 is 1. *)
Definition allWorthThree : list Card :=
  [ mkCard "a"%string (lit 3) (lit (1 # 10));
    mkCard "b"%string (lit 3) (lit (7 # 10));
    mkCard "c"%string (lit 3) (lit (2 # 10)) ].

(** The scenario with its cards in descending order of value. *)
Definition descending : list Card :=
  [ mkCard "chase"%string (lit 100) (lit (2 # 10));
    mkCard "rare"%string (lit 10) (lit (3 # 10));
    mkCard "common"%string (lit 1) (lit (1 # 2)) ].

(** Five cards with probabilities 0.35, 0.45, 0.05, 0.05 and 0.1: the five
    doubles sum to exactly 1, and added from left to right they give
    1.0000000000000002. *)
Definition fiveCards : list Card :=
  [ mkCard "a"%string (lit 1) (lit (35 # 100));
    mkCard "b"%string (lit 2) (lit (45 # 100));
    mkCard "c"%string (lit 3) (lit (5 # 100));
    mkCard "d"%string (lit 4) (lit (5 # 100));
    mkCard "e"%string (lit 5) (lit (1 # 10)) ].

(** The scenario with the probabilities as percentages, and in arbitrary
    units. *)
Definition scenarioPercent : list Card :=
  [ mkCard "common"%string (lit 1) (lit 50);
    mkCard "rare"%string (lit 10) (lit 30);
    mkCard "chase"%string (lit 100) (lit 20) ].

Definition scenarioUnits : list Card :=
  [ mkCard "common"%string (lit 1) (lit 5);
    mkCard "rare"%string (lit 10) (lit 3);
    mkCard "chase"%string (lit 100) (lit 2) ].

(** The metrics without the scale they were computed with. *)
Definition withoutScale (m : Metrics) : list number :=
  [ expectedValue m; medianValue m; oddsOverCost m; costOfPack m;
    profit m; evPercent m; profitPercent m; medianPercent m ].

(** Two cards, the probability of the second not a number. *)
Definition malformed : list Card :=
  [ mkCard "common"%string (lit 1) (lit (1 # 2));
    mkCard "rare"%string (lit 10) NaN ].

(** A price response with two tiers, a card response that is good for
    every tier, one that is good for Starter only, and the state of App
    before the first load. *)
Definition twoPrices : Settled (Response PriceData) :=
  Fulfilled
    (mkResponse true
       (Fulfilled
          (Some [ ("Starter"%string, lit 5); ("Premium"%string, lit 50) ]))).

Definition pricesDown : Response PriceData :=
  mkResponse false (Fulfilled None).

Definition goodCards (tierName : string) : Settled (Response CardData) :=
  Fulfilled (mkResponse true (Fulfilled (Some scenario))).

Definition premiumDown (tierName : string) : Settled (Response CardData) :=
  if String.eqb tierName "Premium"
  then Fulfilled (mkResponse false (Fulfilled None))
  else goodCards tierName.

Definition firstApp : App :=
  {| tiers := []; status := Waiting; error := ""%string; loading := false |}.

(** binary64 values, as the Standard Library writes them: 0, -0, the
    infinities, NaN, 0.1, 49, the largest double, the smallest subnormal
    and -1.0000005. *)
Definition binary64Samples : list SpecFloat.spec_float :=
  [ SpecFloat.S754_zero false; SpecFloat.S754_zero true;
    SpecFloat.S754_infinity false; SpecFloat.S754_infinity true;
    SpecFloat.S754_nan;
    SpecFloat.S754_finite false 7205759403792794 (-56);
    SpecFloat.S754_finite false 6896136929411072 (-47);
    SpecFloat.S754_finite false 9007199254740991 971;
    SpecFloat.S754_finite false 1 (-1074);
    SpecFloat.S754_finite true 4503601879170310 (-52) ].

(** An operation of the model and the Standard Library's binary64 operation
    give the same Number on every pair of samples. *)
Definition agreesOnSamples
  (op : number -> number -> number)
  (sf : SpecFloat.spec_float -> SpecFloat.spec_float -> SpecFloat.spec_float)
  : bool :=
  forallb
    (fun a =>
       forallb
         (fun b =>
            sameNumber (ofSpecFloat (sf a b))
              (op (ofSpecFloat a) (ofSpecFloat b)))
         binary64Samples)
    binary64Samples.


Arguments F : simpl never.

(* ===================================================================== *)
(** * Part 3. Facts about Numbers                                         *)
(* ===================================================================== *)

(** ** Powers of two, the binary logarithm, rounding to an integer *)

Lemma pow2_pos (k : Z) : 0 < pow2 k.
Proof. apply Qpower_0_lt. reflexivity. Qed.

Lemma pow2_nonneg (k : Z) : 0 <= pow2 k.
Proof. apply Qlt_le_weak, pow2_pos. Qed.

Lemma pow2_add (a b : Z) : pow2 (a + b) == pow2 a * pow2 b.
Proof. apply Qpower_plus. discriminate. Qed.

Lemma pow2_le (a b : Z) : (a <= b)%Z -> pow2 a <= pow2 b.
Proof. intro H. apply Qpower_le_compat_l; [exact H | discriminate]. Qed.

Lemma pow2_lt (a b : Z) : (a < b)%Z -> pow2 a < pow2 b.
Proof. intro H. apply Qpower_lt_compat_l; [exact H | reflexivity]. Qed.

Lemma pow2_lt_inv (a b : Z) : pow2 a < pow2 b -> (a < b)%Z.
Proof. intro H. apply (Qpower_lt_compat_l_inv 2); [exact H | reflexivity]. Qed.

Lemma pow2_Z (k : Z) : (0 <= k)%Z -> pow2 k == inject_Z (2 ^ k).
Proof. intro H. unfold pow2. rewrite (Zpower_Qpower 2 k H). reflexivity. Qed.

Lemma pow2_cancel (k : Z) : pow2 k * pow2 (- k) == 1.
Proof.
  rewrite <- pow2_add. replace (k + - k)%Z with 0%Z by lia. reflexivity.
Qed.

Lemma pow2_succ (k : Z) : pow2 (k + 1) == 2 * pow2 k.
Proof. rewrite pow2_add. change (pow2 1) with 2. ring. Qed.

Lemma Q_num_den (q : Q) : inject_Z (Qnum q) == q * inject_Z (Zpos (Qden q)).
Proof.
  destruct q as [n d]. unfold Qeq, inject_Z, Qmult. simpl. lia.
Qed.

Lemma ilog2_spec (q : Q) :
  0 < q -> pow2 (ilog2 q) <= q /\ q < pow2 (ilog2 q + 1).
Proof.
  intro Hq.
  assert (Hn : (0 < Qnum q)%Z).
  { destruct q as [n d]. unfold Qlt in Hq. simpl in *. lia. }
  set (a := Z.log2 (Qnum q)). set (b := Z.log2 (Zpos (Qden q))).
  destruct (Z.log2_spec (Qnum q) Hn) as [Hn1 Hn2].
  destruct (Z.log2_spec (Zpos (Qden q)) (Pos2Z.is_pos _)) as [Hd1 Hd2].
  fold a in Hn1, Hn2. fold b in Hd1, Hd2.
  assert (Ha : (0 <= a)%Z) by apply Z.log2_nonneg.
  assert (Hb : (0 <= b)%Z) by apply Z.log2_nonneg.
  rewrite Zle_Qle, <- pow2_Z in Hn1 by lia.
  rewrite Zlt_Qlt, <- pow2_Z in Hn2 by lia.
  rewrite Zle_Qle, <- pow2_Z in Hd1 by lia.
  rewrite Zlt_Qlt, <- pow2_Z in Hd2 by lia.
  pose proof (Q_num_den q) as E.
  assert (Hup : q < pow2 (a - b + 1)).
  { assert (E1 : pow2 (Z.succ a) == pow2 (a - b + 1) * pow2 b).
    { rewrite <- pow2_add. replace (a - b + 1 + b)%Z with (Z.succ a) by lia. reflexivity. }
    pose proof (pow2_pos (a - b + 1)). pose proof (pow2_pos b).
    rewrite E1, E in Hn2. nra. }
  assert (Hlo : pow2 (a - b - 1) <= q).
  { assert (E1 : pow2 a == pow2 (a - b - 1) * pow2 (Z.succ b)).
    { rewrite <- pow2_add. replace (a - b - 1 + Z.succ b)%Z with a by lia. reflexivity. }
    pose proof (pow2_pos (a - b - 1)). pose proof (pow2_pos (Z.succ b)).
    rewrite E1, E in Hn1. nra. }
  unfold ilog2. fold a b.
  destruct (Qle_bool (pow2 (a - b)) q) eqn:C.
  - apply Qle_bool_iff in C. split; assumption.
  - split; [exact Hlo|].
    replace (a - b - 1 + 1)%Z with (a - b)%Z by lia.
    apply Qnot_le_lt. intro H. apply Qle_bool_iff in H. congruence.
Qed.

Lemma ilog2_mono (p q : Q) : 0 < p -> p <= q -> (ilog2 p <= ilog2 q)%Z.
Proof.
  intros Hp Hpq.
  destruct (ilog2_spec p Hp) as [A _].
  destruct (ilog2_spec q) as [_ B]; [lra|].
  assert (H : pow2 (ilog2 p) < pow2 (ilog2 q + 1)) by lra.
  apply pow2_lt_inv in H. lia.
Qed.

Lemma ilog2_unique (q : Q) (e : Z) :
  0 < q -> pow2 e <= q -> q < pow2 (e + 1) -> ilog2 q = e.
Proof.
  intros Hq Hl Hu. destruct (ilog2_spec q Hq) as [Al Au].
  assert (A : pow2 e < pow2 (ilog2 q + 1)) by lra.
  assert (B : pow2 (ilog2 q) < pow2 (e + 1)) by lra.
  apply pow2_lt_inv in A. apply pow2_lt_inv in B. lia.
Qed.

Lemma ilog2_wd (p q : Q) : p == q -> 0 < p -> ilog2 p = ilog2 q.
Proof.
  intros E Hp. symmetry. destruct (ilog2_spec p Hp) as [Al Au].
  apply ilog2_unique; lra.
Qed.

Lemma rne_wd (x y : Q) : x == y -> rne x = rne y.
Proof.
  intro E. unfold rne.
  rewrite (Qfloor_comp x y E).
  assert (E' : x - inject_Z (Qfloor y) == y - inject_Z (Qfloor y))
    by (rewrite E; reflexivity).
  rewrite (Qcompare_comp _ _ E' (1 # 2) (1 # 2) (Qeq_refl _)).
  reflexivity.
Qed.

Lemma rne_Z (n : Z) : rne (inject_Z n) = n.
Proof.
  unfold rne. rewrite Qfloor_Z.
  destruct (Qcompare_spec (inject_Z n - inject_Z n) (1 # 2)); try lra.
  reflexivity.
Qed.

Lemma rne_mono (x y : Q) : x <= y -> (rne x <= rne y)%Z.
Proof.
  intro H. pose proof (Qfloor_resp_le x y H) as Hf.
  pose proof (Qfloor_le x). pose proof (Qlt_floor x).
  pose proof (Qfloor_le y). pose proof (Qlt_floor y).
  unfold rne.
  destruct (Z.eq_dec (Qfloor x) (Qfloor y)) as [E | N].
  - rewrite E in *.
    destruct (Qcompare_spec (x - inject_Z (Qfloor y)) (1 # 2));
      destruct (Qcompare_spec (y - inject_Z (Qfloor y)) (1 # 2));
      destruct (Z.even (Qfloor y)); try lia; lra.
  - destruct (Qcompare_spec (x - inject_Z (Qfloor x)) (1 # 2));
      destruct (Qcompare_spec (y - inject_Z (Qfloor y)) (1 # 2));
      destruct (Z.even (Qfloor x)); destruct (Z.even (Qfloor y)); lia.
Qed.

Lemma rne_le_Z (x : Q) (n : Z) : x <= inject_Z n -> (rne x <= n)%Z.
Proof. intro H. rewrite <- (rne_Z n). apply rne_mono, H. Qed.

Lemma rne_ge_Z (x : Q) (n : Z) : inject_Z n <= x -> (n <= rne x)%Z.
Proof. intro H. rewrite <- (rne_Z n). apply rne_mono, H. Qed.


(** ** Rounding to 53 bits *)

Lemma roundedValue_sig (q : Q) :
  roundedValue q = inject_Z (sig q) * pow2 (ulpExp q).
Proof. reflexivity. Qed.

Lemma scaled_back (q : Q) (k : Z) : q * pow2 (- k) * pow2 k == q.
Proof.
  rewrite <- Qmult_assoc, (Qmult_comm (pow2 (- k))), pow2_cancel. ring.
Qed.

Lemma ulpExp_ge (q : Q) : (-1074 <= ulpExp q)%Z.
Proof. unfold ulpExp. lia. Qed.

Lemma ulpExp_mono (p q : Q) : 0 < p -> p <= q -> (ulpExp p <= ulpExp q)%Z.
Proof.
  intros Hp Hpq. pose proof (ilog2_mono p q Hp Hpq). unfold ulpExp. lia.
Qed.

(** The significand and the rounded value of one positive rational. *)
Section Binade.

Variable q : Q.
Hypothesis q_pos : 0 < q.

Lemma sig_upper : (sig q <= 2 ^ 53)%Z.
Proof.
  apply rne_le_Z.
  destruct (ilog2_spec q q_pos) as [_ Hu].
  assert (Hle : pow2 (ilog2 q + 1) <= pow2 (ulpExp q + 53))
    by (apply pow2_le; unfold ulpExp; lia).
  rewrite <- pow2_Z by lia.
  assert (E : pow2 53 == pow2 (ulpExp q + 53) * pow2 (- ulpExp q)).
  { rewrite <- pow2_add.
    replace (ulpExp q + 53 + - ulpExp q)%Z with 53%Z by lia.
    reflexivity. }
  rewrite E. apply Qmult_le_compat_r; [lra | apply pow2_nonneg].
Qed.

Lemma sig_lower : (-1022 <= ilog2 q)%Z -> (2 ^ 52 <= sig q)%Z.
Proof.
  intro Hn. apply rne_ge_Z.
  destruct (ilog2_spec q q_pos) as [Hl _].
  rewrite <- pow2_Z by lia.
  assert (E : pow2 52 == pow2 (ilog2 q) * pow2 (- ulpExp q)).
  { rewrite <- pow2_add. unfold ulpExp.
    replace (ilog2 q + - (Z.max (ilog2 q) (-1022) - 52))%Z with 52%Z by lia.
    reflexivity. }
  rewrite E. apply Qmult_le_compat_r; [lra | apply pow2_nonneg].
Qed.

Lemma sig_nonneg : (0 <= sig q)%Z.
Proof.
  apply rne_ge_Z.
  apply Qmult_le_0_compat; [lra | apply pow2_nonneg].
Qed.

Lemma roundedValue_nonneg : 0 <= roundedValue q.
Proof.
  rewrite roundedValue_sig.
  apply Qmult_le_0_compat; [| apply pow2_nonneg].
  change 0 with (inject_Z 0). rewrite <- Zle_Qle. apply sig_nonneg.
Qed.

Lemma roundedValue_upper : roundedValue q <= pow2 (ulpExp q + 53).
Proof.
  rewrite roundedValue_sig, pow2_add, (Qmult_comm (pow2 _)).
  apply Qmult_le_compat_r; [| apply pow2_nonneg].
  rewrite pow2_Z by lia. rewrite <- Zle_Qle. apply sig_upper.
Qed.

Lemma roundedValue_lower :
  (-1022 <= ilog2 q)%Z -> pow2 (ulpExp q + 52) <= roundedValue q.
Proof.
  intro Hn. rewrite roundedValue_sig, pow2_add, (Qmult_comm (pow2 _)).
  apply Qmult_le_compat_r; [| apply pow2_nonneg].
  rewrite pow2_Z by lia. rewrite <- Zle_Qle. apply sig_lower, Hn.
Qed.

End Binade.

Lemma roundedValue_mono (p q : Q) :
  0 < p -> p <= q -> roundedValue p <= roundedValue q.
Proof.
  intros Hp Hpq. assert (Hq : 0 < q) by lra.
  pose proof (ulpExp_mono p q Hp Hpq) as Hk.
  destruct (Z.eq_dec (ulpExp p) (ulpExp q)) as [E | N].
  - rewrite !roundedValue_sig. unfold sig. rewrite E.
    apply Qmult_le_compat_r; [| apply pow2_nonneg].
    rewrite <- Zle_Qle. apply rne_mono.
    apply Qmult_le_compat_r; [exact Hpq | apply pow2_nonneg].
  - apply Qle_trans with (pow2 (ulpExp p + 53)).
    + apply roundedValue_upper, Hp.
    + apply Qle_trans with (pow2 (ulpExp q + 52)).
      * apply pow2_le. lia.
      * apply roundedValue_lower; [exact Hq |].
        unfold ulpExp in *. lia.
Qed.

(** A double is left alone by the rounding. *)
Lemma roundedValue_exact (q : Q) (m k : Z) :
  0 < q -> q == inject_Z m * pow2 k -> (m < 2 ^ 53)%Z -> (-1074 <= k)%Z ->
  roundedValue q == q.
Proof.
  intros Hq E Hm Hk.
  assert (Hlog : (ilog2 q < k + 53)%Z).
  { destruct (ilog2_spec q Hq) as [Hl _].
    apply pow2_lt_inv. apply Qle_lt_trans with q; [exact Hl|].
    rewrite E, pow2_add, (Qmult_comm (pow2 k)).
    apply Qmult_lt_compat_r; [apply pow2_pos|].
    rewrite pow2_Z by lia. rewrite <- Zlt_Qlt. exact Hm. }
  assert (Hu : (ulpExp q <= k)%Z) by (unfold ulpExp; lia).
  assert (Es : q * pow2 (- ulpExp q) == inject_Z (m * 2 ^ (k - ulpExp q))).
  { revert Hu. generalize (ulpExp q) as u. intros u Hu.
    rewrite E, inject_Z_mult. rewrite <- (pow2_Z (k - u)) by lia.
    rewrite <- Qmult_assoc, <- pow2_add.
    replace (k + - u)%Z with (k - u)%Z by lia. reflexivity. }
  rewrite roundedValue_sig. unfold sig.
  rewrite (rne_wd _ _ Es), rne_Z, <- Es. apply scaled_back.
Qed.

Lemma roundedValue_wd (p q : Q) :
  p == q -> 0 < p -> roundedValue p == roundedValue q.
Proof.
  intros E Hp. unfold roundedValue, ulpExp.
  rewrite (ilog2_wd p q E Hp).
  generalize (Z.max (ilog2 q) (-1022) - 52)%Z as u. intro u.
  assert (E' : p * pow2 (- u) == q * pow2 (- u)) by (rewrite E; reflexivity).
  rewrite (rne_wd _ _ E'). reflexivity.
Qed.

Lemma isDouble_wd (p q : Q) : p == q -> isDouble p -> isDouble q.
Proof.
  intros E (m & k & H1 & H2 & H3 & H4). exists m, k.
  rewrite <- E. (split; [| split; [| split]]); assumption.
Qed.

Lemma isDouble_opp (q : Q) : isDouble q -> isDouble (- q).
Proof.
  intros (m & k & H1 & H2 & H3 & H4). exists (- m)%Z, k.
  (split; [| split; [| split]]).
  - rewrite H1, inject_Z_opp. ring.
  - lia.
  - exact H3.
  - rewrite Qabs_opp. exact H4.
Qed.

Lemma isDouble_0 : isDouble 0.
Proof.
  exists 0%Z, 0%Z. (split; [| split; [| split]]); try reflexivity; lia.
Qed.

Lemma roundedValue_isDouble (q : Q) :
  0 < q -> roundedValue q < pow2 1024 -> isDouble (roundedValue q).
Proof.
  intros Hq Hb.
  pose proof (sig_upper q Hq) as Hu. pose proof (sig_nonneg q Hq) as Hl.
  pose proof (ulpExp_ge q) as Hk.
  pose proof (roundedValue_nonneg q Hq) as Hv.
  destruct (Z.eq_dec (sig q) (2 ^ 53)) as [E | N].
  - exists (2 ^ 52)%Z, (ulpExp q + 1)%Z. (split; [| split; [| split]]).
    + rewrite roundedValue_sig, E, pow2_succ.
      change (inject_Z (2 ^ 53)) with (2 * inject_Z (2 ^ 52)). ring.
    + reflexivity.
    + lia.
    + rewrite Qabs_pos; assumption.
  - exists (sig q), (ulpExp q). (split; [| split; [| split]]).
    + rewrite roundedValue_sig. reflexivity.
    + lia.
    + exact Hk.
    + rewrite Qabs_pos; assumption.
Qed.

Lemma roundQ_mono (p q : Q) : p <= q -> roundQ p <= roundQ q.
Proof.
  intro H. unfold roundQ.
  destruct (Qcompare_spec p 0) as [Ep | Lp | Gp];
    destruct (Qcompare_spec q 0) as [Eq | Lq | Gq]; try lra.
  - pose proof (roundedValue_nonneg q Gq). lra.
  - pose proof (roundedValue_nonneg (- p)). lra.
  - pose proof (roundedValue_mono (- q) (- p)). lra.
  - pose proof (roundedValue_nonneg (- p)).
    pose proof (roundedValue_nonneg q). lra.
  - apply roundedValue_mono; lra.
Qed.

Lemma roundQ_exact (q : Q) : isDouble q -> roundQ q == q.
Proof.
  intros (m & k & E & Hm & Hk & _). unfold roundQ.
  destruct (Qcompare_spec q 0) as [E0 | L | G].
  - symmetry. exact E0.
  - rewrite (roundedValue_exact (- q) (- m) k); try lra; try lia.
    rewrite E, inject_Z_opp. ring.
  - apply (roundedValue_exact q m k); try assumption. lia.
Qed.

Lemma roundPos_view (q : Q) :
  (roundPos q = PosInf /\ pow2 1024 <= roundedValue q) \/
  (roundPos q = Fin (Qred (roundedValue q)) /\ roundedValue q < pow2 1024).
Proof.
  unfold roundPos.
  destruct (Qle_bool (pow2 1024) (roundedValue q)) eqn:C.
  - left. split; [reflexivity | apply Qle_bool_iff, C].
  - right. split; [reflexivity |].
    apply Qnot_le_lt. intro H. apply Qle_bool_iff in H. congruence.
Qed.

Lemma roundPos_wd (p q : Q) : p == q -> 0 < p -> roundPos p = roundPos q.
Proof.
  intros E Hp. unfold roundPos.
  pose proof (roundedValue_wd p q E Hp) as Ev.
  rewrite (Qleb_comp _ _ (Qeq_refl (pow2 1024)) _ _ Ev).
  rewrite (Qred_complete _ _ Ev). reflexivity.
Qed.


(** ** The Number value for a rational *)

Lemma isFinite_neg (x : number) : isFinite (neg x) = isFinite x.
Proof. destruct x; simpl; try reflexivity. destruct (Qeq_bool q 0); reflexivity. Qed.

Lemma R_neg (x : number) : R (neg x) == - R x.
Proof.
  destruct x; simpl; try reflexivity.
  destruct (Qeq_bool q 0) eqn:E; simpl; [| reflexivity].
  apply Qeq_bool_iff in E. rewrite E. reflexivity.
Qed.

(** What [F] returns, case by case. *)
Lemma F_view (q : Q) :
  (F q = PosInf /\ pow2 1024 <= roundQ q) \/
  (F q = NegInf /\ roundQ q <= - pow2 1024) \/
  (isFinite (F q) = true /\ R (F q) == roundQ q /\
   - pow2 1024 < roundQ q /\ roundQ q < pow2 1024).
Proof.
  unfold F, roundQ. pose proof (pow2_pos 1024) as Hp.
  destruct (Qcompare_spec q 0) as [E | L | G].
  - right. right. split; [reflexivity |]. split; [reflexivity | lra].
  - pose proof (roundedValue_nonneg (- q)) as Hn.
    destruct (roundPos_view (- q)) as [[-> H] | [-> H]].
    + right. left. split; [reflexivity | lra].
    + right. right. split; [rewrite isFinite_neg; reflexivity |].
      split; [| lra]. rewrite R_neg. unfold R.
      rewrite (Qred_correct (roundedValue (- q))). reflexivity.
  - pose proof (roundedValue_nonneg q) as Hn.
    destruct (roundPos_view q) as [[-> H] | [-> H]].
    + left. split; [reflexivity | lra].
    + right. right. split; [reflexivity |].
      split; [| lra]. unfold R. apply Qred_correct.
Qed.

(** The Number value depends on the rational, not on the fraction that
    writes it. *)
Lemma F_wd (p q : Q) : p == q -> F p = F q.
Proof.
  intro E. unfold F.
  rewrite (Qcompare_comp _ _ E 0 0 (Qeq_refl 0)).
  destruct (Qcompare_spec q 0) as [E0 | L | G].
  - reflexivity.
  - rewrite (roundPos_wd (- p) (- q)); [reflexivity | rewrite E; reflexivity | lra].
  - rewrite (roundPos_wd p q); [reflexivity | exact E | lra].
Qed.

Lemma F_0 : F 0 = Fin 0.
Proof. reflexivity. Qed.

Lemma le_finite (x y : number) :
  isFinite x = true -> isFinite y = true -> (le x y <-> R x <= R y).
Proof.
  unfold le. destruct x, y; simpl; intros; try discriminate;
    apply Qle_bool_iff.
Qed.

Lemma F_mono (p q : Q) : p <= q -> le (F p) (F q).
Proof.
  intro H. pose proof (roundQ_mono p q H) as Hm.
  pose proof (pow2_pos 1024) as Hp.
  destruct (F_view p) as [[-> Ap] | [[-> Ap] | (Fp & Rp & Lp & Up)]];
    destruct (F_view q) as [[-> Aq] | [[-> Aq] | (Fq & Rq & Lq & Uq)]];
    try reflexivity; try lra.
  - destruct (F q); try discriminate; reflexivity.
  - destruct (F p); try discriminate; reflexivity.
  - apply le_finite; try assumption. lra.
Qed.

Lemma F_exact (q : Q) :
  isDouble q -> isFinite (F q) = true /\ R (F q) == q.
Proof.
  intro D. pose proof (roundQ_exact q D) as E.
  destruct D as (m & k & _ & _ & _ & Hb).
  assert (- pow2 1024 < q /\ q < pow2 1024) as [Hl Hu].
  { revert Hb. apply Qabs_case; intros; lra. }
  destruct (F_view q) as [[_ A] | [[_ A] | (Ff & Rf & _)]]; try lra.
  split; [exact Ff | lra].
Qed.

Lemma F_representable (q : Q) : representable (F q).
Proof.
  unfold F.
  destruct (Qcompare_spec q 0) as [E | L | G].
  - exact isDouble_0.
  - destruct (roundPos_view (- q)) as [[-> H] | [-> H]]; [exact I |].
    assert (D : isDouble (Qred (roundedValue (- q)))).
    { apply isDouble_wd with (roundedValue (- q)).
      - symmetry. apply Qred_correct.
      - apply roundedValue_isDouble; [lra | exact H]. }
    unfold neg. destruct (Qeq_bool _ 0); [exact I |].
    apply isDouble_opp, D.
  - destruct (roundPos_view q) as [[-> H] | [-> H]]; [exact I |].
    apply isDouble_wd with (roundedValue q).
    + symmetry. apply Qred_correct.
    + apply roundedValue_isDouble; [lra | exact H].
Qed.

Lemma F_nonneg (q : Q) : 0 <= q -> nonneg (F q).
Proof. intro H. apply (F_mono 0 q H). Qed.

Lemma F_not_NaN (q : Q) : isNaN (F q) = false.
Proof.
  destruct (F_view q) as [[-> _] | [[-> _] | (Ff & _)]]; try reflexivity.
  destruct (F q); try discriminate; reflexivity.
Qed.

Lemma sgn_F_nonneg (q : Q) : 0 <= q -> sgn (F q) = false.
Proof.
  intro H. unfold F.
  destruct (Qcompare_spec q 0) as [E | L | G]; try lra.
  - reflexivity.
  - destruct (roundPos_view q) as [[-> _] | [-> _]]; [reflexivity |].
    pose proof (roundedValue_nonneg q G) as Hn.
    rewrite <- (Qred_correct (roundedValue q)) in Hn.
    apply Qle_bool_iff in Hn. unfold sgn. rewrite Hn. reflexivity.
Qed.

Lemma F_nonzero_pos (q : Q) : pow2 (-1074) <= q -> isZero (F q) = false.
Proof.
  intro H. pose proof (pow2_pos (-1074)) as Hp.
  assert (D : isDouble (pow2 (-1074))).
  { exists 1%Z, (-1074)%Z. split; [ring | split; [reflexivity | split; [lia |]]].
    rewrite Qabs_pos by lra. apply pow2_lt. lia. }
  pose proof (roundQ_mono _ _ H) as Hm. rewrite (roundQ_exact _ D) in Hm.
  destruct (F_view q) as [[-> _] | [[-> _] | (Ff & Rf & _)]]; try reflexivity.
  destruct (F q); try discriminate.
  - simpl in Rf. lra.
  - simpl in *. destruct (Qeq_bool q0 0) eqn:E; [| reflexivity].
    apply Qeq_bool_iff in E. lra.
Qed.


(** ** The order of Numbers *)

Lemma le_refl (x : number) : isNaN x = false -> le x x.
Proof.
  unfold le. destruct x; simpl; intro; try discriminate; try reflexivity.
  apply Qle_bool_iff. lra.
Qed.

Lemma le_trans (x y z : number) : le x y -> le y z -> le x z.
Proof.
  unfold le. destruct x, y, z; simpl; intros A B; try discriminate;
    try reflexivity.
  all: apply Qle_bool_iff in A; apply Qle_bool_iff in B;
    apply Qle_bool_iff; lra.
Qed.

Lemma le_not_NaN (x y : number) : le x y -> isNaN x = false /\ isNaN y = false.
Proof. unfold le. destruct x, y; simpl; intro; try discriminate; auto. Qed.

Lemma le_PosInf (x : number) : isNaN x = false -> le x PosInf.
Proof. destruct x; simpl; intro; try discriminate; reflexivity. Qed.

Lemma le_NegInf (x : number) : isNaN x = false -> le NegInf x.
Proof. destruct x; simpl; intro; try discriminate; reflexivity. Qed.

(** -0 and +0 compare alike. *)
Lemma leb_NegZero_l (y : number) : leb NegZero y = leb (Fin 0) y.
Proof. destruct y; reflexivity. Qed.

Lemma leb_NegZero_r (x : number) : leb x NegZero = leb x (Fin 0).
Proof. destruct x; reflexivity. Qed.

Lemma le_F_r (x : number) (q : Q) :
  isFinite x = true -> R x <= q -> representable x -> le x (F q).
Proof.
  intros Hf Hq Hr. destruct x; try discriminate.
  - unfold le. rewrite leb_NegZero_l. apply (F_mono 0 q). exact Hq.
  - simpl in *. destruct (F_exact q0 Hr) as [Ff Rf].
    apply le_trans with (F q0).
    + apply le_finite; [reflexivity | exact Ff |]. simpl. lra.
    + apply F_mono, Hq.
Qed.

Lemma le_F_l (x : number) (q : Q) :
  isFinite x = true -> q <= R x -> representable x -> le (F q) x.
Proof.
  intros Hf Hq Hr. destruct x; try discriminate.
  - unfold le. rewrite leb_NegZero_r. apply (F_mono q 0). exact Hq.
  - simpl in *. destruct (F_exact q0 Hr) as [Ff Rf].
    apply le_trans with (F q0).
    + apply F_mono, Hq.
    + apply le_finite; [exact Ff | reflexivity |]. simpl. lra.
Qed.

Lemma nonneg_cases (x : number) :
  nonneg x -> x = PosInf \/ (isFinite x = true /\ 0 <= R x).
Proof.
  unfold nonneg. destruct x; simpl; intro H; try discriminate.
  - left. reflexivity.
  - right. split; [reflexivity | lra].
  - right. split; [reflexivity | apply Qle_bool_iff, H].
Qed.

Lemma nonneg_finite (x : number) :
  isFinite x = true -> 0 <= R x -> nonneg x.
Proof.
  unfold nonneg. destruct x; simpl; intros A B; try discriminate.
  - reflexivity.
  - apply Qle_bool_iff, B.
Qed.

Lemma nonneg_not_NaN (x : number) : nonneg x -> isNaN x = false.
Proof. intro H. apply (le_not_NaN _ _ H). Qed.

Lemma le_nonneg (a b : number) : nonneg a -> le a b -> nonneg b.
Proof. intros. eapply le_trans; eassumption. Qed.

Lemma le_finite_l (a b : number) :
  nonneg a -> le a b -> isFinite b = true -> isFinite a = true.
Proof.
  unfold nonneg, le. destruct a, b; simpl; intros; try discriminate; reflexivity.
Qed.

Lemma isZero_R (x : number) : isZero x = true -> R x == 0.
Proof.
  destruct x; simpl; intro H; try discriminate; try reflexivity.
  apply Qeq_bool_iff, H.
Qed.

Lemma isZero_finite (x : number) : isZero x = true -> isFinite x = true.
Proof. destruct x; simpl; intro; try discriminate; reflexivity. Qed.

Lemma isZero_zero (s : bool) : isZero (zero s) = true.
Proof. destruct s; reflexivity. Qed.

Lemma notZero_R (x : number) :
  isFinite x = true -> isZero x = false -> ~ R x == 0.
Proof.
  destruct x; simpl; intros A B; try discriminate.
  intro E. apply Qeq_bool_iff in E. congruence.
Qed.

Lemma isZero_le_l (x z : number) :
  isZero x = true -> leb x z = leb (Fin 0) z.
Proof.
  destruct x; simpl; intro H; try discriminate; [apply leb_NegZero_l |].
  apply Qeq_bool_iff in H.
  destruct z; simpl; try reflexivity; apply Qleb_comp; (exact H || reflexivity).
Qed.

Lemma isZero_le_r (x z : number) :
  isZero x = true -> leb z x = leb z (Fin 0).
Proof.
  destruct x; simpl; intro H; try discriminate; [apply leb_NegZero_r |].
  apply Qeq_bool_iff in H.
  destruct z; simpl; try reflexivity; apply Qleb_comp; (exact H || reflexivity).
Qed.

Lemma sgn_nonneg (x : number) : nonneg x -> isZero x = false -> sgn x = false.
Proof.
  unfold nonneg. destruct x; simpl; intros A B; try discriminate; try reflexivity.
  rewrite A. reflexivity.
Qed.


(** ** Addition and subtraction *)

Lemma add_finite (x y : number) :
  isFinite x = true -> isFinite y = true ->
  add x y = F (R x + R y) \/ (add x y = NegZero /\ R x + R y == 0).
Proof.
  destruct x, y; simpl; intros; try discriminate; auto.
  right. split; [reflexivity | lra].
Qed.

Lemma add_representable (x y : number) : representable (add x y).
Proof.
  destruct x, y; simpl; try exact I; apply F_representable.
Qed.

Lemma neg_representable (x : number) :
  representable x -> representable (neg x).
Proof.
  destruct x; simpl; try (intros; exact I).
  - intros _. exact isDouble_0.
  - intro D. destruct (Qeq_bool q 0); [exact I | apply isDouble_opp, D].
Qed.

Lemma sub_representable (x y : number) : representable (sub x y).
Proof. apply add_representable. Qed.

(** Comparing a sum: whatever the sign of the zero. *)
Lemma add_le_F (x y z : number) :
  isFinite x = true -> isFinite y = true ->
  le (F (R x + R y)) z -> le (add x y) z.
Proof.
  intros Hx Hy H. destruct (add_finite x y Hx Hy) as [-> | [-> E]].
  - exact H.
  - unfold le. rewrite leb_NegZero_l, <- F_0.
    apply le_trans with (F (R x + R y)); [| exact H].
    apply F_mono. lra.
Qed.

Lemma F_le_add (x y z : number) :
  isFinite x = true -> isFinite y = true ->
  le z (F (R x + R y)) -> le z (add x y).
Proof.
  intros Hx Hy H. destruct (add_finite x y Hx Hy) as [-> | [-> E]].
  - exact H.
  - unfold le. rewrite leb_NegZero_r, <- F_0.
    apply le_trans with (F (R x + R y)); [exact H |].
    apply F_mono. lra.
Qed.

Lemma add_PosInf_r (x : number) : nonneg x -> add x PosInf = PosInf.
Proof. unfold nonneg. destruct x; simpl; intro; try discriminate; reflexivity. Qed.

Lemma add_PosInf_l (x : number) : nonneg x -> add PosInf x = PosInf.
Proof. unfold nonneg. destruct x; simpl; intro; try discriminate; reflexivity. Qed.

Lemma add_nonneg (a b : number) : nonneg a -> nonneg b -> nonneg (add a b).
Proof.
  intros Ha Hb.
  destruct (nonneg_cases a Ha) as [-> | [Fa Ra]].
  { rewrite add_PosInf_l by exact Hb. reflexivity. }
  destruct (nonneg_cases b Hb) as [-> | [Fb Rb]].
  { rewrite add_PosInf_r by exact Ha. reflexivity. }
  apply F_le_add; try assumption. rewrite <- F_0. apply F_mono. lra.
Qed.

(** Addition is monotone on the non-negative Numbers. *)
Lemma add_mono (a b c d : number) :
  nonneg a -> nonneg c -> le a b -> le c d -> le (add a c) (add b d).
Proof.
  intros Ha Hc Hab Hcd.
  pose proof (le_nonneg a b Ha Hab) as Hb.
  pose proof (le_nonneg c d Hc Hcd) as Hd.
  destruct (nonneg_cases b Hb) as [-> | [Fb Rb]].
  { rewrite add_PosInf_l by exact Hd.
    apply le_PosInf, nonneg_not_NaN, add_nonneg; assumption. }
  destruct (nonneg_cases d Hd) as [-> | [Fd Rd]].
  { rewrite add_PosInf_r by exact Hb.
    apply le_PosInf, nonneg_not_NaN, add_nonneg; assumption. }
  pose proof (le_finite_l a b Ha Hab Fb) as Fa.
  pose proof (le_finite_l c d Hc Hcd Fd) as Fc.
  apply (le_finite a b Fa Fb) in Hab. apply (le_finite c d Fc Fd) in Hcd.
  apply add_le_F; try assumption. apply F_le_add; try assumption.
  apply F_mono. lra.
Qed.

(** Adding a non-negative Number does not decrease the accumulator. *)
Lemma add_ge_l (s w : number) :
  representable s -> nonneg s -> nonneg w -> le s (add s w).
Proof.
  intros Hr Hs Hw.
  destruct (nonneg_cases w Hw) as [-> | [Fw Rw]].
  { rewrite add_PosInf_r by exact Hs. apply le_PosInf, nonneg_not_NaN, Hs. }
  destruct (nonneg_cases s Hs) as [-> | [Fs Rs]].
  { rewrite add_PosInf_l by exact Hw. reflexivity. }
  apply F_le_add; try assumption. apply le_F_r; try assumption. lra.
Qed.

(** Taking a non-negative Number away does not increase the accumulator. *)
Lemma sub_le (t w : number) :
  representable t -> isNaN t = false -> nonneg w ->
  (t = PosInf -> w <> PosInf) -> le (sub t w) t.
Proof.
  intros Hr Hn Hw Hinf. unfold sub.
  destruct (nonneg_cases w Hw) as [-> | [Fw Rw]].
  { destruct t; try discriminate; try reflexivity.
    exfalso. apply Hinf; reflexivity. }
  assert (Fn : isFinite (neg w) = true) by (rewrite isFinite_neg; exact Fw).
  pose proof (R_neg w) as Rn.
  destruct t; try discriminate.
  - destruct (neg w); try discriminate; reflexivity.
  - destruct (neg w); try discriminate; reflexivity.
  - apply add_le_F; [reflexivity | exact Fn |].
    apply le_F_l; [reflexivity | | exact Hr]. lra.
  - apply add_le_F; [reflexivity | exact Fn |].
    apply le_F_l; [reflexivity | | exact Hr]. lra.
Qed.


(** ** Multiplication *)

Lemma mul_representable (x y : number) : representable (mul x y).
Proof.
  unfold mul.
  destruct x, y; simpl; try exact I;
    repeat match goal with
      | |- context [Qeq_bool ?a ?b] => destruct (Qeq_bool a b); simpl
      | |- context [Qle_bool ?a ?b] => destruct (Qle_bool a b); simpl
      end;
    try exact I; try exact isDouble_0; apply F_representable.
Qed.

Lemma mul_finite (x y : number) :
  isFinite x = true -> isFinite y = true ->
  (mul x y = F (R x * R y) /\ isZero x = false /\ isZero y = false) \/
  (isZero (mul x y) = true /\ R x * R y == 0).
Proof.
  intros Hx Hy.
  assert (E : mul x y =
              if isZero x || isZero y then zero (xorb (sgn x) (sgn y))
              else F (R x * R y))
    by (destruct x, y; try discriminate; reflexivity).
  rewrite E. destruct (isZero x) eqn:Zx; simpl.
  - right. split; [apply isZero_zero |].
    rewrite (isZero_R x Zx). ring.
  - destruct (isZero y) eqn:Zy.
    + right. split; [apply isZero_zero |].
      rewrite (isZero_R y Zy). ring.
    + left. auto.
Qed.

Lemma mul_le_F (x y z : number) :
  isFinite x = true -> isFinite y = true ->
  le (F (R x * R y)) z -> le (mul x y) z.
Proof.
  intros Hx Hy H. destruct (mul_finite x y Hx Hy) as [[-> _] | [Z E]].
  - exact H.
  - unfold le. rewrite (isZero_le_l _ _ Z), <- F_0.
    apply le_trans with (F (R x * R y)); [| exact H].
    apply F_mono. lra.
Qed.

Lemma F_le_mul (x y z : number) :
  isFinite x = true -> isFinite y = true ->
  le z (F (R x * R y)) -> le z (mul x y).
Proof.
  intros Hx Hy H. destruct (mul_finite x y Hx Hy) as [[-> _] | [Z E]].
  - exact H.
  - unfold le. rewrite (isZero_le_r _ _ Z), <- F_0.
    apply le_trans with (F (R x * R y)); [exact H |].
    apply F_mono. lra.
Qed.

Lemma mul_finite_mono (a b c d : number) :
  isFinite a = true -> isFinite b = true ->
  isFinite c = true -> isFinite d = true ->
  R a * R b <= R c * R d -> le (mul a b) (mul c d).
Proof.
  intros. apply mul_le_F; try assumption. apply F_le_mul; try assumption.
  apply F_mono. assumption.
Qed.

(** Multiplying by a non-negative finite weight is monotone. *)
Lemma mul_mono_r (w v1 v2 : number) :
  nonneg w -> isFinite w = true -> nonneg v1 -> le v1 v2 ->
  isFinite v2 = true -> le (mul w v1) (mul w v2).
Proof.
  intros Hw Fw H1 H12 F2.
  pose proof (le_finite_l v1 v2 H1 H12 F2) as F1.
  apply (le_finite v1 v2 F1 F2) in H12.
  destruct (nonneg_cases w Hw) as [-> | [_ Rw]]; [discriminate |].
  apply mul_finite_mono; try assumption. nra.
Qed.

Lemma mul_nonneg (a b : number) :
  nonneg a -> nonneg b -> isFinite a = true -> isFinite b = true ->
  nonneg (mul a b).
Proof.
  intros Ha Hb Fa Fb.
  destruct (nonneg_cases a Ha) as [-> | [_ Ra]]; [discriminate |].
  destruct (nonneg_cases b Hb) as [-> | [_ Rb]]; [discriminate |].
  apply F_le_mul; try assumption. rewrite <- F_0. apply F_mono. nra.
Qed.

(** The product of two non-negative Numbers is non-negative, or NaN (zero
    times Infinity). *)
Lemma mul_nonneg_or_NaN (a b : number) :
  nonneg a -> nonneg b -> nonneg (mul a b) \/ mul a b = NaN.
Proof.
  intros Ha Hb.
  destruct (nonneg_cases a Ha) as [-> | [Fa Ra]];
    destruct (nonneg_cases b Hb) as [-> | [Fb Rb]].
  - left. reflexivity.
  - destruct (isZero b) eqn:Z.
    + right. destruct b; try discriminate; simpl in *; rewrite ?Z; reflexivity.
    + left. pose proof (sgn_nonneg b Hb Z) as S.
      destruct b; try discriminate; simpl in *; rewrite ?Z, ?S; reflexivity.
  - destruct (isZero a) eqn:Z.
    + right. destruct a; try discriminate; simpl in *; rewrite ?Z; reflexivity.
    + left. pose proof (sgn_nonneg a Ha Z) as S.
      destruct a; try discriminate; simpl in *; rewrite ?Z, ?S; reflexivity.
  - left. apply mul_nonneg; assumption.
Qed.

Lemma mul_finite_not_NaN (x y : number) :
  isFinite x = true -> isFinite y = true -> isNaN (mul x y) = false.
Proof.
  intros Hx Hy. destruct (mul_finite x y Hx Hy) as [[-> _] | [Z _]].
  - apply F_not_NaN.
  - destruct (mul x y); try discriminate; reflexivity.
Qed.

(** Multiplying by a positive finite constant is monotone. *)
Lemma mul_pos_mono (a b : number) (c : Q) :
  0 < c -> le a b -> le (mul a (Fin c)) (mul b (Fin c)).
Proof.
  intros Hc Hab.
  assert (Zc : Qeq_bool c 0 = false).
  { destruct (Qeq_bool c 0) eqn:E; [| reflexivity].
    apply Qeq_bool_iff in E. lra. }
  assert (Sc : Qle_bool 0 c = true) by (apply Qle_bool_iff; lra).
  assert (Ep : mul PosInf (Fin c) = PosInf)
    by (simpl; rewrite Zc, Sc; reflexivity).
  assert (En : mul NegInf (Fin c) = NegInf)
    by (simpl; rewrite Zc, Sc; reflexivity).
  destruct (isFinite a) eqn:Fa, (isFinite b) eqn:Fb.
  - apply (le_finite a b Fa Fb) in Hab.
    apply mul_finite_mono; try assumption; try reflexivity. simpl. nra.
  - assert (b = PosInf) as ->
        by (destruct a, b; try discriminate; reflexivity).
    rewrite Ep. apply le_PosInf, mul_finite_not_NaN; [exact Fa | reflexivity].
  - assert (a = NegInf) as ->
        by (destruct a, b; try discriminate; reflexivity).
    rewrite En. apply le_NegInf, mul_finite_not_NaN; [exact Fb | reflexivity].
  - destruct a, b; try discriminate; rewrite ?Ep, ?En; reflexivity.
Qed.

(** ** More on the order: sums, differences and quotients *)

(** Adding to a non-negative accumulator does not go below what is
    added. *)
Lemma add_ge_r (s w : number) :
  representable w -> nonneg s -> nonneg w -> le w (add s w).
Proof.
  intros Hr Hs Hw.
  destruct (nonneg_cases s Hs) as [-> | [Fs Rs]].
  { rewrite add_PosInf_l by exact Hw. apply le_PosInf, nonneg_not_NaN, Hw. }
  destruct (nonneg_cases w Hw) as [-> | [Fw Rw]].
  { rewrite add_PosInf_r by exact Hs. reflexivity. }
  apply F_le_add; try assumption. apply le_F_r; try assumption. lra.
Qed.

(** Subtracting a finite Number is monotone. *)
Lemma sub_mono_l (a b c : number) :
  isFinite c = true -> le a b -> le (sub a c) (sub b c).
Proof.
  intros Fc Hab. unfold sub.
  assert (Fn : isFinite (neg c) = true) by (rewrite isFinite_neg; exact Fc).
  destruct (isFinite a) eqn:Fa, (isFinite b) eqn:Fb.
  - apply (le_finite a b Fa Fb) in Hab.
    apply add_le_F; try assumption. apply F_le_add; try assumption.
    apply F_mono. lra.
  - assert (b = PosInf) as ->
        by (destruct a, b; try discriminate; reflexivity).
    assert (E : add PosInf (neg c) = PosInf)
      by (destruct (neg c); try discriminate; reflexivity).
    rewrite E. apply le_PosInf.
    destruct (add_finite a (neg c) Fa Fn) as [-> | [-> _]];
      [apply F_not_NaN | reflexivity].
  - assert (a = NegInf) as ->
        by (destruct a, b; try discriminate; reflexivity).
    assert (E : add NegInf (neg c) = NegInf)
      by (destruct (neg c); try discriminate; reflexivity).
    rewrite E. apply le_NegInf.
    destruct (add_finite b (neg c) Fb Fn) as [-> | [-> _]];
      [apply F_not_NaN | reflexivity].
  - destruct a, b; try discriminate; destruct (neg c); try discriminate;
      reflexivity.
Qed.

Lemma div_finite (x : number) (c : Q) :
  isFinite x = true -> 0 < c ->
  (div x (Fin c) = F (R x / c) /\ isZero x = false) \/
  (isZero (div x (Fin c)) = true /\ R x / c == 0).
Proof.
  intros Fx Hc.
  assert (Zc : Qeq_bool c 0 = false).
  { destruct (Qeq_bool c 0) eqn:E; [| reflexivity].
    apply Qeq_bool_iff in E. lra. }
  assert (E : div x (Fin c) =
              if isZero x then zero (xorb (sgn x) (sgn (Fin c)))
              else F (R x / c)).
  { destruct x; try discriminate; simpl; rewrite Zc; reflexivity. }
  rewrite E. destruct (isZero x) eqn:Zx.
  - right. split; [apply isZero_zero |].
    rewrite (isZero_R x Zx). field. lra.
  - left. auto.
Qed.

Lemma div_finite_not_NaN (x : number) (c : Q) :
  isFinite x = true -> 0 < c -> isNaN (div x (Fin c)) = false.
Proof.
  intros Fx Hc. destruct (div_finite x c Fx Hc) as [[-> _] | [Z _]].
  - apply F_not_NaN.
  - destruct (div x (Fin c)); try discriminate; reflexivity.
Qed.

Lemma Qdiv_le_pos (p q c : Q) : 0 < c -> p <= q -> p / c <= q / c.
Proof.
  intros Hc H. unfold Qdiv. apply Qmult_le_compat_r; [exact H |].
  apply Qlt_le_weak, Qinv_lt_0_compat, Hc.
Qed.

(** Dividing by a positive finite Number is monotone. *)
Lemma div_pos_mono (a b : number) (c : Q) :
  0 < c -> le a b -> le (div a (Fin c)) (div b (Fin c)).
Proof.
  intros Hc Hab.
  assert (Zc : Qeq_bool c 0 = false).
  { destruct (Qeq_bool c 0) eqn:E; [| reflexivity].
    apply Qeq_bool_iff in E. lra. }
  assert (Sc : Qle_bool 0 c = true) by (apply Qle_bool_iff; lra).
  assert (Ep : div PosInf (Fin c) = PosInf) by (simpl; rewrite Sc; reflexivity).
  assert (En : div NegInf (Fin c) = NegInf) by (simpl; rewrite Sc; reflexivity).
  destruct (isFinite a) eqn:Fa, (isFinite b) eqn:Fb.
  - apply (le_finite a b Fa Fb) in Hab.
    pose proof (Qdiv_le_pos _ _ c Hc Hab) as Hq.
    destruct (div_finite a c Fa Hc) as [[-> _] | [Za Ea]];
      destruct (div_finite b c Fb Hc) as [[-> _] | [Zb Eb]].
    + apply F_mono, Hq.
    + unfold le. rewrite (isZero_le_r _ _ Zb), <- F_0. apply F_mono. lra.
    + unfold le. rewrite (isZero_le_l _ _ Za), <- F_0. apply F_mono. lra.
    + unfold le. rewrite (isZero_le_l _ _ Za), (isZero_le_r _ _ Zb).
      reflexivity.
  - assert (b = PosInf) as ->
        by (destruct a, b; try discriminate; reflexivity).
    rewrite Ep. apply le_PosInf, div_finite_not_NaN; assumption.
  - assert (a = NegInf) as ->
        by (destruct a, b; try discriminate; reflexivity).
    rewrite En. apply le_NegInf, div_finite_not_NaN; assumption.
  - destruct a, b; try discriminate; rewrite ?Ep, ?En; reflexivity.
Qed.

Lemma div_self (c : Q) : 0 < c -> div (Fin c) (Fin c) = Fin 1.
Proof.
  intro Hc. destruct (div_finite (Fin c) c eq_refl Hc) as [[-> _] | [_ E]].
  - rewrite (F_wd (R (Fin c) / c) 1); [reflexivity |]. simpl. field. lra.
  - exfalso. simpl in E. assert (c / c == 1) by (field; lra). lra.
Qed.

Lemma sub_self (c : Q) : sub (Fin c) (Fin c) = Fin 0.
Proof.
  unfold sub, neg. destruct (Qeq_bool c 0) eqn:E.
  - apply Qeq_bool_iff in E. simpl.
    rewrite (F_wd (c + 0) 0); [reflexivity | lra].
  - simpl. rewrite (F_wd (c + - c) 0); [reflexivity | lra].
Qed.

Lemma div_zero_pos (c : Q) : 0 < c -> div (Fin 0) (Fin c) = Fin 0.
Proof.
  intro Hc. simpl.
  assert (Zc : Qeq_bool c 0 = false).
  { destruct (Qeq_bool c 0) eqn:E; [| reflexivity].
    apply Qeq_bool_iff in E. lra. }
  assert (Sc : Qle_bool 0 c = true) by (apply Qle_bool_iff; lra).
  rewrite Zc, Sc. reflexivity.
Qed.

Lemma mul_NaN_r (x : number) : mul x NaN = NaN.
Proof. destruct x; reflexivity. Qed.

Lemma leb_NaN_r (x : number) : leb x NaN = false.
Proof. destruct x; reflexivity. Qed.


(** The side conditions that come back in every proof about a sum or a
    product. *)
Create HintDb numbers.

#[local] Hint Resolve add_representable sub_representable mul_representable
  F_representable isDouble_0 : numbers.
#[local] Hint Resolve add_nonneg nonneg_not_NaN le_PosInf le_NegInf
  : numbers.

(* ===================================================================== *)
(** * Part 4. Facts about the program                                     *)
(* ===================================================================== *)

(** ** The literals *)

Lemma n1_eq : n1 = Fin 1. Proof. reflexivity. Qed.

Lemma n100_eq : n100 = Fin 100. Proof. reflexivity. Qed.

Lemma n0_01_eq : n0_01 = Fin (5764607523034235 # 576460752303423488).
Proof. reflexivity. Qed.


(** ** More on Numbers: special values *)

Lemma finite_not_NaN (x : number) : isFinite x = true -> isNaN x = false.
Proof. destruct x; intro; try discriminate; reflexivity. Qed.

Lemma finite_not_PosInf (x : number) : isFinite x = true -> x <> PosInf.
Proof. destruct x; intro; try discriminate; congruence. Qed.

Lemma add_NaN_r (x : number) : add x NaN = NaN.
Proof. destruct x; reflexivity. Qed.

Lemma mul_NaN_l (x : number) : mul NaN x = NaN.
Proof. reflexivity. Qed.

Lemma mul_zero_inf (x : number) (s : bool) :
  isZero x = true -> mul x (inf s) = NaN.
Proof.
  destruct s, x; simpl; intro H; try discriminate; rewrite ?H; reflexivity.
Qed.

Lemma div_by_zero (x y : number) :
  isZero y = true -> isFinite (div x y) = false.
Proof.
  intro Z.
  destruct x, y; try discriminate; simpl in *; rewrite ?Z; unfold inf; simpl;
    repeat match goal with
      | |- context [if ?b then _ else _] => destruct b; simpl
      end;
    reflexivity.
Qed.

Lemma mul_100_not_finite (x : number) :
  isFinite x = false -> isFinite (mul x n100) = false.
Proof.
  rewrite n100_eq. destruct x; simpl; intro H; try discriminate; reflexivity.
Qed.

(** Math.max against a positive floor. *)
Lemma mathMax_ge (v : number) (c : Q) :
  0 < c -> leb (Fin c) v = true -> mathMax v (Fin c) = v.
Proof.
  intros Hc H. destruct v; simpl in *; try discriminate; try reflexivity.
  - apply Qle_bool_iff in H. lra.
  - rewrite H. simpl.
    destruct (Qle_bool q c) eqn:A; simpl; [| reflexivity].
    apply Qle_bool_iff in H.
    assert (B : 0 <= q) by lra. apply Qle_bool_iff in B. rewrite B. reflexivity.
Qed.

Lemma floor_above (v : number) : leb n0_01 v = true -> mathMax v n0_01 = v.
Proof. rewrite n0_01_eq. apply mathMax_ge. reflexivity. Qed.

(** Math.max returns one of its arguments, the other one being below. *)
Lemma mathMax_cases (x : number) (c : Q) :
  isNaN x = false ->
  (mathMax x (Fin c) = x /\ le (Fin c) x) \/
  (mathMax x (Fin c) = Fin c /\ le x (Fin c)).
Proof.
  intro N. unfold le.
  destruct x as [| | | | q]; try discriminate; simpl.
  - left. split; reflexivity.
  - right. split; reflexivity.
  - destruct (Qle_bool c 0) eqn:A; simpl.
    + destruct (Qle_bool 0 c) eqn:B; simpl.
      * right. split; reflexivity.
      * left. split; reflexivity.
    + right. split; [reflexivity |].
      apply Qle_bool_iff. apply Qlt_le_weak, Qnot_le_lt. intro H.
      apply Qle_bool_iff in H. congruence.
  - destruct (Qle_bool c q) eqn:A; simpl.
    + destruct (Qle_bool q c) eqn:B; simpl.
      * destruct (Qle_bool 0 q); simpl; [left | right]; split;
          reflexivity || assumption.
      * left. split; reflexivity.
    + right. split; [reflexivity |].
      apply Qle_bool_iff. apply Qlt_le_weak, Qnot_le_lt. intro H.
      apply Qle_bool_iff in H. congruence.
Qed.

Lemma mathMax_mono (a b : number) (c : Q) :
  le a b -> le (mathMax a (Fin c)) (mathMax b (Fin c)).
Proof.
  intro H. destruct (le_not_NaN a b H) as [Na Nb].
  destruct (mathMax_cases a c Na) as [[-> A] | [-> A]];
    destruct (mathMax_cases b c Nb) as [[-> B] | [-> B]].
  - exact H.
  - eapply le_trans; [exact H | exact B].
  - exact B.
  - apply le_refl. reflexivity.
Qed.

Lemma mathMax_floor (x : number) (c : Q) :
  isNaN x = false -> le (Fin c) (mathMax x (Fin c)).
Proof.
  intro N. destruct (mathMax_cases x c N) as [[-> A] | [-> A]].
  - exact A.
  - apply le_refl. reflexivity.
Qed.

Lemma le_total (x y : number) :
  isNaN x = false -> isNaN y = false -> leb x y = false -> le y x.
Proof.
  unfold le. destruct x, y; simpl; intros A B C; try discriminate;
    try reflexivity.
  all: apply Qle_bool_iff; apply Qlt_le_weak, Qnot_le_lt; intro H;
    apply Qle_bool_iff in H; simpl in *; congruence.
Qed.

(** Every double is a multiple of the smallest subnormal. *)
Lemma isDouble_grid (q : Q) :
  isDouble q -> exists n : Z, q == inject_Z n * pow2 (-1074).
Proof.
  intros (m & k & E & _ & Hk & _). exists (m * 2 ^ (k + 1074))%Z.
  rewrite E, inject_Z_mult, <- pow2_Z by lia.
  rewrite <- Qmult_assoc, <- pow2_add.
  replace (k + 1074 + -1074)%Z with k by lia. reflexivity.
Qed.

(** The difference of two distinct doubles does not round to zero. *)
Lemma double_gap (p q : Q) :
  isDouble p -> isDouble q -> q < p -> pow2 (-1074) <= p - q.
Proof.
  intros Dp Dq H.
  destruct (isDouble_grid p Dp) as [n En].
  destruct (isDouble_grid q Dq) as [m Em].
  pose proof (pow2_pos (-1074)) as Hp.
  assert (Hnm : (m < n)%Z).
  { apply Z.nle_gt. intro Hle. rewrite Zle_Qle in Hle. nra. }
  assert (H1 : inject_Z (m + 1) <= inject_Z n)
    by (rewrite <- Zle_Qle; lia).
  rewrite inject_Z_plus in H1. change (inject_Z 1) with 1 in H1.
  rewrite En, Em. nra.
Qed.

Lemma ltb_0_F (q : Q) : ltb n0 (F q) = true -> 0 < q.
Proof.
  intro H. destruct (Qlt_le_dec 0 q) as [L | G]; [exact L |].
  pose proof (F_mono q 0 G) as M. rewrite F_0 in M.
  unfold le, n0 in *. destruct (F q); simpl in *; try discriminate.
  rewrite M in H. discriminate.
Qed.

Lemma F_ltb_0 (q : Q) : pow2 (-1074) <= q -> ltb n0 (F q) = true.
Proof.
  intro H. pose proof (pow2_pos (-1074)) as Hp.
  pose proof (F_nonzero_pos q H) as Z.
  assert (N : nonneg (F q)) by (apply F_nonneg; lra).
  unfold nonneg, n0 in *. destruct (F q); simpl in *; try discriminate;
    try reflexivity.
  destruct (Qle_bool q0 0) eqn:A; [| reflexivity].
  apply Qle_bool_iff in A. apply Qle_bool_iff in N.
  assert (E : q0 == 0) by lra. apply Qeq_bool_iff in E. congruence.
Qed.


(** ** The sorted copy *)

Lemma insertSorted_perm cmp (a : Card) (l : list Card) :
  Permutation (insertSorted cmp a l) (a :: l).
Proof.
  induction l as [| b rest IH]; cbn [insertSorted].
  - reflexivity.
  - destruct (ltb n0 (cmp a b)).
    + apply perm_trans with (b :: a :: rest);
        [apply perm_skip, IH | apply perm_swap].
    + reflexivity.
Qed.

Lemma sortWith_perm cmp (l : list Card) : Permutation (sortWith cmp l) l.
Proof.
  induction l as [| a rest IH]; cbn [sortWith fold_right].
  - reflexivity.
  - apply perm_trans with (a :: sortWith cmp rest);
      [apply insertSorted_perm | apply perm_skip, IH].
Qed.

Lemma sortByFmv_In (cards : list Card) (c : Card) :
  In c (sortByFmv cards) <-> In c cards.
Proof.
  split; apply Permutation_in; [| symmetry]; apply sortWith_perm.
Qed.

Lemma sortByFmv_length (cards : list Card) :
  List.length (sortByFmv cards) = List.length cards.
Proof. apply Permutation_length, sortWith_perm. Qed.

Lemma StronglySorted_map {A B : Type} (RA : A -> A -> Prop)
  (RB : B -> B -> Prop) (f : A -> B) (l : list A) :
  (forall a b, RA a b -> RB (f a) (f b)) ->
  StronglySorted RA l -> StronglySorted RB (map f l).
Proof.
  intros Hf Hs. induction Hs as [| a l Hs IH Ha]; cbn [map].
  - constructor.
  - constructor; [exact IH |].
    apply Forall_map. eapply Forall_impl; [| exact Ha].
    intros b Hb. apply Hf, Hb.
Qed.

(** The comparator orders two cards as their values compare. *)
Lemma byFmv_after (a b : Card) :
  isNaN (fmv a) = false -> isNaN (fmv b) = false ->
  representable (fmv a) -> representable (fmv b) ->
  ltb n0 (byFmv a b) = negb (leb (fmv a) (fmv b)).
Proof.
  unfold byFmv, sub. intros Na Nb Ra Rb.
  destruct (isFinite (fmv a)) eqn:Fa, (isFinite (fmv b)) eqn:Fb.
  - assert (Fn : isFinite (neg (fmv b)) = true)
      by (rewrite isFinite_neg; exact Fb).
    pose proof (R_neg (fmv b)) as Rn.
    assert (Da : isDouble (R (fmv a)))
      by (destruct (fmv a); try discriminate; [exact isDouble_0 | exact Ra]).
    assert (Db : isDouble (R (fmv b)))
      by (destruct (fmv b); try discriminate; [exact isDouble_0 | exact Rb]).
    destruct (leb (fmv a) (fmv b)) eqn:L.
    + apply (le_finite _ _ Fa Fb) in L. cbn [negb].
      destruct (add_finite _ _ Fa Fn) as [-> | [-> _]]; [| reflexivity].
      destruct (ltb n0 (F (R (fmv a) + R (neg (fmv b))))) eqn:C;
        [| reflexivity].
      apply ltb_0_F in C. lra.
    + cbn [negb].
      assert (G : R (fmv b) < R (fmv a)).
      { apply Qnot_le_lt. intro H. apply (le_finite _ _ Fa Fb) in H.
        unfold le in H. congruence. }
      pose proof (double_gap _ _ Da Db G) as Gap.
      pose proof (pow2_pos (-1074)) as Hp.
      destruct (add_finite _ _ Fa Fn) as [-> | [_ E]]; [| lra].
      apply F_ltb_0. lra.
  - destruct (fmv a), (fmv b); try discriminate; unfold neg;
      try destruct (Qeq_bool _ 0); reflexivity.
  - destruct (fmv a), (fmv b); try discriminate; unfold neg;
      try destruct (Qeq_bool _ 0); reflexivity.
  - destruct (fmv a), (fmv b); try discriminate; reflexivity.
Qed.

Lemma insertSorted_sorted (a : Card) (l : list Card) :
  wellFormed a -> Forall wellFormed l ->
  StronglySorted ascending l ->
  StronglySorted ascending (insertSorted byFmv a l).
Proof.
  intros [Na Ra] Hl Hs. induction Hs as [| b rest Hs IH Hb].
  - repeat constructor.
  - cbn [insertSorted].
    inversion Hl as [| ? ? [Nb Rb] Hrest]; subst.
    rewrite (byFmv_after a b Na Nb Ra Rb).
    destruct (leb (fmv a) (fmv b)) eqn:L; cbn [negb].
    + constructor; [constructor; assumption |].
      constructor; [exact L |].
      eapply Forall_impl; [| exact Hb]. intros c Hc.
      unfold ascending in *. eapply le_trans; eassumption.
    + constructor; [apply IH, Hrest |].
      assert (P : Permutation (a :: rest) (insertSorted byFmv a rest))
        by (symmetry; apply insertSorted_perm).
      eapply Permutation_Forall; [exact P |].
      constructor; [| exact Hb].
      apply le_total; assumption.
Qed.

(** The sorted copy holds the same cards in ascending order of value, as
    long as no value is NaN. *)
Lemma sortByFmv_sorted (cards : list Card) :
  Forall wellFormed cards ->
  Permutation (sortByFmv cards) cards /\
  StronglySorted ascending (sortByFmv cards).
Proof.
  intro H. split; [apply sortWith_perm |].
  induction H as [| a rest Ha Hrest IH]; cbn [sortByFmv sortWith fold_right].
  - constructor.
  - apply insertSorted_sorted; [exact Ha | | exact IH].
    eapply Permutation_Forall; [| exact Hrest].
    symmetry. apply sortWith_perm.
Qed.

(** The sort is stable: the cards of one value keep the order they had. *)
Lemma insertSorted_stable (v : number) (a : Card) (l : list Card) :
  wellFormed a -> Forall wellFormed l ->
  filter (fun c => eqb (fmv c) v) (insertSorted byFmv a l)
  = filter (fun c => eqb (fmv c) v) (a :: l).
Proof.
  intros [Na Ra] Hl. induction Hl as [| b rest [Nb Rb] Hrest IH].
  - reflexivity.
  - cbn [insertSorted]. rewrite (byFmv_after a b Na Nb Ra Rb).
    destruct (leb (fmv a) (fmv b)) eqn:L; cbn [negb]; [reflexivity |].
    cbn [filter] in *. rewrite IH.
    destruct (eqb (fmv a) v) eqn:Ea, (eqb (fmv b) v) eqn:Eb; try reflexivity.
    exfalso. unfold eqb in Ea, Eb.
    apply andb_prop in Ea. apply andb_prop in Eb.
    destruct Ea as [Ea _]. destruct Eb as [_ Eb].
    pose proof (le_trans _ _ _ Ea Eb) as T. unfold le in T. congruence.
Qed.

Lemma sortByFmv_stable (v : number) (cards : list Card) :
  Forall wellFormed cards ->
  filter (fun c => eqb (fmv c) v) (sortByFmv cards)
  = filter (fun c => eqb (fmv c) v) cards.
Proof.
  intro H. induction H as [| a rest Ha Hrest IH].
  - reflexivity.
  - cbn [sortByFmv sortWith fold_right].
    fold (sortWith byFmv rest). fold (sortByFmv rest).
    rewrite insertSorted_stable.
    + cbn [filter]. rewrite IH. reflexivity.
    + exact Ha.
    + eapply Permutation_Forall; [| exact Hrest].
      symmetry. apply sortWith_perm.
Qed.


(** ** The store *)

Lemma nth_error_setArray_same (s : Store) (r : ref) (cs old : list Card) :
  nth_error s r = Some old -> nth_error (setArray r cs s) r = Some cs.
Proof.
  revert r. induction s as [| a s IH]; intros [| r] H; simpl in *;
    try discriminate; auto.
Qed.

Lemma nth_error_setArray_other (s : Store) (r r' : ref) (cs : list Card) :
  r <> r' -> nth_error (setArray r cs s) r' = nth_error s r'.
Proof.
  revert r r'. induction s as [| a s IH]; intros [| r] [| r'] H; simpl;
    try reflexivity; try congruence.
  apply IH. congruence.
Qed.

Lemma elements_run (s : Store) (r : ref) (cs : list Card) :
  nth_error s r = Some cs -> elements r s = Some (cs, s).
Proof. intro H. unfold elements. rewrite H. reflexivity. Qed.

Lemma spread_run (s : Store) (r : ref) (cs : list Card) :
  nth_error s r = Some cs -> spread r s = Some (List.length s, s ++ [cs]).
Proof. intro H. unfold spread. rewrite H. reflexivity. Qed.

Lemma nth_error_snoc (s : Store) (cs : list Card) :
  nth_error (s ++ [cs]) (List.length s) = Some cs.
Proof. rewrite nth_error_app2 by lia. rewrite Nat.sub_diag. reflexivity. Qed.

Lemma setArray_snoc (s : Store) (old cs : list Card) :
  setArray (List.length s) cs (s ++ [old]) = s ++ [cs].
Proof.
  induction s as [| a s IH]; simpl; [reflexivity | rewrite IH; reflexivity].
Qed.

Lemma sortInPlace_run (s : Store) (cs : list Card) :
  sortInPlace byFmv (List.length s) (s ++ [cs])
  = Some (List.length s, s ++ [sortByFmv cs]).
Proof.
  unfold sortInPlace. rewrite nth_error_snoc, setArray_snoc. reflexivity.
Qed.

Lemma nth_error_kept (s : Store) (r : ref) (cs extra : list Card) :
  nth_error s r = Some cs -> nth_error (s ++ [extra]) r = Some cs.
Proof.
  intro H. rewrite nth_error_app1; [exact H |].
  apply nth_error_Some. congruence.
Qed.

Lemma computeMetrics_run (s : Store) (cards : ref) (cs : list Card)
  (priceUsd : number) :
  nth_error s cards = Some cs ->
  computeMetrics cards priceUsd s
  = Some (metricsOf cs priceUsd, s ++ [sortByFmv cs]).
Proof.
  intro H. unfold computeMetrics, bind. cbv zeta.
  rewrite !(elements_run s cards cs H).
  rewrite (spread_run s cards cs H), sortInPlace_run.
  rewrite (elements_run _ _ _ (nth_error_snoc s (sortByFmv cs))).
  rewrite (elements_run _ _ _ (nth_error_kept s cards cs _ H)).
  reflexivity.
Qed.

Lemma buildProfitCurve_run (s : Store) (cards : ref) (cs : list Card)
  (priceUsd scale : number) :
  nth_error s cards = Some cs ->
  buildProfitCurve cards priceUsd scale s
  = Some (curveOf cs priceUsd scale, s ++ [sortByFmv cs]).
Proof.
  intro H. unfold buildProfitCurve, bind.
  rewrite (spread_run s cards cs H), sortInPlace_run.
  rewrite (elements_run _ _ _ (nth_error_snoc s (sortByFmv cs))).
  reflexivity.
Qed.

(** ** The normalizer *)

(** The normalizer at a zero sum: both tolerance tests fail and the
    division by zero returns an infinity. *)
Lemma probabilityScale_zero_sum (cards : list Card) :
  isZero (rawSum cards) = true ->
  probabilityScale cards = inf (sgn (rawSum cards)).
Proof.
  intro Z. unfold probabilityScale. cbv zeta.
  destruct (rawSum cards) as [ | | | | q]; try discriminate.
  - reflexivity.
  - simpl in Z. apply Qeq_bool_iff in Z.
    assert (E1 : sub (Fin q) n1 = Fin (-1)).
    { unfold sub. rewrite n1_eq. simpl.
      rewrite (F_wd (q + - (1)) (-1)) by (rewrite Z; reflexivity). reflexivity. }
    assert (E2 : sub (Fin q) n100 = Fin (-100)).
    { unfold sub. rewrite n100_eq. simpl.
      rewrite (F_wd (q + - (100)) (-100)) by (rewrite Z; reflexivity). reflexivity. }
    rewrite E1, E2.
    change (ltb (abs (Fin (-1))) n1e_6) with false.
    change (ltb (abs (Fin (-100))) n1e_2) with false.
    cbv iota. rewrite n1_eq. simpl.
    apply Qeq_bool_iff in Z. rewrite Z. simpl.
    reflexivity.
Qed.

Lemma rawSum_sign (cards : list Card) (acc : number) :
  (forall c, In c cards -> nonneg (probability c)) ->
  nonneg acc -> sgn acc = false ->
  let s := fold_left (fun sum card => add sum (probability card)) cards acc in
  nonneg s /\ sgn s = false.
Proof.
  revert acc. induction cards as [| c rest IH]; intros acc Hp Ha Hs.
  - split; assumption.
  - cbn [fold_left]. apply IH.
    + intros d Hd. apply Hp. right. exact Hd.
    + apply add_nonneg; [exact Ha | apply Hp; left; reflexivity].
    + assert (Hc : nonneg (probability c)) by (apply Hp; left; reflexivity).
      destruct (nonneg_cases _ Hc) as [-> | [Fc Rc]].
      { rewrite add_PosInf_r by exact Ha. reflexivity. }
      destruct acc as [| | | | q]; try discriminate; try reflexivity.
      * destruct (probability c); try discriminate; reflexivity.
      * assert (E : add (Fin q) (probability c) = F (q + R (probability c)))
          by (destruct (probability c); try discriminate; reflexivity).
        rewrite E. apply sgn_F_nonneg.
        unfold nonneg in Ha. simpl in Ha. apply Qle_bool_iff in Ha. lra.
Qed.

Lemma probabilityScale_nonneg (cards : list Card) :
  (forall c, In c cards -> nonneg (probability c)) ->
  nonneg (probabilityScale cards).
Proof.
  intro Hp.
  destruct (rawSum_sign cards n0 Hp) as [Hn Hs]; try reflexivity.
  fold (rawSum cards) in Hn, Hs.
  unfold probabilityScale. cbv zeta.
  destruct (ltb _ n1e_6); [reflexivity |].
  destruct (ltb _ n1e_2); [reflexivity |].
  rewrite n1_eq.
  destruct (rawSum cards) as [| | | | q]; try discriminate; try reflexivity.
  unfold nonneg in Hn. simpl in Hn, Hs. simpl. rewrite Hn. simpl.
  destruct (Qeq_bool q 0) eqn:Z; [reflexivity |].
  apply F_nonneg. apply Qle_bool_iff in Hn.
  assert (Hq : 0 < q).
  { destruct (Qlt_le_dec 0 q) as [L | G]; [exact L |].
    assert (E : q == 0) by lra. apply Qeq_bool_iff in E. congruence. }
  apply Qlt_le_weak. apply Qlt_shift_div_l; [exact Hq | lra].
Qed.


(** ** Sums of scaled probabilities *)

Lemma scaledMass_snoc (l : list Card) (c : Card) (scale : number) :
  scaledMass (l ++ [c]) scale =
  add (scaledMass l scale) (mul (probability c) scale).
Proof. unfold scaledMass. rewrite fold_left_app. reflexivity. Qed.

Lemma mass_NaN_acc (cards : list Card) (scale : number) :
  fold_left (fun sum card => add sum (mul (probability card) scale)) cards NaN
  = NaN.
Proof. induction cards as [| c rest IH]; [reflexivity | exact IH]. Qed.

Lemma mass_NaN_term (cards : list Card) (scale acc : number) (c : Card) :
  In c cards -> mul (probability c) scale = NaN ->
  fold_left (fun sum card => add sum (mul (probability card) scale)) cards acc
  = NaN.
Proof.
  revert acc. induction cards as [| d rest IH]; intros acc Hin E.
  - contradiction.
  - cbn [fold_left]. destruct Hin as [-> | Hin].
    + rewrite E, add_NaN_r. apply mass_NaN_acc.
    + apply IH; assumption.
Qed.

Lemma mass_representable (cards : list Card) (scale acc : number) :
  representable acc ->
  representable
    (fold_left (fun sum card => add sum (mul (probability card) scale))
       cards acc).
Proof.
  revert acc. induction cards as [| c rest IH]; intros acc H.
  - exact H.
  - cbn [fold_left]. auto with numbers.
Qed.

(** The scaled probabilities of non-negative probabilities that enter a
    total that is a Number are non-negative. *)
Lemma scaled_nonneg (cards : list Card) :
  (forall c, In c cards -> nonneg (probability c)) ->
  isNaN (scaledMass cards (probabilityScale cards)) = false ->
  forall c, In c cards ->
    nonneg (mul (probability c) (probabilityScale cards)).
Proof.
  intros Hp Hm c Hc.
  destruct (mul_nonneg_or_NaN (probability c) (probabilityScale cards))
    as [H | H].
  - apply Hp, Hc.
  - apply probabilityScale_nonneg, Hp.
  - exact H.
  - unfold scaledMass in Hm. rewrite (mass_NaN_term _ _ _ c Hc H) in Hm.
    discriminate.
Qed.

Lemma oddsSum_le_mass (cards : list Card) (scale cost a1 a2 : number) :
  (forall c, In c cards -> nonneg (mul (probability c) scale)) ->
  nonneg a1 -> le a1 a2 -> representable a2 ->
  let o := fold_left
             (fun sum card =>
                if geb (fmv card) cost
                then add sum (mul (probability card) scale)
                else sum) cards a1 in
  let m := fold_left
             (fun sum card => add sum (mul (probability card) scale))
             cards a2 in
  nonneg o /\ le o m.
Proof.
  revert a1 a2. induction cards as [| c rest IH]; intros a1 a2 Hw H1 H12 Hr.
  - split; assumption.
  - cbn [fold_left].
    assert (Hc : nonneg (mul (probability c) scale))
      by (apply Hw; left; reflexivity).
    assert (Hrest : forall d, In d rest -> nonneg (mul (probability d) scale))
      by (intros d Hd; apply Hw; right; exact Hd).
    destruct (geb (fmv c) cost).
    + apply IH; auto with numbers.
      apply add_mono; auto using le_refl with numbers.
    + apply IH; auto with numbers.
      apply le_trans with a2; [exact H12 |].
      apply add_ge_l; try assumption. exact (le_nonneg a1 a2 H1 H12).
Qed.

Lemma expectedValue_NaN_acc (cards : list Card) (scale : number) :
  fold_left
    (fun sum card =>
       add sum (mul (mul (probability card) scale) (fmv card))) cards NaN
  = NaN.
Proof. induction cards as [| c rest IH]; [reflexivity | exact IH]. Qed.

Lemma expectedValue_between (cards : list Card) (scale lo hi : number)
  (aLo a aHi : number) :
  (forall c, In c cards ->
     nonneg (mul (probability c) scale) /\
     isFinite (mul (probability c) scale) = true /\
     le lo (fmv c) /\ le (fmv c) hi) ->
  nonneg lo -> isFinite hi = true ->
  nonneg aLo -> le aLo a -> le a aHi ->
  let step := fun sum card =>
                add sum (mul (mul (probability card) scale) (fmv card)) in
  le (fold_left step (map (withFmv lo) cards) aLo) (fold_left step cards a) /\
  le (fold_left step cards a) (fold_left step (map (withFmv hi) cards) aHi).
Proof.
  intros H Hlo Hhi. revert aLo a aHi.
  induction cards as [| c rest IH]; intros aLo a aHi H0 H1 H2 step.
  - split; assumption.
  - cbn [map fold_left]. unfold step at 1 3 4 6. cbn [withFmv probability fmv].
    destruct (H c (or_introl eq_refl)) as (Wn & Wf & Vl & Vh).
    pose proof (le_nonneg lo (fmv c) Hlo Vl) as Vn.
    pose proof (le_finite_l (fmv c) hi Vn Vh Hhi) as Vf.
    pose proof (le_finite_l lo (fmv c) Hlo Vl Vf) as Lf.
    pose proof (le_nonneg aLo a H0 H1) as An.
    apply IH.
    + intros d Hd. apply H. right. exact Hd.
    + apply add_nonneg; [exact H0 | apply mul_nonneg; assumption].
    + apply add_mono; try assumption.
      * apply mul_nonneg; assumption.
      * apply mul_mono_r; assumption.
    + apply add_mono; try assumption.
      * apply mul_nonneg; assumption.
      * apply mul_mono_r; assumption.
Qed.


(** ** The median loop *)

Lemma medianLoop_spec (rest walked : list Card) (scale : number) :
  (forall k, (k <= List.length walked)%nat ->
     geb (scaledMass (firstn k (walked ++ rest)) scale) n0_5 = false) ->
  (exists pre card post,
     walked ++ rest = pre ++ card :: post /\
     geb (scaledMass (pre ++ [card]) scale) n0_5 = true /\
     (forall k, (k <= List.length pre)%nat ->
        geb (scaledMass (firstn k (walked ++ rest)) scale) n0_5 = false) /\
     medianLoop rest scale (scaledMass walked scale) = fmv card)
  \/
  ((forall k, geb (scaledMass (firstn k (walked ++ rest)) scale) n0_5 = false) /\
   medianLoop rest scale (scaledMass walked scale) = n0).
Proof.
  revert walked. induction rest as [| card rest IH]; intros walked Hw.
  - right. split; [| reflexivity].
    intro k. destruct (Nat.le_gt_cases k (List.length walked)) as [L | G].
    + apply Hw, L.
    + rewrite firstn_all2 by (rewrite app_nil_r; lia).
      rewrite <- (firstn_all (walked ++ [])). apply Hw.
      rewrite app_nil_r. lia.
  - cbn [medianLoop]. rewrite <- scaledMass_snoc.
    destruct (geb (scaledMass (walked ++ [card]) scale) n0_5) eqn:G.
    + left. exists walked, card, rest.
      split; [reflexivity | split; [exact G | split; [exact Hw | reflexivity]]].
    + assert (E : walked ++ card :: rest = (walked ++ [card]) ++ rest)
        by (rewrite <- app_assoc; reflexivity).
      rewrite E. apply IH. intros k Hk. rewrite length_app in Hk. simpl in Hk.
      destruct (Nat.eq_dec k (List.length walked + 1)) as [-> | N].
      * rewrite firstn_app, firstn_all2 by (rewrite length_app; simpl; lia).
        rewrite length_app. simpl.
        replace (List.length walked + 1 - (List.length walked + 1))%nat with 0%nat by lia.
        simpl. rewrite app_nil_r. exact G.
      * rewrite <- E. apply Hw. lia.
Qed.

(** ** The curve *)
Lemma curveWalk_points (sorted : list Card) (priceUsd scale t : number) :
  Forall2
    (fun card pt =>
       CurvePoint.x pt = mathMax (fmv card) n0_01 /\
       CurvePoint.profitPct pt =
         mul (div (sub (CurvePoint.x pt) priceUsd) priceUsd) n100)
    sorted (curveWalk sorted priceUsd scale t).
Proof.
  revert t. induction sorted as [| card rest IH]; intro t; cbn [curveWalk].
  - constructor.
  - constructor; [split; reflexivity | apply IH].
Qed.

Lemma curveWalk_x (sorted : list Card) (priceUsd scale t : number) :
  map CurvePoint.x (curveWalk sorted priceUsd scale t)
  = map (fun card => mathMax (fmv card) n0_01) sorted.
Proof.
  revert t. induction sorted as [| card rest IH]; intro t.
  - reflexivity.
  - cbn [curveWalk map CurvePoint.x]. rewrite IH. reflexivity.
Qed.


Lemma curveWalk_nonIncreasing (sorted : list Card) (priceUsd scale t : number) :
  (forall c, In c sorted -> nonneg (mul (probability c) scale)) ->
  representable t -> isNaN t = false -> t <> PosInf ->
  let ys := map CurvePoint.y (curveWalk sorted priceUsd scale t) in
  Forall (fun y => le y (mul t n100)) ys /\ nonIncreasing ys.
Proof.
  revert t. induction sorted as [| card rest IH]; intros t Hw Hr Hn Hi.
  - split; [constructor |].
    intros i j yi yj _ A. destruct i; discriminate.
  - cbn [curveWalk map]. cbv zeta.
    set (t' := sub t (mul (probability card) scale)).
    assert (Hle : le t' t).
    { apply sub_le; try assumption.
      - apply Hw. left. reflexivity.
      - intro. contradiction. }
    destruct (le_not_NaN _ _ Hle) as [Hn' _].
    assert (Hi' : t' <> PosInf).
    { intro E. rewrite E in Hle. destruct t; try discriminate. congruence. }
    destruct (IH t') as [A B]; try assumption.
    { intros c Hc. apply Hw. right. exact Hc. }
    { apply sub_representable. }
    assert (Hm : le (mul t' n100) (mul t n100)).
    { rewrite n100_eq. apply mul_pos_mono; [reflexivity | exact Hle]. }
    assert (A' : Forall (fun y => le y (mul t n100))
                   (map CurvePoint.y (curveWalk rest priceUsd scale t'))).
    { eapply Forall_impl; [| exact A]. intros y Hy. cbv beta in Hy.
      eapply le_trans; eassumption. }
    split.
    + constructor; [| exact A'].
      apply le_refl. destruct (le_not_NaN _ _ Hm) as [_ N]. exact N.
    + intros i j yi yj Hij Hyi Hyj.
      destruct j as [| j]; [lia |]. cbn [nth_error] in Hyj.
      destruct i as [| i].
      * cbn [nth_error] in Hyi. injection Hyi as <-.
        rewrite Forall_forall in A'. apply A'.
        eapply nth_error_In. exact Hyj.
      * cbn [nth_error] in Hyi. apply (B i j); [lia | assumption | assumption].
Qed.

(** ** The model of Numbers against binary64 *)

(** On every pair of the sample values the four operations of the model
    give what the Standard Library's specification of binary64 gives. *)
Example operations_agree_with_binary64 :
  agreesOnSamples add (SpecFloat.SFadd 53 1024) = true /\
  agreesOnSamples sub (SpecFloat.SFsub 53 1024) = true /\
  agreesOnSamples mul (SpecFloat.SFmul 53 1024) = true /\
  agreesOnSamples div (SpecFloat.SFdiv 53 1024) = true.
Proof. vm_compute. repeat split; reflexivity. Qed.

(** ** The script and the dashboard compute the same *)

(** 1 / 100 is the double that the literal 0.01 denotes. *)
Lemma one_hundredth : div n1 n100 = n0_01.
Proof. vm_compute. reflexivity. Qed.

Lemma script_probScale (cards : list Card) :
  Script.probScale cards = probabilityScale cards.
Proof.
  unfold Script.probScale, probabilityScale, rawSum.
  rewrite one_hundredth. reflexivity.
Qed.

Lemma script_agrees (cards : list Card) (priceUsd : number) :
  let r := Script.calculateExpectedValue cards priceUsd in
  let m := metricsOf cards priceUsd in
  Script.expectedCardValue r = expectedValue m /\
  Script.medianCardValue r = medianValue m /\
  Script.oddsOverCostPercent r = oddsOverCost m /\
  Script.expectedProfit r = profit m /\
  Script.evPercent r = evPercent m /\
  Script.profitPercent r = profitPercent m.
Proof.
  unfold Script.calculateExpectedValue, metricsOf, metricsRecord.
  rewrite script_probScale. cbv zeta.
  repeat split; reflexivity.
Qed.

(** ** Percentages of the price *)

Lemma mul_one_100 : mul (Fin 1) (Fin 100) = Fin 100.
Proof. vm_compute. reflexivity. Qed.

(** The percentage [(v - price) / price * 100] of the source grows with
    [v], for a positive price. *)
Lemma percent_mono (a b : number) (c : Q) :
  0 < c -> le a b ->
  le (mul (div (sub a (Fin c)) (Fin c)) n100)
     (mul (div (sub b (Fin c)) (Fin c)) n100).
Proof.
  intros Hc H. rewrite n100_eq.
  apply mul_pos_mono; [reflexivity |].
  apply div_pos_mono; [exact Hc |].
  apply sub_mono_l; [reflexivity | exact H].
Qed.

Lemma percent_at_price (c : Q) :
  0 < c -> mul (div (sub (Fin c) (Fin c)) (Fin c)) n100 = n0.
Proof.
  intro Hc. rewrite sub_self, (div_zero_pos c Hc), n100_eq. reflexivity.
Qed.

Lemma isDouble_5 : isDouble 5.
Proof.
  exists 5%Z, 0%Z. split; [reflexivity |].
  split; [reflexivity |]. split; [lia |]. reflexivity.
Qed.

Lemma percent_at_zero (c : Q) :
  0 < c -> isDouble c ->
  le (Fin (-100)) (mul (div (sub n0 (Fin c)) (Fin c)) n100).
Proof.
  intros Hc D.
  assert (Zc : Qeq_bool c 0 = false).
  { destruct (Qeq_bool c 0) eqn:E; [| reflexivity].
    apply Qeq_bool_iff in E. lra. }
  assert (E1 : sub n0 (Fin c) = F (- c)).
  { unfold sub, neg. rewrite Zc. simpl. apply F_wd. lra. }
  destruct (F_exact (- c) (isDouble_opp c D)) as [Ff Rf].
  rewrite E1.
  destruct (div_finite (F (- c)) c Ff Hc) as [[E2 _] | [_ E2]].
  - rewrite E2, (F_wd (R (F (- c)) / c) (-1)).
    + vm_compute. reflexivity.
    + rewrite Rf. field. lra.
  - exfalso. rewrite Rf in E2.
    assert (- c / c == -1) by (field; lra). lra.
Qed.

(** So does [v / price * 100]. *)
Lemma ratio_mono (a b : number) (c : Q) :
  0 < c -> le a b ->
  le (mul (div a (Fin c)) n100) (mul (div b (Fin c)) n100).
Proof.
  intros Hc H. rewrite n100_eq.
  apply mul_pos_mono; [reflexivity |].
  apply div_pos_mono; [exact Hc | exact H].
Qed.

Lemma ratio_at_price (c : Q) :
  0 < c -> mul (div (Fin c) (Fin c)) n100 = n100.
Proof.
  intro Hc. rewrite (div_self c Hc), n100_eq. apply mul_one_100.
Qed.

(** ** Sums over some of the cards *)

(** The sum over the cards worth at least the price: a higher price leaves
    fewer cards in. *)
Lemma oddsSum_antitone (cards : list Card) (scale p1 p2 a1 a2 : number) :
  (forall c, In c cards -> nonneg (mul (probability c) scale)) ->
  le p1 p2 -> nonneg a2 -> le a2 a1 -> representable a1 ->
  let step := fun cost sum card =>
                if geb (fmv card) cost
                then add sum (mul (probability card) scale)
                else sum in
  le (fold_left (step p2) cards a2) (fold_left (step p1) cards a1).
Proof.
  intros Hw Hp. revert a1 a2.
  induction cards as [| c rest IH]; intros a1 a2 H2 H21 Hr step.
  - exact H21.
  - cbn [fold_left].
    assert (Hc : nonneg (mul (probability c) scale))
      by (apply Hw; left; reflexivity).
    assert (Hrest : forall c', In c' rest ->
              nonneg (mul (probability c') scale))
      by (intros c' Hin; apply Hw; right; exact Hin).
    pose proof (le_nonneg a2 a1 H2 H21) as H1.
    unfold step at 2 4. unfold geb.
    destruct (leb p2 (fmv c)) eqn:E2.
    + assert (E1 : leb p1 (fmv c) = true) by (exact (le_trans _ _ _ Hp E2)).
      rewrite E1. apply IH; try assumption.
      * apply add_nonneg; assumption.
      * apply add_mono; try assumption. apply le_refl, nonneg_not_NaN, Hc.
      * apply add_representable.
    + destruct (leb p1 (fmv c)).
      * apply IH; try assumption.
        -- eapply le_trans; [exact H21 |]. apply add_ge_l; assumption.
        -- apply add_representable.
      * apply IH; assumption.
Qed.

Lemma oddsSum_none (cards : list Card) (scale cost acc : number) :
  (forall c, In c cards -> geb (fmv c) cost = false) ->
  fold_left
    (fun sum card =>
       if geb (fmv card) cost
       then add sum (mul (probability card) scale)
       else sum) cards acc = acc.
Proof.
  revert acc. induction cards as [| c rest IH]; intros acc H; [reflexivity |].
  cbn [fold_left]. rewrite (H c) by (left; reflexivity).
  apply IH. intros c' Hin. apply H. right. exact Hin.
Qed.

Lemma oddsSum_all (cards : list Card) (scale cost acc : number) :
  (forall c, In c cards -> geb (fmv c) cost = true) ->
  fold_left
    (fun sum card =>
       if geb (fmv card) cost
       then add sum (mul (probability card) scale)
       else sum) cards acc
  = fold_left (fun sum card => add sum (mul (probability card) scale))
      cards acc.
Proof.
  revert acc. induction cards as [| c rest IH]; intros acc H; [reflexivity |].
  cbn [fold_left]. rewrite (H c) by (left; reflexivity).
  apply IH. intros c' Hin. apply H. right. exact Hin.
Qed.

Lemma mass_ge_acc (cards : list Card) (scale acc : number) :
  (forall c, In c cards -> nonneg (mul (probability c) scale)) ->
  representable acc -> nonneg acc ->
  le acc
    (fold_left (fun sum card => add sum (mul (probability card) scale))
       cards acc).
Proof.
  revert acc. induction cards as [| c rest IH]; intros acc Hw Hr Ha.
  - apply le_refl, nonneg_not_NaN, Ha.
  - cbn [fold_left].
    assert (Hc : nonneg (mul (probability c) scale))
      by (apply Hw; left; reflexivity).
    eapply le_trans; [apply (add_ge_l acc _ Hr Ha Hc) |].
    apply IH.
    + intros c' Hin. apply Hw. right. exact Hin.
    + apply add_representable.
    + apply add_nonneg; assumption.
Qed.

Lemma term_le_mass (cards : list Card) (scale acc : number) (card : Card) :
  (forall c, In c cards -> nonneg (mul (probability c) scale)) ->
  nonneg acc -> In card cards ->
  le (mul (probability card) scale)
    (fold_left (fun sum card => add sum (mul (probability card) scale))
       cards acc).
Proof.
  revert acc. induction cards as [| c rest IH]; intros acc Hw Ha Hin.
  - destruct Hin.
  - cbn [fold_left].
    assert (Hc : nonneg (mul (probability c) scale))
      by (apply Hw; left; reflexivity).
    assert (Hrest : forall c', In c' rest ->
              nonneg (mul (probability c') scale))
      by (intros c' H; apply Hw; right; exact H).
    destruct Hin as [<- | Hin].
    + eapply le_trans;
        [apply (add_ge_r acc _ (mul_representable _ _) Ha Hc) |].
      apply mass_ge_acc; [exact Hrest | apply add_representable |].
      apply add_nonneg; assumption.
    + apply IH; [exact Hrest | apply add_nonneg; assumption | exact Hin].
Qed.

Lemma expectedValue_nonneg_acc (cards : list Card) (scale acc : number) :
  (forall c, In c cards ->
     nonneg (mul (probability c) scale) /\
     isFinite (mul (probability c) scale) = true /\
     nonneg (fmv c) /\ isFinite (fmv c) = true) ->
  nonneg acc ->
  nonneg
    (fold_left
       (fun sum card =>
          add sum (mul (mul (probability card) scale) (fmv card)))
       cards acc).
Proof.
  revert acc. induction cards as [| c rest IH]; intros acc H Ha; [exact Ha |].
  cbn [fold_left]. apply IH.
  - intros c' Hin. apply H. right. exact Hin.
  - destruct (H c (or_introl eq_refl)) as (Wn & Wf & Vn & Vf).
    apply add_nonneg; [exact Ha |]. apply mul_nonneg; assumption.
Qed.

(** ** A probability that is not a number *)

Lemma rawSum_NaN_acc (cards : list Card) :
  fold_left (fun sum card => add sum (probability card)) cards NaN = NaN.
Proof. induction cards as [| c rest IH]; [reflexivity | exact IH]. Qed.

Lemma rawSum_NaN (cards : list Card) (acc : number) (card : Card) :
  In card cards -> probability card = NaN ->
  fold_left (fun sum card => add sum (probability card)) cards acc = NaN.
Proof.
  revert acc. induction cards as [| c rest IH]; intros acc Hin E.
  - destruct Hin.
  - cbn [fold_left]. destruct Hin as [-> | Hin].
    + rewrite E, add_NaN_r. apply rawSum_NaN_acc.
    + apply IH; assumption.
Qed.

Lemma probabilityScale_NaN (cards : list Card) :
  rawSum cards = NaN -> probabilityScale cards = NaN.
Proof.
  intro E. unfold probabilityScale. rewrite E, n1_eq. reflexivity.
Qed.

Lemma expectedValueOf_NaN_scale (cards : list Card) :
  cards <> [] -> expectedValueOf cards NaN = NaN.
Proof.
  destruct cards as [| c rest]; [congruence |]. intros _.
  unfold expectedValueOf. cbn [fold_left].
  rewrite mul_NaN_r, mul_NaN_l, add_NaN_r. apply expectedValue_NaN_acc.
Qed.

Lemma medianLoop_NaN_scale (sorted : list Card) (acc : number) :
  medianLoop sorted NaN acc = n0.
Proof.
  revert acc. induction sorted as [| c rest IH]; intro acc; [reflexivity |].
  cbn [medianLoop]. rewrite mul_NaN_r, add_NaN_r.
  unfold geb. rewrite leb_NaN_r. apply IH.
Qed.

Lemma curveWalk_NaN (sorted : list Card) (priceUsd scale : number) :
  Forall (fun pt => CurvePoint.y pt = NaN)
    (curveWalk sorted priceUsd scale NaN).
Proof.
  induction sorted as [| c rest IH]; [constructor |].
  cbn [curveWalk]. constructor; [reflexivity | exact IH].
Qed.

(** ** The curve, again *)

Lemma curveWalk_profitPct (sorted : list Card) (priceUsd scale t : number) :
  map CurvePoint.profitPct (curveWalk sorted priceUsd scale t)
  = map (fun card =>
           mul (div (sub (mathMax (fmv card) n0_01) priceUsd) priceUsd) n100)
      sorted.
Proof.
  revert t. induction sorted as [| c rest IH]; intro t; [reflexivity |].
  cbn [curveWalk map]. f_equal. apply IH.
Qed.

Lemma curveWalk_length (sorted : list Card) (priceUsd scale t : number) :
  List.length (curveWalk sorted priceUsd scale t) = List.length sorted.
Proof.
  revert t. induction sorted as [| c rest IH]; intro t; [reflexivity |].
  cbn [curveWalk List.length]. f_equal. apply IH.
Qed.

Lemma curveOf_length (cards : list Card) (priceUsd scale : number) :
  List.length (curveOf cards priceUsd scale) = List.length cards.
Proof.
  unfold curveOf, curveFrom. rewrite curveWalk_length.
  apply sortByFmv_length.
Qed.

(** Two ascending lists of the same cards are equal when no two cards
    compare as equal. *)
Lemma sorted_unique (l1 l2 : list Card) :
  (forall a b, In a l1 -> In b l1 ->
     ascending a b -> ascending b a -> a = b) ->
  Permutation l1 l2 ->
  StronglySorted ascending l1 -> StronglySorted ascending l2 -> l1 = l2.
Proof.
  revert l2. induction l1 as [| a t1 IH]; intros l2 Anti P S1 S2.
  - apply Permutation_nil in P. congruence.
  - destruct l2 as [| b t2].
    { apply Permutation_sym, Permutation_nil in P. discriminate. }
    apply StronglySorted_inv in S1. destruct S1 as [S1 A1].
    apply StronglySorted_inv in S2. destruct S2 as [S2 A2].
    rewrite Forall_forall in A1, A2.
    assert (E : a = b).
    { assert (Ha : In a (b :: t2))
        by (apply (Permutation_in _ P); left; reflexivity).
      assert (Hb : In b (a :: t1))
        by (apply (Permutation_in _ (Permutation_sym P)); left; reflexivity).
      destruct Ha as [Ha | Ha]; [congruence |].
      destruct Hb as [Hb | Hb]; [congruence |].
      apply Anti; [left; reflexivity | right; exact Hb | |].
      - apply A1, Hb.
      - apply A2, Ha. }
    subst b. f_equal. apply IH; try assumption.
    + intros x y Hx Hy. apply Anti; right; assumption.
    + apply (Permutation_cons_inv P).
Qed.

(** ** The tier of loadData *)

Lemma nth_error_grown (s extra : Store) (r : ref) (cs : list Card) :
  nth_error s r = Some cs -> nth_error (s ++ extra) r = Some cs.
Proof.
  intro H. rewrite nth_error_app1; [exact H |].
  apply nth_error_Some. congruence.
Qed.

Lemma loadTier_run (s : Store) (cards : ref) (cs : list Card)
  (name : string) (priceUsd : number) :
  nth_error s cards = Some cs ->
  loadTier name (Some cards) priceUsd s
  = Some (Tier.mk name cards (metricsOf cs priceUsd)
            (curveOf cs priceUsd (probabilityScale cs)),
          s ++ [sortByFmv cs] ++ [sortByFmv cs]).
Proof.
  intro H. unfold loadTier, dataOrEmpty, bind, ret.
  rewrite (computeMetrics_run s cards cs priceUsd H).
  rewrite (buildProfitCurve_run (s ++ [sortByFmv cs]) cards cs);
    [| apply nth_error_kept, H].
  rewrite <- app_assoc. reflexivity.
Qed.

Lemma loadTier_missing_run (s : Store) (name : string) (priceUsd : number) :
  loadTier name None priceUsd s
  = Some (Tier.mk name (List.length s) (metricsOf [] priceUsd)
            (curveOf [] priceUsd (probabilityScale [])),
          (s ++ [[]]) ++ [sortByFmv []] ++ [sortByFmv []]).
Proof.
  unfold loadTier at 1. unfold dataOrEmpty, newArray.
  change (loadTier name (Some (List.length s)) priceUsd (s ++ [[]])
          = Some (Tier.mk name (List.length s) (metricsOf [] priceUsd)
                    (curveOf [] priceUsd (probabilityScale [])),
                  (s ++ [[]]) ++ [sortByFmv []] ++ [sortByFmv []])).
  apply loadTier_run, nth_error_snoc.
Qed.

(** ** The theme *)

Lemma pageAfter_0 (st : Storage) (attribute : option string) :
  pageAfter st attribute 0 = usePersistentTheme st attribute.
Proof. reflexivity. Qed.

Lemma pageAfter_S (st : Storage) (attribute : option string) (n : nat) :
  pageAfter st attribute (S n) = toggleTheme (pageAfter st attribute n).
Proof. reflexivity. Qed.

Lemma toggleTheme_theme (p : Page) :
  theme (toggleTheme p)
  = if String.eqb (theme p) "dark" then "light"%string else "dark"%string.
Proof.
  unfold toggleTheme. cbv zeta.
  destruct (String.eqb (theme p) "dark") eqn:Ed.
  - apply String.eqb_eq in Ed. rewrite Ed. reflexivity.
  - rewrite (String.eqb_sym "dark" (theme p)), Ed. reflexivity.
Qed.

(** What every click keeps: the theme is not empty, and the item of
    localStorage and the attribute hold it. *)
Lemma theme_invariant (st : Storage) (attribute : option string)
  (clicks : nat) :
  let p := pageAfter st attribute clicks in
  String.eqb (theme p) "" = false /\
  getItem (storage p) "theme" = Some (theme p) /\
  dataTheme p = Some (theme p) /\
  (forall key, String.eqb key "theme" = false ->
     getItem (storage p) key = getItem st key).
Proof.
  cbv zeta. induction clicks as [| n IH].
  - rewrite pageAfter_0. unfold usePersistentTheme, themeEffect.
    cbn [theme storage dataTheme]. unfold getItem, setItem.
    split; [| split; [reflexivity | split; [reflexivity |]]].
    + unfold orElse. destruct (st "theme"%string) as [v |]; [| reflexivity].
      destruct (String.eqb v "") eqn:E; [reflexivity | exact E].
    + intros key Hk. cbv beta. rewrite Hk. reflexivity.
  - destruct IH as (Hne & Hst & Hdt & Hk).
    rewrite pageAfter_S.
    set (p := pageAfter st attribute n) in *.
    unfold toggleTheme. cbv zeta.
    destruct (String.eqb (theme p) "dark") eqn:Ed.
    + apply String.eqb_eq in Ed. rewrite Ed.
      change (String.eqb "light" "dark") with false. cbv iota.
      unfold themeEffect.
      cbn [theme storage dataTheme]. unfold getItem, setItem. cbv beta.
      split; [reflexivity | split; [reflexivity | split; [reflexivity |]]].
      intros key Hkey. rewrite Hkey. apply Hk, Hkey.
    + rewrite (String.eqb_sym "dark" (theme p)), Ed. unfold themeEffect.
      cbn [theme storage dataTheme]. unfold getItem, setItem.
      split; [reflexivity | split; [reflexivity | split; [reflexivity |]]].
      intros key Hkey. cbv beta. rewrite Hkey. apply Hk, Hkey.
Qed.

(** ** The promises of loadData *)

Lemma orElse_nonempty (v : option string) (d : string) :
  String.eqb d "" = false -> String.eqb (orElse v d) "" = false.
Proof.
  intro Hd. unfold orElse. destruct v as [m |]; [| exact Hd].
  destruct (String.eqb m "") eqn:E; [exact Hd | exact E].
Qed.

Lemma tierCallback_run (name : string) (priceUsd : number)
  (cardRes : Settled (Response CardData)) (s : Store) :
  exists p extra,
    tierCallback name priceUsd cardRes s = Some (p, s ++ extra) /\
    (cardsFailed cardRes = true -> exists e, p = Rejected e) /\
    (cardsFailed cardRes = false ->
     exists r, p = Fulfilled (tierOf (name, priceUsd) (cardsOf cardRes) r) /\
               nth_error (s ++ extra) r = Some (cardsOf cardRes)).
Proof.
  destruct cardRes as [[o j] | e].
  2:{ exists (Rejected e), []. rewrite app_nil_r.
      split; [reflexivity |]. split; [eauto | discriminate]. }
  destruct o.
  2:{ eexists. exists []. rewrite app_nil_r.
      split; [reflexivity |]. split; [eauto | discriminate]. }
  destruct j as [data | e].
  2:{ exists (Rejected e), []. rewrite app_nil_r.
      split; [reflexivity |]. split; [eauto | discriminate]. }
  destruct data as [cs |].
  - exists (Fulfilled (tierOf (name, priceUsd) cs (List.length s))),
      ([cs] ++ [sortByFmv cs] ++ [sortByFmv cs]).
    split; [| split; [discriminate |]].
    + unfold tierCallback. cbn [ok json negb].
      unfold bind, newArray, ret.
      rewrite (loadTier_run (s ++ [cs]) (List.length s) cs name priceUsd)
        by apply nth_error_snoc.
      rewrite <- !app_assoc. reflexivity.
    + intros _. exists (List.length s). split; [reflexivity |].
      cbn [cardsOf json]. rewrite app_assoc.
      apply nth_error_grown, nth_error_snoc.
  - exists (Fulfilled (tierOf (name, priceUsd) [] (List.length s))),
      ([[]] ++ [sortByFmv []] ++ [sortByFmv []]).
    split; [| split; [discriminate |]].
    + unfold tierCallback. cbn [ok json negb].
      unfold bind, ret.
      rewrite loadTier_missing_run.
      rewrite <- !app_assoc. reflexivity.
    + intros _. exists (List.length s). split; [reflexivity |].
      cbn [cardsOf json]. rewrite app_assoc.
      apply nth_error_grown, nth_error_snoc.
Qed.

(** What [settleAll] gives: a promise per tier, rejected exactly for the
    tiers whose request failed; the store has only grown. *)
Lemma settleAll_run (entries : list (string * number))
  (cardResponse : string -> Settled (Response CardData)) (s : Store) :
  exists ps extra,
    settleAll entries cardResponse s = Some (ps, s ++ extra) /\
    Forall2
      (fun entry p =>
         (cardsFailed (cardResponse (fst entry)) = true ->
          exists e, p = Rejected e) /\
         (cardsFailed (cardResponse (fst entry)) = false ->
          exists r,
            p = Fulfilled (tierOf entry (cardsOf (cardResponse (fst entry))) r)
            /\ nth_error (s ++ extra) r
               = Some (cardsOf (cardResponse (fst entry)))))
      entries ps.
Proof.
  revert s. induction entries as [| [name price] rest IH]; intro s.
  - exists [], []. rewrite app_nil_r. split; [reflexivity | constructor].
  - destruct (tierCallback_run name price (cardResponse name) s)
      as (p & extra1 & E1 & Hf & Hs).
    destruct (IH (s ++ extra1)) as (ps & extra2 & E2 & F2).
    exists (p :: ps), (extra1 ++ extra2).
    split.
    + cbn [settleAll]. unfold bind at 1. rewrite E1.
      unfold bind at 1. rewrite E2. unfold ret. rewrite app_assoc.
      reflexivity.
    + constructor.
      * cbn [fst]. split; [exact Hf |].
        intro Hok. destruct (Hs Hok) as (r & Ep & Hr).
        exists r. split; [exact Ep |]. rewrite app_assoc.
        apply nth_error_grown, Hr.
      * rewrite app_assoc. exact F2.
Qed.

Lemma allFulfilled_rejected {A : Type} (ps : list (Settled A)) (e : string) :
  In (Rejected e) ps -> allFulfilled ps = None.
Proof.
  induction ps as [| p rest IH]; intro H; [destruct H |].
  destruct H as [-> | H]; [reflexivity |].
  cbn [allFulfilled]. destruct p; [| reflexivity].
  rewrite (IH H). reflexivity.
Qed.

(** The promise of loadData always settles. *)
Lemma loadData_settles (time : string)
  (priceResponse : Settled (Response PriceData))
  (cardResponse : string -> Settled (Response CardData))
  (app : App) (s : Store) :
  exists app' s', loadData time priceResponse cardResponse app s app' s'.
Proof.
  destruct (fetchPrices priceResponse) as [entries | e] eqn:Hp.
  - destruct (settleAll_run entries cardResponse s) as (ps & extra & E & _).
    destruct (allFulfilled ps) as [vs |] eqn:Ev.
    + eexists. eexists.
      apply (tiers_settled _ _ _ _ _ entries ps _ (Fulfilled vs));
        [exact Hp | exact E | apply all_fulfilled, Ev].
    + assert (Hr : exists e, In (Rejected e) ps).
      { clear E. induction ps as [| p rest IH]; [discriminate |].
        destruct p as [v | e]; [| exists e; left; reflexivity].
        cbn [allFulfilled] in Ev.
        destruct (allFulfilled rest) as [ws |] eqn:Er; [discriminate |].
        destruct (IH eq_refl) as [e He]. exists e. right. exact He. }
      destruct Hr as [e Hr]. eexists. eexists.
      apply (tiers_settled _ _ _ _ _ entries ps _ (Rejected e));
        [exact Hp | exact E | apply one_rejected, Hr].
  - eexists. eexists. apply (prices_failed _ _ _ _ _ e). exact Hp.
Qed.

(** ** The rounding errors of the normalizer *)

(** The sums and products of the code against the exact ones: every
    operation moves its result by a relative error of at most [eps], and
    a product that falls below the normal range by at most [eta]. *)

(** ** How far rounding moves a value *)

Lemma rne_near (x : Q) :
  inject_Z (rne x) - x <= 1 # 2 /\ x - inject_Z (rne x) <= 1 # 2.
Proof.
  unfold rne. pose proof (Qfloor_le x) as Hl. pose proof (Qlt_floor x) as Hu.
  rewrite inject_Z_plus in Hu. change (inject_Z 1) with 1 in Hu.
  destruct (Qcompare_spec (x - inject_Z (Qfloor x)) (1 # 2)) as [E | L | G].
  - destruct (Z.even (Qfloor x));
      [| rewrite inject_Z_plus; change (inject_Z 1) with 1]; split; lra.
  - split; lra.
  - rewrite inject_Z_plus. change (inject_Z 1) with 1. split; lra.
Qed.

Lemma roundedValue_near (q : Q) :
  roundedValue q - q <= (1 # 2) * pow2 (ulpExp q) /\
  q - roundedValue q <= (1 # 2) * pow2 (ulpExp q).
Proof.
  unfold roundedValue.
  pose proof (scaled_back q (ulpExp q)) as E.
  pose proof (pow2_pos (ulpExp q)) as Hp.
  destruct (rne_near (q * pow2 (- ulpExp q))) as [A B].
  set (x := q * pow2 (- ulpExp q)) in *.
  set (r := inject_Z (rne x)) in *.
  set (p := pow2 (ulpExp q)) in *.
  clearbody x r p.
  assert (H1 : (r - x) * p <= (1 # 2) * p)
    by (apply Qmult_le_compat_r; lra).
  assert (H2 : (x - r) * p <= (1 # 2) * p)
    by (apply Qmult_le_compat_r; lra).
  split; nra.
Qed.

Lemma ilog2_normal (q : Q) :
  pow2 (-1022) <= q -> (-1022 <= ilog2 q)%Z.
Proof.
  intro H. pose proof (pow2_pos (-1022)) as Hp.
  destruct (ilog2_spec q) as [_ Hu]; [lra |].
  assert (L : pow2 (-1022) < pow2 (ilog2 q + 1)) by lra.
  apply pow2_lt_inv in L. lia.
Qed.

Lemma half_ulp_normal (q : Q) :
  pow2 (-1022) <= q -> (1 # 2) * pow2 (ulpExp q) <= q * eps.
Proof.
  intro H. pose proof (pow2_pos (-1022)) as Hp.
  pose proof (ilog2_normal q H) as Hn.
  destruct (ilog2_spec q) as [Hl _]; [lra |].
  unfold ulpExp, eps. rewrite Z.max_l by lia.
  assert (E : pow2 (ilog2 q - 52) == 2 * (pow2 (ilog2 q) * pow2 (-53))).
  { rewrite <- pow2_add, <- pow2_succ.
    replace (ilog2 q + -53 + 1)%Z with (ilog2 q - 52)%Z by lia. reflexivity. }
  rewrite E. pose proof (pow2_pos (-53)) as H53.
  setoid_replace ((1 # 2) * (2 * (pow2 (ilog2 q) * pow2 (-53))))
    with (pow2 (ilog2 q) * pow2 (-53)) by ring.
  apply Qmult_le_compat_r; lra.
Qed.

Lemma half_ulp_any (q : Q) :
  0 < q -> (1 # 2) * pow2 (ulpExp q) <= q * eps + eta.
Proof.
  intro Hq. pose proof (pow2_pos (-53)) as H53. fold eps in H53.
  pose proof (pow2_pos (-1075)) as He. fold eta in He.
  destruct (Z_le_gt_dec (-1022) (ilog2 q)) as [Hn | Hs].
  - assert (H : pow2 (-1022) <= q).
    { destruct (ilog2_spec q Hq) as [Hl _].
      eapply Qle_trans; [apply (pow2_le (-1022) (ilog2 q) Hn) | exact Hl]. }
    pose proof (half_ulp_normal q H). lra.
  - unfold ulpExp. rewrite Z.max_r by lia.
    assert (E : pow2 (-1022 - 52) == 2 * eta).
    { unfold eta. rewrite <- pow2_succ. reflexivity. }
    rewrite E.
    assert (0 <= q * eps) by (apply Qmult_le_0_compat; lra).
    lra.
Qed.

Lemma roundQ_near (q : Q) :
  0 <= q ->
  q * (1 - eps) - eta <= roundQ q /\ roundQ q <= q * (1 + eps) + eta.
Proof.
  intro Hq. pose proof (pow2_pos (-1075)) as He. fold eta in He.
  unfold roundQ. destruct (Qcompare_spec q 0) as [E | L | G]; try lra.
  - rewrite E. split; lra.
  - destruct (roundedValue_near q) as [A B].
    pose proof (half_ulp_any q G). split; lra.
Qed.

Lemma roundQ_near_normal (q : Q) :
  pow2 (-1022) <= q ->
  q * (1 - eps) <= roundQ q /\ roundQ q <= q * (1 + eps).
Proof.
  intro H. pose proof (pow2_pos (-1022)) as Hp.
  unfold roundQ. destruct (Qcompare_spec q 0) as [E | L | G]; try lra.
  destruct (roundedValue_near q) as [A B].
  pose proof (half_ulp_normal q H). split; lra.
Qed.

Lemma roundQ_finite (q : Q) :
  0 <= q -> roundQ q < pow2 1024 ->
  isFinite (F q) = true /\ R (F q) == roundQ q.
Proof.
  intros Hq Hb. pose proof (pow2_pos 1024) as Hp.
  destruct (roundQ_near q Hq) as [Hl _].
  destruct (F_view q) as [[_ A] | [[_ A] | (Ff & Rf & _)]].
  - lra.
  - exfalso.
    assert (0 <= roundQ q).
    { unfold roundQ. destruct (Qcompare_spec q 0) as [E | L | G]; try lra.
      apply roundedValue_nonneg, G. }
    lra.
  - split; assumption.
Qed.

(** A value in the subnormal range that lies on the grid of the doubles is
    a double. *)
Lemma isDouble_small (n : Z) :
  (0 <= n)%Z -> inject_Z n * pow2 (-1074) < pow2 (-1022) ->
  isDouble (inject_Z n * pow2 (-1074)).
Proof.
  intros Hn Hs.
  pose proof (pow2_pos (-1074)) as Hp. pose proof (pow2_pos (-1022)) as Hq.
  assert (Hlt : (n < 2 ^ 52)%Z).
  { rewrite Zlt_Qlt. rewrite <- (pow2_Z 52) by lia.
    assert (E : pow2 (-1022) == pow2 52 * pow2 (-1074)).
    { rewrite <- pow2_add. reflexivity. }
    rewrite E in Hs.
    apply Qmult_lt_r in Hs; [exact Hs | exact Hp]. }
  exists n, (-1074)%Z. split; [reflexivity |].
  split; [lia |]. split; [lia |].
  assert (0 <= inject_Z n * pow2 (-1074)).
  { apply Qmult_le_0_compat; [| lra].
    change 0 with (inject_Z 0). rewrite <- Zle_Qle. exact Hn. }
  rewrite Qabs_pos by assumption.
  eapply Qlt_trans; [exact Hs |]. apply pow2_lt. lia.
Qed.

(** The sum of two non-negative doubles is rounded with a relative error
    of at most [eps]: below the normal range it is a double itself. *)
Lemma sum_near (a b : Q) :
  isDouble a -> isDouble b -> 0 <= a -> 0 <= b ->
  (a + b) * (1 + eps) < pow2 1024 ->
  isFinite (F (a + b)) = true /\
  (a + b) * (1 - eps) <= R (F (a + b)) /\ R (F (a + b)) <= (a + b) * (1 + eps).
Proof.
  intros Da Db Ha Hb Hbound.
  pose proof (pow2_pos (-53)) as H53. fold eps in H53.
  assert (Hu1 : eps <= 1).
  { unfold eps. change 1 with (pow2 0). apply pow2_le. lia. }
  assert (Hab : 0 <= (a + b) * eps) by (apply Qmult_le_0_compat; lra).
  destruct (Qlt_le_dec (a + b) (pow2 (-1022))) as [Hs | Hn].
  - destruct (isDouble_grid a Da) as [na Ea].
    destruct (isDouble_grid b Db) as [nb Eb].
    pose proof (pow2_pos (-1074)) as Hp.
    assert (E : a + b == inject_Z (na + nb) * pow2 (-1074)).
    { rewrite inject_Z_plus, Ea, Eb. ring. }
    assert (Hn : (0 <= na + nb)%Z).
    { rewrite Zle_Qle. change (inject_Z 0) with 0.
      assert (0 <= inject_Z (na + nb) * pow2 (-1074)) by lra.
      apply (Qmult_le_r _ _ (pow2 (-1074))); [exact Hp | lra]. }
    assert (D : isDouble (a + b)).
    { apply isDouble_wd with (inject_Z (na + nb) * pow2 (-1074)).
      - symmetry. exact E.
      - apply isDouble_small; [exact Hn | lra]. }
    destruct (F_exact (a + b) D) as [Ff Rf].
    split; [exact Ff |]. rewrite Rf. split; lra.
  - destruct (roundQ_near_normal (a + b) Hn) as [Hl Hu].
    destruct (roundQ_finite (a + b)) as [Ff Rf]; [lra | lra |].
    split; [exact Ff |]. rewrite Rf. split; assumption.
Qed.

Lemma eps_pos : 0 < eps.
Proof. apply pow2_pos. Qed.

Lemma eps_small : eps <= 1 # 1000000.
Proof.
  unfold eps. apply Qle_trans with (pow2 (-20)); [apply pow2_le; lia |].
  vm_compute. discriminate.
Qed.

Lemma eta_pos : 0 < eta.
Proof. apply pow2_pos. Qed.

Lemma eta_small : eta <= eps * (1 # 1000000).
Proof.
  unfold eta, eps. apply Qle_trans with (pow2 (-53) * pow2 (-20)).
  - rewrite <- pow2_add. apply pow2_le. lia.
  - apply Qmult_le_l; [apply pow2_pos |]. vm_compute. discriminate.
Qed.

Lemma pow2_1000 : 8 * pow2 1000 <= pow2 1024.
Proof.
  apply Qle_trans with (pow2 1003); [| apply pow2_le; lia].
  assert (E : pow2 1003 == pow2 3 * pow2 1000)
    by (rewrite <- pow2_add; reflexivity).
  rewrite E. apply Qmult_le_compat_r; [| apply pow2_nonneg].
  vm_compute. discriminate.
Qed.

Lemma cardCount_cons (c : Card) (rest : list Card) :
  cardCount (c :: rest) == cardCount rest + 1.
Proof.
  unfold cardCount. cbn [List.length]. rewrite Nat2Z.inj_succ.
  unfold Z.succ. rewrite inject_Z_plus. reflexivity.
Qed.

Lemma cardCount_nonneg (cards : list Card) : 0 <= cardCount cards.
Proof.
  unfold cardCount. change 0 with (inject_Z 0). rewrite <- Zle_Qle. lia.
Qed.

Lemma representable_R (x : number) :
  isFinite x = true -> representable x -> isDouble (R x).
Proof.
  destruct x; simpl; intros A B; try discriminate; [exact isDouble_0 | exact B].
Qed.

Lemma nonneg_R (x : number) : nonneg x -> isFinite x = true -> 0 <= R x.
Proof.
  intros H Hf. destruct (nonneg_cases x H) as [-> | [_ A]];
    [discriminate | exact A].
Qed.

Lemma exactSum_nonneg (f : Card -> number) (cards : list Card) :
  (forall c, In c cards -> nonneg (f c) /\ isFinite (f c) = true) ->
  0 <= exactSum f cards.
Proof.
  induction cards as [| c rest IH]; intro H; [apply Qle_refl |].
  cbn [exactSum fold_right]. fold (exactSum f rest).
  destruct (H c (or_introl eq_refl)) as [Hn Hf].
  pose proof (nonneg_R _ Hn Hf).
  assert (0 <= exactSum f rest)
    by (apply IH; intros c' Hin; apply H; right; exact Hin).
  lra.
Qed.

(** One addition of two non-negative Numbers: the relative error is at
    most [eps]. *)
Lemma add_near (x y : number) :
  nonneg x -> nonneg y -> isFinite x = true -> isFinite y = true ->
  representable x -> representable y ->
  (R x + R y) * (1 + eps) < pow2 1024 ->
  isFinite (add x y) = true /\ nonneg (add x y) /\
  (R x + R y) * (1 - eps) <= R (add x y) /\
  R (add x y) <= (R x + R y) * (1 + eps).
Proof.
  intros Nx Ny Fx Fy Rx Ry Hb.
  pose proof (nonneg_R x Nx Fx) as Px. pose proof (nonneg_R y Ny Fy) as Py.
  split; [| split; [apply add_nonneg; assumption |]].
  - destruct (add_finite x y Fx Fy) as [-> | [-> _]]; [| reflexivity].
    apply (sum_near (R x) (R y)); try assumption;
      apply representable_R; assumption.
  - destruct (add_finite x y Fx Fy) as [-> | [-> E]].
    + apply (sum_near (R x) (R y)); try assumption;
        apply representable_R; assumption.
    + simpl. rewrite E. split; lra.
Qed.

Lemma step_lower (a w k r e : Q) :
  0 <= a -> 0 <= w -> 0 <= k -> 0 <= e -> e <= 1 ->
  a * (1 - k * e) <= r ->
  (a + w) * (1 - (k + 1) * e) <= (r + w) * (1 - e).
Proof.
  intros Ha Hw Hk He He1 H.
  assert (H1 : 0 <= a * k * (e * e))
    by (repeat apply Qmult_le_0_compat; assumption).
  assert (H2 : 0 <= w * k * e)
    by (repeat apply Qmult_le_0_compat; assumption).
  assert (H3 : a * (1 - k * e) * (1 - e) <= r * (1 - e))
    by (apply Qmult_le_compat_r; lra).
  nra.
Qed.

Lemma step_upper (a w k r e : Q) :
  0 <= a -> 0 <= w -> 0 <= k -> 0 <= e -> 2 * k * e <= 1 ->
  r <= a * (1 + 2 * k * e) ->
  (r + w) * (1 + e) <= (a + w) * (1 + 2 * (k + 1) * e).
Proof.
  intros Ha Hw Hk He Hke H.
  assert (H1 : 0 <= a * e * (1 - 2 * k * e))
    by (repeat apply Qmult_le_0_compat; lra).
  assert (H2 : 0 <= w * k * e)
    by (repeat apply Qmult_le_0_compat; assumption).
  assert (H4 : 0 <= w * e) by (apply Qmult_le_0_compat; assumption).
  assert (H3 : r * (1 + e) <= a * (1 + 2 * k * e) * (1 + e))
    by (apply Qmult_le_compat_r; lra).
  nra.
Qed.

(** The sum of the code against the exact sum: [k] additions have been
    made to reach [acc] from the exact value [a]. *)
Lemma fold_near (f : Card -> number) (cards : list Card) (acc : number)
  (a k : Q) :
  (forall c, In c cards ->
     nonneg (f c) /\ isFinite (f c) = true /\ representable (f c)) ->
  nonneg acc -> isFinite acc = true -> representable acc ->
  0 <= a -> 0 <= k ->
  (k + cardCount cards) * eps <= 1 # 4 ->
  a + exactSum f cards <= pow2 1000 ->
  a * (1 - k * eps) <= R acc -> R acc <= a * (1 + 2 * k * eps) ->
  let r := fold_left (fun sum c => add sum (f c)) cards acc in
  let n := k + cardCount cards in
  isFinite r = true /\ nonneg r /\
  (a + exactSum f cards) * (1 - n * eps) <= R r /\
  R r <= (a + exactSum f cards) * (1 + 2 * n * eps).
Proof.
  pose proof eps_pos as Hu. pose proof eps_small as Hus.
  revert acc a k.
  induction cards as [| c rest IH];
    intros acc a k Hf Na Fa Ra Ha Hk Hn He Hl Hh r n.
  - unfold r, n. cbn [fold_left exactSum fold_right].
    assert (E : cardCount [] == 0) by reflexivity.
    split; [exact Fa |]. split; [exact Na |].
    rewrite E. split.
    + setoid_replace ((a + 0) * (1 - (k + 0) * eps)) with (a * (1 - k * eps))
        by ring.
      exact Hl.
    + setoid_replace ((a + 0) * (1 + 2 * (k + 0) * eps))
        with (a * (1 + 2 * k * eps)) by ring.
      exact Hh.
  - destruct (Hf c (or_introl eq_refl)) as (Nw & Fw & Rw).
    assert (Hrest : forall c', In c' rest ->
              nonneg (f c') /\ isFinite (f c') = true /\ representable (f c'))
      by (intros c' Hin; apply Hf; right; exact Hin).
    pose proof (nonneg_R _ Nw Fw) as Pw.
    pose proof (nonneg_R _ Na Fa) as Pa.
    assert (Prest : 0 <= exactSum f rest).
    { apply exactSum_nonneg. intros c' Hin.
      destruct (Hrest c' Hin) as (A & B & _). split; assumption. }
    pose proof (cardCount_nonneg rest) as Cn.
    pose proof (cardCount_cons c rest) as Cc.
    cbn [exactSum fold_right] in He. fold (exactSum f rest) in He.
    rewrite Cc in Hn.
    assert (Hcu : 0 <= cardCount rest * eps) by (apply Qmult_le_0_compat; lra).
    assert (Hku : 2 * k * eps <= 1) by nra.
    assert (Hacc : R acc <= 2 * a).
    { assert (0 <= a * (1 - 2 * k * eps)) by (apply Qmult_le_0_compat; lra).
      nra. }
    pose proof pow2_1000 as Hp.
    destruct (add_near acc (f c) Na Nw Fa Fw Ra Rw) as (Fs & Ns & Ls & Us).
    { assert ((R acc + R (f c)) * (1 + eps) <= (2 * pow2 1000) * 2).
      { apply Qmult_le_compat_nonneg; repeat split; lra. }
      pose proof (pow2_pos 1000). lra. }
    destruct (IH (add acc (f c)) (a + R (f c)) (k + 1))
      as (Fr & Nr & Lr & Ur); try assumption.
    + apply add_representable.
    + lra.
    + lra.
    + setoid_replace (k + 1 + cardCount rest) with (k + (cardCount rest + 1)) by ring.
      exact Hn.
    + setoid_replace (a + R (f c) + exactSum f rest)
        with (a + (R (f c) + exactSum f rest)) by ring.
      exact He.
    + eapply Qle_trans; [| exact Ls].
      apply step_lower; try assumption; lra.
    + eapply Qle_trans; [exact Us |].
      apply step_upper; try assumption; lra.
    + unfold r, n. cbn [fold_left exactSum fold_right].
      fold (exactSum f rest).
      split; [exact Fr |]. split; [exact Nr |].
      rewrite Cc.
      setoid_replace (a + (R (f c) + exactSum f rest))
        with (a + R (f c) + exactSum f rest) by ring.
      setoid_replace (k + (cardCount rest + 1)) with (k + 1 + cardCount rest) by ring.
      split; assumption.
Qed.

Lemma pow2_1024_big : 16 <= pow2 1024.
Proof.
  apply Qle_trans with (pow2 4); [vm_compute; discriminate |].
  apply pow2_le. lia.
Qed.

(** One product of two non-negative Numbers. *)
Lemma mul_near (p s : number) :
  nonneg p -> nonneg s -> isFinite p = true -> isFinite s = true ->
  R p * R s <= 4 ->
  isFinite (mul p s) = true /\ nonneg (mul p s) /\
  R p * R s * (1 - eps) - eta <= R (mul p s) /\
  R (mul p s) <= R p * R s * (1 + eps) + eta.
Proof.
  intros Np Ns Fp Fs Hb.
  pose proof eps_pos as Hu. pose proof eps_small as Hus.
  pose proof eta_pos as He. pose proof eta_small as Hes.
  pose proof (nonneg_R p Np Fp) as Pp. pose proof (nonneg_R s Ns Fs) as Ps.
  assert (Hq : 0 <= R p * R s) by (apply Qmult_le_0_compat; assumption).
  split; [| split; [apply mul_nonneg; assumption |]].
  - destruct (mul_finite p s Fp Fs) as [[-> _] | [Z _]];
      [| apply isZero_finite, Z].
    destruct (roundQ_near (R p * R s) Hq) as [_ Hh].
    apply roundQ_finite; [exact Hq |].
    pose proof pow2_1024_big. nra.
  - destruct (mul_finite p s Fp Fs) as [[-> _] | [Z E]].
    + destruct (roundQ_near (R p * R s) Hq) as [Hl Hh].
      destruct (roundQ_finite (R p * R s) Hq) as [_ Rf].
      { pose proof pow2_1024_big. nra. }
      rewrite Rf. split; assumption.
    + rewrite (isZero_R _ Z), E. split; lra.
Qed.

Lemma exactSum_ge_term (f : Card -> number) (cards : list Card) (c : Card) :
  (forall c, In c cards -> nonneg (f c) /\ isFinite (f c) = true) ->
  In c cards -> R (f c) <= exactSum f cards.
Proof.
  induction cards as [| c' rest IH]; intros H Hin; [destruct Hin |].
  cbn [exactSum fold_right]. fold (exactSum f rest).
  assert (Hr : forall x, In x rest -> nonneg (f x) /\ isFinite (f x) = true)
    by (intros x Hx; apply H; right; exact Hx).
  pose proof (exactSum_nonneg f rest Hr).
  destruct (H c' (or_introl eq_refl)) as [Nc Fc].
  pose proof (nonneg_R _ Nc Fc).
  destruct Hin as [-> | Hin]; [lra |].
  pose proof (IH Hr Hin). lra.
Qed.

(** The exact sum of the scaled probabilities the code computes, against
    the exact sum of the probabilities times the scale. *)
Lemma products_near (cards : list Card) (s : number) :
  (forall c, In c cards ->
     nonneg (probability c) /\ isFinite (probability c) = true) ->
  nonneg s -> isFinite s = true ->
  (forall c, In c cards -> R (probability c) * R s <= 4) ->
  let W := exactSum (fun c => mul (probability c) s) cards in
  let P := exactSum probability cards in
  P * R s * (1 - eps) - cardCount cards * eta <= W /\
  W <= P * R s * (1 + eps) + cardCount cards * eta.
Proof.
  intros Hp Ns Fs Hb. cbv zeta.
  induction cards as [| c rest IH].
  - cbn [exactSum fold_right]. assert (E : cardCount [] == 0) by reflexivity.
    rewrite E. split; lra.
  - cbn [exactSum fold_right].
    fold (exactSum (fun c => mul (probability c) s) rest).
    fold (exactSum probability rest).
    rewrite cardCount_cons.
    destruct (Hp c (or_introl eq_refl)) as [Nc Fc].
    destruct (mul_near (probability c) s Nc Ns Fc Fs
                (Hb c (or_introl eq_refl))) as (_ & _ & Ml & Mh).
    destruct IH as [Il Ih].
    + intros x Hx. apply Hp. right. exact Hx.
    + intros x Hx. apply Hb. right. exact Hx.
    + split; nra.
Qed.

Lemma scaledMass_near (cards : list Card) (s : number) :
  (forall c, In c cards ->
     nonneg (probability c) /\ isFinite (probability c) = true) ->
  nonneg s -> isFinite s = true ->
  cardCount cards * eps <= 1 # 4 ->
  exactSum probability cards * R s <= 2 ->
  let P := exactSum probability cards in
  let n := cardCount cards in
  let mass := scaledMass cards s in
  isFinite mass = true /\
  (P * R s * (1 - eps) - n * eta) * (1 - n * eps) <= R mass /\
  R mass <= (P * R s * (1 + eps) + n * eta) * (1 + 2 * n * eps).
Proof.
  intros Hp Ns Fs Hn Hx P n mass.
  pose proof eps_pos as Hu. pose proof eps_small as Hus.
  pose proof eta_pos as He. pose proof eta_small as Hes.
  pose proof (nonneg_R s Ns Fs) as Ps.
  pose proof (cardCount_nonneg cards) as Cn. fold n in Cn, Hn. fold P in Hx.
  assert (Hb : forall c, In c cards -> R (probability c) * R s <= 4).
  { intros c Hin.
    pose proof (exactSum_ge_term probability cards c Hp Hin) as Hc.
    fold P in Hc.
    assert (R (probability c) * R s <= P * R s)
      by (apply Qmult_le_compat_r; assumption).
    lra. }
  destruct (products_near cards s Hp Ns Fs Hb) as [Wl Wh].
  fold P in Wl, Wh. fold n in Wl, Wh.
  set (W := exactSum (fun c => mul (probability c) s) cards) in *.
  assert (Hne : n * eta <= 1).
  { assert (0 <= n * (eps * (1 # 1000000) - eta))
      by (apply Qmult_le_0_compat; lra).
    lra. }
  assert (HW : W <= 5).
  { assert (P * R s * eps <= 2 * eps) by (apply Qmult_le_compat_r; lra).
    lra. }
  destruct (fold_near (fun c => mul (probability c) s) cards n0 0 0)
    as (Fm & _ & Ml & Mh).
  - intros c Hin. destruct (Hp c Hin) as [Nc Fc].
    destruct (mul_near (probability c) s Nc Ns Fc Fs (Hb c Hin))
      as (A & B & _).
    split; [exact B | split; [exact A | apply mul_representable]].
  - reflexivity.
  - reflexivity.
  - exact isDouble_0.
  - lra.
  - lra.
  - fold n. lra.
  - fold W. apply Qle_trans with 5; [lra |].
    apply Qle_trans with (pow2 3); [vm_compute; discriminate |].
    apply pow2_le. lia.
  - simpl. lra.
  - simpl. lra.
  - fold W in Ml, Mh. fold n in Ml, Mh.
    change (fold_left (fun sum c => add sum (mul (probability c) s)) cards n0)
      with mass in Fm, Ml, Mh.
    split; [exact Fm |].
    assert (Hnu : 0 <= n * eps) by (apply Qmult_le_0_compat; lra).
    split.
    + eapply Qle_trans; [| exact Ml].
      setoid_replace (0 + n) with n by ring.
      setoid_replace (0 + W) with W by ring.
      apply Qmult_le_compat_r; lra.
    + eapply Qle_trans; [exact Mh |].
      setoid_replace (0 + n) with n by ring.
      setoid_replace (0 + W) with W by ring.
      apply Qmult_le_compat_r; lra.
Qed.

Lemma rawSum_near (cards : list Card) :
  (forall c, In c cards ->
     nonneg (probability c) /\ isFinite (probability c) = true /\
     representable (probability c)) ->
  cardCount cards * eps <= 1 # 4 ->
  exactSum probability cards <= pow2 1000 ->
  let P := exactSum probability cards in
  let n := cardCount cards in
  isFinite (rawSum cards) = true /\ nonneg (rawSum cards) /\
  P * (1 - n * eps) <= R (rawSum cards) /\
  R (rawSum cards) <= P * (1 + 2 * n * eps).
Proof.
  intros Hp Hn HP P n.
  destruct (fold_near probability cards n0 0 0 Hp)
    as (Fm & Nm & Ml & Mh); try reflexivity.
  - exact isDouble_0.
  - lra.
  - lra.
  - lra.
  - lra.
  - simpl. lra.
  - simpl. lra.
  - fold P in Ml, Mh. fold n in Ml, Mh.
    change (fold_left (fun sum c => add sum (probability c)) cards n0)
      with (rawSum cards) in Fm, Nm, Ml, Mh.
    split; [exact Fm |]. split; [exact Nm |].
    setoid_replace (0 + n) with n in Ml by ring.
    setoid_replace (0 + P) with P in Ml by ring.
    setoid_replace (0 + n) with n in Mh by ring.
    setoid_replace (0 + P) with P in Mh by ring.
    split; assumption.
Qed.

Lemma pow2_33 : pow2 (-33) == 1 # 8589934592.
Proof. vm_compute. reflexivity. Qed.

(** Products of bounded rationals, for the steps that are not linear. *)
Lemma mul_le_mul (a b c d : Q) :
  0 <= a -> a <= b -> 0 <= c -> c <= d -> a * c <= b * d.
Proof. intros. apply Qmult_le_compat_nonneg; split; assumption. Qed.

(** The mass the code computes with a scale, from what the scale times
    the raw sum is. *)
Lemma exactSum_perm (f : Card -> number) (l l' : list Card) :
  Permutation l l' -> exactSum f l == exactSum f l'.
Proof.
  induction 1 as [| c l l' _ IH | a b l | l l' l'' _ IH1 _ IH2].
  - reflexivity.
  - cbn [exactSum fold_right]. fold (exactSum f l). fold (exactSum f l').
    rewrite IH. reflexivity.
  - cbn [exactSum fold_right]. ring.
  - rewrite IH1. exact IH2.
Qed.

Lemma cardCount_perm (l l' : list Card) :
  Permutation l l' -> cardCount l = cardCount l'.
Proof. intro P. unfold cardCount. rewrite (Permutation_length P). reflexivity. Qed.

Lemma mass_of_scale (cards order : list Card) (s : number) (L H : Q) :
  Permutation order cards ->
  (forall c, In c cards ->
     nonneg (probability c) /\ isFinite (probability c) = true /\
     representable (probability c)) ->
  cardCount cards * eps <= pow2 (-33) ->
  1 <= cardCount cards ->
  exactSum probability cards <= pow2 1000 ->
  nonneg s -> isFinite s = true ->
  1 # 2 <= L -> H <= 3 # 2 ->
  L <= R s * R (rawSum cards) -> R s * R (rawSum cards) <= H ->
  let t := cardCount cards * eps in
  let mass := scaledMass order s in
  let W := exactSum (fun c => mul (probability c) s) cards in
  isFinite mass = true /\
  L * (1 - 2 * t) - 5 * t <= R mass /\ R mass <= H * (1 + 2 * t) + 7 * t /\
  (forall c, In c cards ->
     nonneg (mul (probability c) s) /\
     isFinite (mul (probability c) s) = true) /\
  L * (1 - 2 * t) - 5 * t <= W /\ W <= H * (1 + 2 * t) + 7 * t.
Proof.
  intros Perm Hp Ht Hn1 HP Ns Fs HL HH Hlo Hhi t mass W.
  pose proof eps_pos as Hu. pose proof eta_pos as He.
  pose proof eta_small as Hes. pose proof pow2_33 as HT.
  fold t in Ht.
  assert (Hut : eps <= t).
  { unfold t. assert (0 <= (cardCount cards - 1) * eps)
      by (apply Qmult_le_0_compat; lra). lra. }
  assert (Ht4 : cardCount cards * eps <= 1 # 4) by (fold t; lra).
  destruct (rawSum_near cards Hp Ht4 HP) as (FS & NS & Sl & Sh).
  cbv zeta in Sl, Sh. fold t in Sl.
  setoid_replace (2 * cardCount cards * eps) with (2 * t) in Sh
    by (unfold t; ring).
  set (P := exactSum probability cards) in *.
  set (S := R (rawSum cards)) in *.
  pose proof (nonneg_R s Ns Fs) as Psig. set (sg := R s) in *.
  assert (HP0 : 0 <= P).
  { apply exactSum_nonneg. intros c Hc.
    destruct (Hp c Hc) as (A & B & _). split; assumption. }
  assert (Hne : cardCount cards * eta <= t * (1 # 1000000)).
  { unfold t.
    assert (0 <= cardCount cards * (eps * (1 # 1000000) - eta))
      by (apply Qmult_le_0_compat; lra).
    lra. }
  set (ne := cardCount cards * eta) in *.
  assert (Hne0 : 0 <= ne)
    by (apply Qmult_le_0_compat; [apply cardCount_nonneg | lra]).
  set (x := P * sg).
  assert (Hx0 : 0 <= x) by (apply Qmult_le_0_compat; assumption).
  assert (Ht0 : 0 <= t) by lra.
  assert (Htt : t * t <= t * (1 # 8589934592))
    by (apply mul_le_mul; lra).
  assert (Htt0 : 0 <= t * t) by (apply Qmult_le_0_compat; lra).
  (* x against L and H *)
  assert (Hx1 : x * (1 - t) <= H).
  { assert (P * (1 - t) * sg <= S * sg)
      by (apply Qmult_le_compat_r; assumption).
    unfold x. lra. }
  assert (Hx2 : L <= x * (1 + 2 * t)).
  { assert (S * sg <= P * (1 + 2 * t) * sg)
      by (apply Qmult_le_compat_r; assumption).
    unfold x. lra. }
  assert (HLH : L <= H) by lra.
  clear Sl Sh Hlo Hhi.
  assert (HHt : 0 <= H * t) by (apply Qmult_le_0_compat; lra).
  assert (HHt1 : H * t <= (3 # 2) * t) by (apply Qmult_le_compat_r; lra).
  assert (HHtt : H * (t * t) <= (3 # 2) * (t * t))
    by (apply Qmult_le_compat_r; lra).
  assert (HHtt0 : 0 <= H * (t * t)) by (apply Qmult_le_0_compat; lra).
  assert (HLt0 : 0 <= L * t) by (apply Qmult_le_0_compat; lra).
  assert (HLtt0 : 0 <= L * (t * t)) by (apply Qmult_le_0_compat; lra).
  assert (HLtt : L * (t * t) <= (3 # 2) * (t * t))
    by (apply Qmult_le_compat_r; lra).
  assert (HxH : x <= H * (1 + 2 * t)).
  { apply (Qmult_le_r _ _ (1 - t)); [lra |].
    assert (0 <= H * t * (1 - 2 * t))
      by (apply Qmult_le_0_compat; lra).
    lra. }
  assert (HxL : L * (1 - 2 * t) <= x).
  { apply (Qmult_le_r _ _ (1 + 2 * t)); [lra |]. lra. }
  assert (Hxt : x * t <= 2 * t).
  { assert (x * t <= H * (1 + 2 * t) * t)
      by (apply Qmult_le_compat_r; lra).
    lra. }
  assert (Hxt0 : 0 <= x * t) by (apply Qmult_le_0_compat; lra).
  assert (Hx2' : x <= 2) by lra.
  assert (Hxu : x * eps <= x * t) by (apply mul_le_mul; lra).
  assert (Hxu0 : 0 <= x * eps) by (apply Qmult_le_0_compat; lra).
  assert (Hxut : x * eps * t <= 2 * t * (1 # 8589934592)).
  { assert (x * eps * t <= 2 * t * t)
      by (apply mul_le_mul; lra).
    lra. }
  assert (Hxut0 : 0 <= x * eps * t)
    by (repeat apply Qmult_le_0_compat; lra).
  assert (Hnet : ne * t <= t * (1 # 1000000))
    by (rewrite (Qmult_comm ne); apply mul_le_mul; lra).
  assert (Hnet0 : 0 <= ne * t) by (apply Qmult_le_0_compat; lra).
  destruct (scaledMass_near order s) as (Fm & Ml & Mh); try assumption.
  { intros c Hc.
    destruct (Hp c (Permutation_in c Perm Hc)) as (A & B & _).
    split; assumption. }
  { rewrite (cardCount_perm _ _ Perm). exact Ht4. }
  { rewrite (exactSum_perm probability _ _ Perm). exact Hx2'. }
  cbv zeta in Ml, Mh.
  rewrite (cardCount_perm _ _ Perm) in Ml, Mh.
  rewrite (exactSum_perm probability _ _ Perm) in Ml, Mh.
  fold P in Ml, Mh. fold sg in Ml, Mh. fold x in Ml, Mh.
  fold ne in Ml, Mh. fold t in Ml, Mh. fold mass in Fm, Ml, Mh.
  setoid_replace (2 * cardCount cards * eps) with (2 * t) in Mh
    by (unfold t; ring).
  assert (Hpf : forall c, In c cards ->
            nonneg (probability c) /\ isFinite (probability c) = true).
  { intros c Hc. destruct (Hp c Hc) as (A & B & _). split; assumption. }
  assert (Hb : forall c, In c cards -> R (probability c) * sg <= 4).
  { intros c Hin.
    pose proof (exactSum_ge_term probability cards c Hpf Hin) as Hc.
    fold P in Hc.
    assert (Hcx : R (probability c) * sg <= P * sg)
      by (apply Qmult_le_compat_r; assumption).
    fold x in Hcx. lra. }
  destruct (products_near cards s Hpf Ns Fs Hb) as [Wl Wh].
  fold W in Wl, Wh. fold P in Wl, Wh. fold sg in Wl, Wh. fold x in Wl, Wh.
  fold ne in Wl, Wh.
  split; [exact Fm |].
  split; [eapply Qle_trans; [| exact Ml]; lra |].
  split; [eapply Qle_trans; [exact Mh |]; lra |].
  split.
  - intros c Hc. destruct (Hpf c Hc) as [Nc Fc].
    destruct (mul_near (probability c) s Nc Ns Fc Fs (Hb c Hc))
      as (A & B & _).
    split; assumption.
  - split; lra.
Qed.

Lemma n1e_6_eq : n1e_6 = Fin (4722366482869645 # 4722366482869645213696).
Proof. vm_compute. reflexivity. Qed.

Lemma n1e_2_eq : n1e_2 = Fin (5764607523034235 # 576460752303423488).
Proof. vm_compute. reflexivity. Qed.

(** What the test [Math.abs(x) < d] tells about the value that was
    rounded to [x]. *)
Lemma abs_test (q d : Q) :
  isDouble d -> 0 < d -> ltb (abs (F q)) (Fin d) = true ->
  - d < q /\ q < d.
Proof.
  intros D Hd Ht. destruct (F_exact d D) as [Fd Rd].
  destruct (F_exact (- d) (isDouble_opp d D)) as [Fn Rn].
  split.
  - destruct (Qlt_le_dec (- d) q) as [H | H]; [exact H | exfalso].
    pose proof (F_mono q (- d) H) as M.
    destruct (F q) as [| | | | x] eqn:E; try discriminate.
    + apply (le_finite NegZero (F (- d)) eq_refl Fn) in M.
      simpl in M. rewrite Rn in M. lra.
    + apply (le_finite (Fin x) (F (- d)) eq_refl Fn) in M.
      simpl in M, Ht. rewrite Rn in M.
      assert (Hle : Qle_bool d (Qabs x) = true).
      { apply Qle_bool_iff. rewrite Qabs_neg by lra. lra. }
      rewrite Hle in Ht. simpl in Ht. congruence.
  - destruct (Qlt_le_dec q d) as [H | H]; [exact H | exfalso].
    pose proof (F_mono d q H) as M.
    destruct (F q) as [| | | | x] eqn:E; try discriminate.
    + apply (le_finite (F d) NegZero Fd eq_refl) in M.
      simpl in M. rewrite Rd in M. lra.
    + apply (le_finite (F d) (Fin x) Fd eq_refl) in M.
      simpl in M, Ht. rewrite Rd in M.
      assert (Hle : Qle_bool d (Qabs x) = true).
      { apply Qle_bool_iff. rewrite Qabs_pos by lra. lra. }
      rewrite Hle in Ht. simpl in Ht. congruence.
Qed.

Lemma sub_finite_lit (x : number) (c : Q) :
  isFinite x = true -> ~ c == 0 -> sub x (Fin c) = F (R x - c).
Proof.
  intros Fx Hc. unfold sub, neg.
  assert (Z : Qeq_bool c 0 = false).
  { destruct (Qeq_bool c 0) eqn:E; [| reflexivity].
    apply Qeq_bool_iff in E. contradiction. }
  rewrite Z. destruct x; try discriminate; simpl; apply F_wd; ring.
Qed.

(** The test of a branch of the normalizer: the raw sum is within [d] of
    [c]. *)
Lemma near_test (x : number) (c d : Q) :
  isFinite x = true -> ~ c == 0 -> isDouble d -> 0 < d ->
  ltb (abs (sub x (Fin c))) (Fin d) = true ->
  c - d < R x /\ R x < c + d.
Proof.
  intros Fx Hc D Hd Ht. rewrite (sub_finite_lit x c Fx Hc) in Ht.
  destruct (abs_test _ _ D Hd Ht). split; lra.
Qed.

(** 1 / S for a raw sum that is neither tiny nor huge. *)
Lemma recip_near (x : number) :
  isFinite x = true -> pow2 (-1001) <= R x -> R x <= pow2 1001 ->
  isFinite (div n1 x) = true /\ nonneg (div n1 x) /\
  1 - eps <= R (div n1 x) * R x /\ R (div n1 x) * R x <= 1 + eps.
Proof.
  intros Fx Hl Hh.
  pose proof (pow2_pos (-1001)) as Hp. pose proof (pow2_pos 1001) as Hq.
  pose proof eps_pos as Hu. pose proof eps_small as Hus.
  assert (Hc : pow2 (-1001) * pow2 1001 == 1)
    by (rewrite <- pow2_add; reflexivity).
  assert (E : div n1 x = F (1 / R x)).
  { rewrite n1_eq. destruct x as [| | | | q]; try discriminate.
    - cbn [R] in Hl. lra.
    - cbn [R] in *. cbn [div isZero]. destruct (Qeq_bool q 0) eqn:Z.
      + apply Qeq_bool_iff in Z. lra.
      + change (Qeq_bool 1 0) with false. reflexivity. }
  set (S := R x) in *.
  assert (HS : 0 < S) by lra.
  assert (Hr1 : pow2 (-1001) <= 1 / S).
  { apply Qle_shift_div_l; [exact HS |].
    assert (pow2 (-1001) * S <= pow2 (-1001) * pow2 1001)
      by (apply mul_le_mul; lra).
    lra. }
  assert (Hr2 : 1 / S <= pow2 1001).
  { apply Qle_shift_div_r; [exact HS |].
    assert (pow2 1001 * pow2 (-1001) <= pow2 1001 * S)
      by (apply mul_le_mul; lra).
    lra. }
  assert (Hn : pow2 (-1022) <= 1 / S).
  { eapply Qle_trans; [| exact Hr1]. apply pow2_le. lia. }
  destruct (roundQ_near_normal (1 / S) Hn) as [Rl Rh].
  assert (Hbig : 4 * pow2 1001 <= pow2 1024).
  { apply Qle_trans with (pow2 1003); [| apply pow2_le; lia].
    assert (E3 : pow2 1003 == pow2 2 * pow2 1001)
      by (rewrite <- pow2_add; reflexivity).
    rewrite E3. apply Qmult_le_compat_r; [vm_compute; discriminate | lra]. }
  destruct (roundQ_finite (1 / S)) as [Ff Rf].
  { lra. }
  { assert ((1 / S) * (1 + eps) <= pow2 1001 * 2) by (apply mul_le_mul; lra).
    lra. }
  rewrite E. split; [exact Ff |].
  split; [apply F_nonneg; lra |].
  rewrite Rf.
  assert (Einv : 1 / S * S == 1) by (field; lra).
  split.
  - assert (1 / S * (1 - eps) * S <= roundQ (1 / S) * S)
      by (apply Qmult_le_compat_r; lra).
    assert (1 / S * (1 - eps) * S == 1 - eps).
    { setoid_replace (1 / S * (1 - eps) * S) with (1 / S * S * (1 - eps)) by ring.
      rewrite Einv. ring. }
    lra.
  - assert (roundQ (1 / S) * S <= 1 / S * (1 + eps) * S)
      by (apply Qmult_le_compat_r; lra).
    assert (1 / S * (1 + eps) * S == 1 + eps).
    { setoid_replace (1 / S * (1 + eps) * S) with (1 / S * S * (1 + eps)) by ring.
      rewrite Einv. ring. }
    lra.
Qed.

Lemma pow2_13 : pow2 (-13) == 1 # 8192.
Proof. vm_compute. reflexivity. Qed.

Lemma eps_16 : 16 * eps == pow2 (-49).
Proof. unfold eps. vm_compute. reflexivity. Qed.

Lemma cardCount_bound (cards : list Card) :
  (Z.of_nat (List.length cards) <= 2 ^ 20)%Z ->
  cardCount cards * eps <= pow2 (-33).
Proof.
  intro H. pose proof eps_pos as Hu.
  assert (Hc : cardCount cards <= pow2 20).
  { unfold cardCount. rewrite (pow2_Z 20) by lia. rewrite <- Zle_Qle.
    exact H. }
  assert (E : pow2 (-33) == pow2 20 * eps)
    by (unfold eps; rewrite <- pow2_add; reflexivity).
  rewrite E. apply Qmult_le_compat_r; lra.
Qed.

Lemma cardCount_positive (cards : list Card) :
  0 < exactSum probability cards -> 1 <= cardCount cards.
Proof.
  destruct cards as [| c rest]; intro H.
  - cbn in H. lra.
  - rewrite cardCount_cons. pose proof (cardCount_nonneg rest). lra.
Qed.

Lemma n1e_6_double : isDouble (4722366482869645 # 4722366482869645213696).
Proof.
  pose proof (F_representable (1 # 1000000)) as D.
  change (F (1 # 1000000)) with n1e_6 in D. rewrite n1e_6_eq in D. exact D.
Qed.

Lemma n1e_2_double : isDouble (5764607523034235 # 576460752303423488).
Proof.
  pose proof (F_representable (1 # 100)) as D.
  change (F (1 # 100)) with n1e_2 in D. rewrite n1e_2_eq in D. exact D.
Qed.

Lemma normalizedWithin_le (cards order : list Card) (s : number) (b b' : Q) :
  b <= b' -> normalizedWithin cards order s b ->
  normalizedWithin cards order s b'.
Proof.
  intros Hb (A & B & C & D & E1 & E2 & E3 & E4).
  repeat split; try assumption; try (apply D; assumption); lra.
Qed.

(** The normalizer normalizes: with its scale the weights are within
    2^-13 of a distribution, and within n * 2^-49 when the scale is
    1 / rawSum. *)
Lemma normalized_weights (cards order : list Card) :
  Permutation order cards ->
  (Z.of_nat (List.length cards) <= 2 ^ 20)%Z ->
  (forall c, In c cards ->
     nonneg (probability c) /\ isFinite (probability c) = true /\
     representable (probability c)) ->
  pow2 (-999) <= exactSum probability cards ->
  exactSum probability cards <= pow2 999 ->
  normalizedWithin cards order (probabilityScale cards) (pow2 (-13)) /\
  (probabilityScale cards = div n1 (rawSum cards) ->
   normalizedWithin cards order (probabilityScale cards)
     (cardCount cards * pow2 (-49))).
Proof.
  intros Perm Hlen Hp Plo Phi.
  pose proof eps_pos as Hu. pose proof eps_small as Hus.
  pose proof pow2_33 as HT. pose proof pow2_13 as H13.
  pose proof (pow2_pos (-999)) as Hp999.
  pose proof (cardCount_bound cards Hlen) as Ht.
  assert (Hn1 : 1 <= cardCount cards) by (apply cardCount_positive; lra).
  assert (HP : exactSum probability cards <= pow2 1000).
  { eapply Qle_trans; [exact Phi |]. apply pow2_le. lia. }
  assert (Ht4 : cardCount cards * eps <= 1 # 4) by lra.
  destruct (rawSum_near cards Hp Ht4 HP) as (FS & NS & Sl & Sh).
  cbv zeta in Sl, Sh.
  set (t := cardCount cards * eps) in *.
  setoid_replace (2 * cardCount cards * eps) with (2 * t) in Sh
    by (unfold t; ring).
  assert (Hut : eps <= t).
  { unfold t. assert (0 <= (cardCount cards - 1) * eps)
      by (apply Qmult_le_0_compat; lra). lra. }
  assert (E16 : cardCount cards * pow2 (-49) == 16 * t).
  { rewrite <- eps_16. unfold t. ring. }
  set (P := exactSum probability cards) in *.
  set (S := R (rawSum cards)) in *.
  assert (HSlo : pow2 (-1001) <= S).
  { assert (E : pow2 (-999) == 4 * pow2 (-1001)).
    { assert (E2 : pow2 (-999) == pow2 2 * pow2 (-1001))
        by (rewrite <- pow2_add; reflexivity).
      rewrite E2. reflexivity. }
    assert (pow2 (-999) * (1 # 2) <= P * (1 - t))
      by (apply mul_le_mul; lra).
    pose proof (pow2_pos (-1001)). lra. }
  assert (HShi : S <= pow2 1001).
  { assert (E : pow2 1001 == 4 * pow2 999).
    { assert (E2 : pow2 1001 == pow2 2 * pow2 999)
        by (rewrite <- pow2_add; reflexivity).
      rewrite E2. reflexivity. }
    assert (P * (1 + 2 * t) <= pow2 999 * 2)
      by (apply mul_le_mul; lra).
    pose proof (pow2_pos 999). lra. }
  (* a scale that is 1 / rawSum *)
  assert (Third : normalizedWithin cards order (div n1 (rawSum cards))
                    (16 * t)).
  { destruct (recip_near (rawSum cards) FS HSlo HShi) as (Fd & Nd & Dl & Dh).
    destruct (mass_of_scale cards order (div n1 (rawSum cards))
                (1 - eps) (1 + eps))
      as (Fm & Ml & Mh & Tm & Wl & Wh); try assumption; try lra.
    cbv zeta in Ml, Mh, Wl, Wh. fold t in Ml, Mh, Wl, Wh.
    assert (0 <= eps * t) by (apply Qmult_le_0_compat; lra).
    assert (eps * t <= 1 * t) by (apply Qmult_le_compat_r; lra).
    repeat split; try assumption; try (apply Tm; assumption); lra. }
  assert (Last : probabilityScale cards = div n1 (rawSum cards) ->
            normalizedWithin cards order (probabilityScale cards)
              (cardCount cards * pow2 (-49))).
  { intros ->. destruct Third as (A & B & C & D & E1 & E2 & E3 & E4).
    repeat split; try assumption; try (apply D; assumption);
      rewrite E16; assumption. }
  split; [| exact Last].
  unfold probabilityScale. cbv zeta.
  destruct (ltb (abs (sub (rawSum cards) n1)) n1e_6) eqn:T1.
  - (* the raw sum is within 1e-6 of 1 *)
    rewrite n1_eq, n1e_6_eq in T1.
    assert (N1 : ~ 1 == 0) by lra.
    destruct (near_test (rawSum cards) 1 _ FS N1 n1e_6_double eq_refl T1)
      as [A B].
    fold S in A, B.
    destruct (mass_of_scale cards order n1
                (1 - (4722366482869645 # 4722366482869645213696))
                (1 + (4722366482869645 # 4722366482869645213696)))
      as (Fm & Ml & Mh & Tm & Wl & Wh);
      try assumption; try reflexivity.
    + rewrite n1_eq. cbn [R]. fold S. lra.
    + rewrite n1_eq. cbn [R]. fold S. lra.
    + cbv zeta in Ml, Mh, Wl, Wh. fold t in Ml, Mh, Wl, Wh.
      repeat split; try assumption; try (apply Tm; assumption); lra.
  - destruct (ltb (abs (sub (rawSum cards) n100)) n1e_2) eqn:T2.
    + (* the raw sum is within 1e-2 of 100 *)
      rewrite n100_eq, n1e_2_eq in T2.
      assert (N100 : ~ 100 == 0) by lra.
      destruct (near_test (rawSum cards) 100 _ FS N100 n1e_2_double eq_refl T2)
        as [A B].
      fold S in A, B.
      destruct (mass_of_scale cards order n0_01
                  ((5764607523034235 # 576460752303423488) *
                   (100 - (5764607523034235 # 576460752303423488)))
                  ((5764607523034235 # 576460752303423488) *
                   (100 + (5764607523034235 # 576460752303423488))))
        as (Fm & Ml & Mh & Tm & Wl & Wh);
        try assumption; try reflexivity.
      * rewrite n0_01_eq. cbn [R]. fold S. lra.
      * rewrite n0_01_eq. cbn [R]. fold S. lra.
      * cbv zeta in Ml, Mh, Wl, Wh. fold t in Ml, Mh, Wl, Wh.
        repeat split; try assumption; try (apply Tm; assumption); lra.
    + (* any other raw sum *)
      apply (normalizedWithin_le _ _ _ (16 * t)); [lra | exact Third].
Qed.


Lemma hundred_and_a_bit :
  mul (Fin (1 + pow2 (-13))) n100 = Fin (204825 # 2048).
Proof. vm_compute. reflexivity. Qed.

Lemma hundred_less_a_bit :
  mul (Fin (1 - pow2 (-13))) n100 = Fin (204775 # 2048).
Proof. vm_compute. reflexivity. Qed.

Lemma threeAlike_ok :
  forall c, In c threeAlike ->
    nonneg (probability c) /\ isFinite (probability c) = true /\
    representable (probability c).
Proof.
  intros c H.
  repeat (destruct H as [<- | H];
          [split; [vm_compute; reflexivity |
                   split; [vm_compute; reflexivity | apply F_representable]] |]).
  destruct H.
Qed.

Lemma scenario_ok :
  forall c, In c scenario ->
    nonneg (probability c) /\ isFinite (probability c) = true /\
    representable (probability c).
Proof.
  intros c H.
  repeat (destruct H as [<- | H];
          [split; [vm_compute; reflexivity |
                   split; [vm_compute; reflexivity | apply F_representable]] |]).
  destruct H.
Qed.

(** One product of two non-negative Numbers, as large as the values of
    the cards are. *)
Lemma mul_near_large (p s : number) :
  nonneg p -> nonneg s -> isFinite p = true -> isFinite s = true ->
  R p * R s <= pow2 1000 ->
  isFinite (mul p s) = true /\ nonneg (mul p s) /\
  R p * R s * (1 - eps) - eta <= R (mul p s) /\
  R (mul p s) <= R p * R s * (1 + eps) + eta.
Proof.
  intros Np Ns Fp Fs Hb.
  pose proof eps_pos as Hu. pose proof eps_small as Hus.
  pose proof eta_pos as He. pose proof eta_small as Hes.
  pose proof (nonneg_R p Np Fp) as Pp. pose proof (nonneg_R s Ns Fs) as Ps.
  pose proof pow2_1000 as H1000.
  assert (H1 : 1 <= pow2 1000).
  { change 1 with (pow2 0). apply pow2_le. lia. }
  assert (Hq : 0 <= R p * R s) by (apply Qmult_le_0_compat; assumption).
  assert (Hfin : R p * R s * (1 + eps) + eta < pow2 1024).
  { assert (R p * R s * (1 + eps) <= pow2 1000 * 2)
      by (apply mul_le_mul; lra).
    lra. }
  split; [| split; [apply mul_nonneg; assumption |]].
  - destruct (mul_finite p s Fp Fs) as [[-> _] | [Z _]];
      [| apply isZero_finite, Z].
    destruct (roundQ_near (R p * R s) Hq) as [_ Hh].
    apply roundQ_finite; [exact Hq | lra].
  - destruct (mul_finite p s Fp Fs) as [[-> _] | [Z E]].
    + destruct (roundQ_near (R p * R s) Hq) as [Hl Hh].
      destruct (roundQ_finite (R p * R s) Hq) as [_ Rf]; [lra |].
      rewrite Rf. split; assumption.
    + rewrite (isZero_R _ Z), E. split; lra.
Qed.

(** The exact sum of the products the expected value adds up, between the
    least and the greatest value, up to the rounding of the products. *)
Lemma weighted_near (cards : list Card) (s : number) (lo hi : Q) :
  (forall c, In c cards ->
     nonneg (mul (probability c) s) /\
     isFinite (mul (probability c) s) = true /\
     isFinite (fmv c) = true /\ lo <= R (fmv c) /\ R (fmv c) <= hi /\
     R (mul (probability c) s) * R (fmv c) <= pow2 1000) ->
  0 <= lo ->
  let W := exactSum (fun c => mul (probability c) s) cards in
  let E := exactSum (fun c => mul (mul (probability c) s) (fmv c)) cards in
  lo * W * (1 - eps) - cardCount cards * eta <= E /\
  E <= hi * W * (1 + eps) + cardCount cards * eta /\
  forall c, In c cards ->
    nonneg (mul (mul (probability c) s) (fmv c)) /\
    isFinite (mul (mul (probability c) s) (fmv c)) = true /\
    representable (mul (mul (probability c) s) (fmv c)).
Proof.
  intros H Hlo. cbv zeta.
  pose proof eps_pos as Hu. pose proof eps_small as Hus.
  induction cards as [| c rest IH].
  - cbn [exactSum fold_right]. assert (E0 : cardCount [] == 0) by reflexivity.
    rewrite E0. split; [lra |]. split; [lra |]. intros c [].
  - destruct (H c (or_introl eq_refl)) as (Nw & Fw & Fv & Vl & Vh & Hb).
    assert (Nv : nonneg (fmv c)) by (apply nonneg_finite; [exact Fv | lra]).
    destruct (mul_near_large _ _ Nw Nv Fw Fv Hb) as (Fe & Ne & El & Eh).
    destruct IH as (Il & Ih & It).
    { intros c' Hc'. apply H. right. exact Hc'. }
    pose proof (nonneg_R _ Nw Fw) as Pw.
    cbn [exactSum fold_right].
    fold (exactSum (fun c => mul (probability c) s) rest).
    fold (exactSum (fun c => mul (mul (probability c) s) (fmv c)) rest).
    rewrite cardCount_cons.
    set (w := R (mul (probability c) s)) in *.
    set (v := R (fmv c)) in *.
    assert (A1 : lo * w <= w * v)
      by (rewrite (Qmult_comm lo); apply mul_le_mul; lra).
    assert (A2 : w * v <= hi * w)
      by (rewrite (Qmult_comm hi); apply mul_le_mul; lra).
    assert (A3 : lo * w * (1 - eps) <= w * v * (1 - eps))
      by (apply Qmult_le_compat_r; lra).
    assert (A4 : w * v * (1 + eps) <= hi * w * (1 + eps))
      by (apply Qmult_le_compat_r; lra).
    split; [lra |]. split; [lra |].
    intros c' [<- | Hc'].
    + split; [exact Ne | split; [exact Fe | apply mul_representable]].
    + apply It, Hc'.
Qed.

Lemma pow2_12 : pow2 (-12) == 1 # 4096.
Proof. vm_compute. reflexivity. Qed.

Lemma n0_5_eq : n0_5 = Fin (1 # 2).
Proof. vm_compute. reflexivity. Qed.

(** ** The rounding errors of the tail *)














(** ** The odds and the expected value, nearly *)

Lemma eps_4 : 4 * eps == pow2 (-51).
Proof. unfold eps. vm_compute. reflexivity. Qed.

Lemma cardCount_nonempty (f : Card -> number) (cards : list Card) :
  0 < exactSum f cards -> 1 <= cardCount cards.
Proof.
  destruct cards as [| c rest]; intro H.
  - cbn in H. lra.
  - rewrite cardCount_cons. pose proof (cardCount_nonneg rest). lra.
Qed.

(** The sum over the cards worth the price and its percentage, for scaled
    probabilities whose exact sum is at most 1. *)
Lemma oddsOverCost_near (cards : list Card) (s cost : number) :
  (Z.of_nat (List.length cards) <= 2 ^ 20)%Z ->
  (forall c, In c cards ->
     nonneg (mul (probability c) s) /\
     isFinite (mul (probability c) s) = true) ->
  0 < exactSum (fun c => mul (probability c) s) cards ->
  exactSum (fun c => mul (probability c) s) cards <= 1 ->
  let o := oddsOverCostOf cards s cost in
  isFinite o = true /\ nonneg o /\
  R o <= 100 * (1 + cardCount cards * pow2 (-51)).
Proof.
  intros Hlen Hw Wpos W1 o.
  set (W := exactSum (fun c => mul (probability c) s) cards) in *.
  pose proof (cardCount_bound cards Hlen) as Ht.
  pose proof (cardCount_nonempty _ cards Wpos) as Hn.
  pose proof eps_pos as Up. pose proof eps_small as Us.
  pose proof eta_pos as Ep. pose proof eta_small as Es.
  pose proof pow2_33 as T33. pose proof eps_4 as E4.
  pose proof pow2_1000 as Hbig. pose proof (pow2_pos 1000) as P1000.
  set (n := cardCount cards) in *.
  assert (t0 : eps <= n * eps).
  { setoid_replace eps with (1 * eps) at 1 by ring.
    apply Qmult_le_compat_r; lra. }
  assert (L1000 : 1000 <= pow2 1000).
  { apply Qle_trans with (pow2 10); [vm_compute; discriminate |].
    apply pow2_le. lia. }
  destruct (fold_near (fun c => mul (probability c) s) cards n0 0 0)
    as (Fm & Nm & _ & Mh).
  { intros c Hc. destruct (Hw c Hc) as [A B].
    split; [exact A | split; [exact B | apply mul_representable]]. }
  { reflexivity. }
  { reflexivity. }
  { exact isDouble_0. }
  { lra. }
  { lra. }
  { fold n. lra. }
  { fold W. lra. }
  { cbn [R n0]. lra. }
  { cbn [R n0]. lra. }
  cbv zeta in Fm, Nm, Mh. fold n in Mh. fold W in Mh.
  fold (scaledMass cards s) in Fm, Nm, Mh.
  destruct (oddsSum_le_mass cards s cost n0 n0) as [On Om].
  { intros c Hc. apply (Hw c Hc). }
  { reflexivity. }
  { reflexivity. }
  { exact isDouble_0. }
  cbv zeta in On, Om.
  fold (oddsSum cards s cost) in On, Om. fold (scaledMass cards s) in Om.
  pose proof (le_finite_l _ _ On Om Fm) as Fo.
  pose proof (nonneg_R _ On Fo) as Ro.
  apply (le_finite _ _ Fo Fm) in Om.
  assert (Wt : W * (n * eps) <= 1 * (n * eps))
    by (apply Qmult_le_compat_r; lra).
  assert (Xb : R (oddsSum cards s cost) <= 1 + 2 * (n * eps)) by lra.
  destruct (mul_near_large (oddsSum cards s cost) n100) as (Fy & Ny & _ & Yh).
  { exact On. }
  { reflexivity. }
  { exact Fo. }
  { reflexivity. }
  { rewrite n100_eq. cbn [R]. lra. }
  rewrite n100_eq in Yh. cbn [R] in Yh.
  split; [exact Fy |]. split; [exact Ny |].
  unfold o, oddsOverCostOf. rewrite n100_eq.
  assert (Xe : R (oddsSum cards s cost) * eps <= (1 + 2 * (n * eps)) * eps)
    by (apply Qmult_le_compat_r; lra).
  assert (Te : n * eps * eps <= n * eps * (1 # 1000000))
    by (apply mul_le_mul; lra).
  assert (G : n * pow2 (-51) == 4 * (n * eps)) by (rewrite <- E4; ring).
  rewrite G. lra.
Qed.

(** The expected value is a weighted average of the values, up to the
    tolerance of the normalizer and to rounding. *)
Lemma expectedValue_near_average (cards : list Card)
  (priceUsd : number) (lo hi : Q) :
  (Z.of_nat (List.length cards) <= 2 ^ 20)%Z ->
  (forall c, In c cards ->
     nonneg (probability c) /\ isFinite (probability c) = true /\
     representable (probability c)) ->
  pow2 (-999) <= exactSum probability cards ->
  exactSum probability cards <= pow2 999 ->
  (forall c, In c cards ->
     isFinite (fmv c) = true /\ lo <= R (fmv c) /\ R (fmv c) <= hi) ->
  0 <= lo -> hi <= pow2 900 ->
  let ev := expectedValue (metricsOf cards priceUsd) in
  isFinite ev = true /\
  lo * (1 - pow2 (-12)) - pow2 (-1000) <= R ev /\
  R ev <= hi * (1 + pow2 (-12)) + pow2 (-1000).
Proof.
  intros Hlen Hp Plo Phi Hv Hlo Hhi ev.
  pose proof eps_pos as Hu. pose proof eta_pos as He.
  pose proof pow2_33 as HT. pose proof pow2_13 as H13.
  pose proof pow2_12 as H12.
  pose proof (cardCount_bound cards Hlen) as Ht.
  pose proof (cardCount_nonneg cards) as Hn0.
  destruct (normalized_weights cards cards (Permutation_refl _)
              Hlen Hp Plo Phi)
    as [(Fs & Ns & _ & Tm & _ & _ & Wl & Wh) _].
  set (s := probabilityScale cards) in *.
  set (W := exactSum (fun c => mul (probability c) s) cards) in *.
  set (t := cardCount cards * eps) in *.
  assert (Hut : eps <= pow2 (-33)).
  { unfold eps. apply pow2_le. lia. }
  assert (Hne : cardCount cards * eta <= pow2 (-1055)).
  { assert (Hc : cardCount cards <= pow2 20).
    { unfold cardCount. rewrite (pow2_Z 20) by lia. rewrite <- Zle_Qle.
      exact Hlen. }
    assert (E : pow2 (-1055) == pow2 20 * eta)
      by (unfold eta; rewrite <- pow2_add; reflexivity).
    rewrite E. apply Qmult_le_compat_r; lra. }
  assert (Hne0 : 0 <= cardCount cards * eta)
    by (apply Qmult_le_0_compat; lra).
  set (ne := cardCount cards * eta) in *.
  assert (Htiny : 2 * pow2 (-1055) <= pow2 (-1000)).
  { apply Qle_trans with (pow2 (-1054)); [| apply pow2_le; lia].
    rewrite <- pow2_succ. apply Qle_refl. }
  pose proof (pow2_pos (-1055)) as Hp1055.
  assert (Hhi900 : pow2 900 * 4 <= pow2 1000).
  { apply Qle_trans with (pow2 902); [| apply pow2_le; lia].
    assert (E : pow2 902 == pow2 900 * pow2 2)
      by (rewrite <- pow2_add; reflexivity).
    rewrite E. apply Qle_refl. }
  pose proof (pow2_pos 900) as Hp900.
  assert (Hsmall : pow2 (-1055) <= pow2 900) by (apply pow2_le; lia).
  assert (Hlohi : cards <> [] -> lo <= hi).
  { destruct cards as [| c rest]; [congruence |]. intros _.
    destruct (Hv c (or_introl eq_refl)) as (_ & A & B). lra. }
  assert (Hne' : cards <> []).
  { intro E. unfold W in Wl. rewrite E in Wl. cbn in Wl. lra. }
  specialize (Hlohi Hne').
  assert (Hterm : forall c, In c cards ->
     nonneg (mul (probability c) s) /\
     isFinite (mul (probability c) s) = true /\
     isFinite (fmv c) = true /\ lo <= R (fmv c) /\ R (fmv c) <= hi /\
     R (mul (probability c) s) * R (fmv c) <= pow2 1000).
  { intros c Hc. destruct (Tm c Hc) as [Nw Fw].
    destruct (Hv c Hc) as (Fv & Vl & Vh).
    repeat split; try assumption.
    pose proof (exactSum_ge_term (fun c => mul (probability c) s) cards c Tm Hc)
      as Hw.
    cbv beta in Hw. fold W in Hw.
    pose proof (nonneg_R _ Nw Fw) as Pw.
    assert (R (mul (probability c) s) * R (fmv c) <= 2 * pow2 900)
      by (apply mul_le_mul; lra).
    lra. }
  destruct (weighted_near cards s lo hi Hterm Hlo) as (El & Eh & Et).
  cbv zeta in El, Eh. fold W in El, Eh. fold ne in El, Eh.
  set (E := exactSum (fun c => mul (mul (probability c) s) (fmv c)) cards)
    in *.
  assert (W0 : 0 <= W) by lra.
  assert (B1 : hi * W * (1 + eps) <= hi * ((1 + (1 # 8192)) * (1 + (1 # 8589934592)))).
  { setoid_replace (hi * W * (1 + eps)) with (W * (1 + eps) * hi) by ring.
    rewrite (Qmult_comm hi). apply Qmult_le_compat_r; [| lra].
    apply mul_le_mul; lra. }
  assert (B2 : lo * ((1 - (1 # 8192)) * (1 - (1 # 8589934592))) <= lo * W * (1 - eps)).
  { setoid_replace (lo * W * (1 - eps)) with (W * (1 - eps) * lo) by ring.
    rewrite (Qmult_comm lo). apply Qmult_le_compat_r; [| lra].
    apply mul_le_mul; lra. }
  assert (E0 : 0 <= E).
  { apply exactSum_nonneg. intros c Hc.
    destruct (Et c Hc) as (A & B & _). split; assumption. }
  assert (Ebig : E <= pow2 1000).
  { assert (hi * ((1 + (1 # 8192)) * (1 + (1 # 8589934592))) <= pow2 900 * 2)
      by (apply mul_le_mul; lra).
    lra. }
  destruct (fold_near
              (fun c => mul (mul (probability c) s) (fmv c)) cards n0 0 0 Et)
    as (Fe & _ & Ml & Mh); try reflexivity.
  - exact isDouble_0.
  - lra.
  - lra.
  - setoid_replace ((0 + cardCount cards) * eps) with t by (unfold t; ring). lra.
  - fold E. lra.
  - simpl. lra.
  - simpl. lra.
  - cbv zeta in Ml, Mh. fold E in Ml, Mh.
    setoid_replace ((0 + E) * (1 - (0 + cardCount cards) * eps))
      with (E - E * t) in Ml by (unfold t; ring).
    setoid_replace ((0 + E) * (1 + 2 * (0 + cardCount cards) * eps))
      with (E + 2 * (E * t)) in Mh by (unfold t; ring).
    rewrite H12.
    change (fold_left
              (fun sum c => add sum (mul (mul (probability c) s) (fmv c)))
              cards n0) with ev in Fe, Ml, Mh.
    assert (t0 : 0 <= t) by (apply Qmult_le_0_compat; lra).
    assert (Et1 : E * t <= E * (1 # 8589934592))
      by (apply mul_le_mul; lra).
    assert (Et0 : 0 <= E * t) by (apply Qmult_le_0_compat; lra).
    split; [exact Fe |]. split.
    + eapply Qle_trans; [| exact Ml]. lra.
    + eapply Qle_trans; [exact Mh |]. lra.
Qed.

Lemma descending_wellFormed : Forall wellFormed descending.
Proof.
  unfold descending.
  repeat (apply Forall_cons;
          [split; [vm_compute; reflexivity
                  | cbn [fmv]; unfold lit; apply F_representable] |]).
  apply Forall_nil.
Qed.

Lemma fiveCards_ok :
  forall c, In c fiveCards ->
    nonneg (probability c) /\
    isFinite (mul (probability c) (probabilityScale fiveCards)) = true.
Proof.
  intros c H.
  repeat (destruct H as [<- | H]; [vm_compute; split; reflexivity |]).
  destruct H.
Qed.

(* ===================================================================== *)
(** * Part 5. The claims                                                  *)
(* ===================================================================== *)

(** A property of every card of a list written out: one computation per
    card. *)
Ltac each_card :=
  let c := fresh "c" in
  let H := fresh "H" in
  intros c H;
  repeat (destruct H as [<- | H]; [vm_compute; repeat split; reflexivity |]);
  destruct H.

(** C1.  The normalizer tries its three cases in this order and the first
    that matches wins: the scale is 1 when |rawSum - 1| < 1e-6; otherwise
    it is 0.01 when |rawSum - 100| < 1e-2; otherwise it is 1 / rawSum.  The
    copy of the normalizer inside the script, which writes 1 / 100 for
    0.01, returns the same scale. *)
Theorem probabilityScale_first_match (cards : list Card) :
  let s := rawSum cards in
  (ltb (abs (sub s n1)) n1e_6 = true -> probabilityScale cards = n1) /\
  (ltb (abs (sub s n1)) n1e_6 = false ->
   ltb (abs (sub s n100)) n1e_2 = true -> probabilityScale cards = n0_01) /\
  (ltb (abs (sub s n1)) n1e_6 = false ->
   ltb (abs (sub s n100)) n1e_2 = false ->
   probabilityScale cards = div n1 s) /\
  Script.probScale cards = probabilityScale cards.
Proof.
  cbv zeta. split; [| split; [| split]]; try apply script_probScale;
    unfold probabilityScale; cbv zeta.
  - intros ->. reflexivity.
  - intros -> ->. reflexivity.
  - intros -> ->. reflexivity.
Qed.

(** C2, as the code has it.  A distribution whose raw probabilities sum to
    zero is not reported: the normalizer returns 1 / rawSum, which is
    +Infinity or -Infinity by the sign of the zero, computeMetrics carries
    it in probScale, and when the distribution is not empty and every
    probability is zero the expected value is NaN. *)
Theorem degenerate_distribution_not_reported (cards : list Card)
  (priceUsd : number) :
  isZero (rawSum cards) = true ->
  probabilityScale cards = inf (sgn (rawSum cards)) /\
  isFinite (probabilityScale cards) = false /\
  probScale (metricsOf cards priceUsd) = probabilityScale cards /\
  (cards <> [] ->
   (forall c, In c cards -> isZero (probability c) = true) ->
   expectedValue (metricsOf cards priceUsd) = NaN).
Proof.
  intro Z. pose proof (probabilityScale_zero_sum cards Z) as E.
  split; [exact E |]. split; [rewrite E; destruct (sgn _); reflexivity |].
  split; [reflexivity |].
  intros Hne Hz. cbn [metricsOf metricsRecord expectedValue].
  unfold expectedValueOf. rewrite E.
  destruct cards as [| c rest]; [congruence |].
  cbn [fold_left]. rewrite mul_zero_inf by (apply Hz; left; reflexivity).
  rewrite mul_NaN_l, add_NaN_r. apply expectedValue_NaN_acc.
Qed.

Lemma degenerate_distribution_not_reported_witness :
  probabilityScale allZero = PosInf /\
  expectedValue (metricsOf allZero (lit 5)) = NaN.
Proof.
  assert (Z : isZero (rawSum allZero) = true) by (vm_compute; reflexivity).
  destruct (degenerate_distribution_not_reported allZero (lit 5) Z)
    as (A & _ & _ & B).
  split.
  - rewrite A. vm_compute. reflexivity.
  - apply B.
    + discriminate.
    + each_card.
Defined.

(** C2 fails on two cards of probability 0: the raw sum is 0, the
    normalizer returns +Infinity, and the metrics computed with it are
    NaN. *)
Lemma degenerate_scale_is_returned :
  let m := metricsOf allZero (lit 5) in
  isZero (rawSum allZero) = true /\
  probabilityScale allZero = PosInf /\
  isFinite (probabilityScale allZero) = false /\
  probScale m = PosInf /\
  expectedValue m = NaN /\ profit m = NaN /\ evPercent m = NaN.
Proof. vm_compute. repeat split; reflexivity. Qed.

(** C3.  For cards whose fmv is a Number other than NaN, as the fmv of a
    distribution are, and for every scale: the sorted copy holds the same
    cards in ascending order of fmv, the cards of one fmv in the order
    they had; the median of computeMetrics (and of the script) is
    [medianOf] on the sorted copy; and either some card of the sorted copy
    is the first whose running total of probability * scale is >= 0.5 and
    the median is its fmv, or no running total is >= 0.5 and the median
    is 0. *)
Theorem medianValue_first_reaching_half (cards : list Card)
  (priceUsd scale : number) :
  Forall wellFormed cards ->
  let sorted := sortByFmv cards in
  Permutation sorted cards /\
  StronglySorted ascending sorted /\
  (forall v, filter (fun c => eqb (fmv c) v) sorted
             = filter (fun c => eqb (fmv c) v) cards) /\
  medianValue (metricsOf cards priceUsd)
  = medianOf sorted (probabilityScale cards) /\
  Script.medianCardValue (Script.calculateExpectedValue cards priceUsd)
  = medianOf sorted (probabilityScale cards) /\
  ((exists pre card post,
      sorted = pre ++ card :: post /\
      geb (scaledMass (pre ++ [card]) scale) n0_5 = true /\
      (forall k, (k <= List.length pre)%nat ->
         geb (scaledMass (firstn k sorted) scale) n0_5 = false) /\
      medianOf sorted scale = fmv card)
   \/
   ((forall k, geb (scaledMass (firstn k sorted) scale) n0_5 = false) /\
    medianOf sorted scale = n0)).
Proof.
  intros Hw sorted.
  destruct (sortByFmv_sorted cards Hw) as [P S].
  split; [exact P |]. split; [exact S |].
  split; [intro v; apply sortByFmv_stable, Hw |].
  split; [reflexivity |].
  split; [apply script_agrees |].
  apply (medianLoop_spec sorted [] scale).
  intros k Hk. simpl in Hk. replace k with 0%nat by lia. reflexivity.
Qed.

Lemma medianValue_first_reaching_half_witness :
  sortByFmv descending = scenario /\
  StronglySorted ascending (sortByFmv descending) /\
  medianValue (metricsOf descending (lit 5)) = lit 1.
Proof.
  destruct (medianValue_first_reaching_half descending (lit 5) n1
              descending_wellFormed) as (_ & S & _ & M & _).
  split; [vm_compute; reflexivity |].
  split; [exact S |].
  rewrite M. vm_compute. reflexivity.
Defined.

(** C4, as the code has it.  Every point of the curve belongs to the card
    at the same place of the sorted copy; its x is max(fmv, 0.01) and its
    profitPct is (x - priceUsd) / priceUsd * 100, computed from x.  When
    fmv >= 0.01, x is fmv and profitPct is
    (fmv - priceUsd) / priceUsd * 100. *)
Theorem curve_point_of_card (cards : list Card) (priceUsd scale : number) :
  Forall2
    (fun card pt =>
       CurvePoint.x pt = mathMax (fmv card) n0_01 /\
       CurvePoint.profitPct pt =
         mul (div (sub (CurvePoint.x pt) priceUsd) priceUsd) n100 /\
       (leb n0_01 (fmv card) = true ->
        CurvePoint.x pt = fmv card /\
        CurvePoint.profitPct pt =
          mul (div (sub (fmv card) priceUsd) priceUsd) n100))
    (sortByFmv cards) (curveOf cards priceUsd scale).
Proof.
  unfold curveOf, curveFrom.
  eapply Forall2_impl; [| apply curveWalk_points].
  intros card pt [Hx Hp]. split; [exact Hx | split; [exact Hp |]].
  intro Hge. rewrite (floor_above _ Hge) in Hx.
  split; [exact Hx | rewrite Hp, Hx; reflexivity].
Qed.

Lemma curve_point_of_card_witness :
  map CurvePoint.profitPct (curveOf scenario (lit 5) n1)
  = map (fun card => mul (div (sub (fmv card) (lit 5)) (lit 5)) n100)
      (sortByFmv scenario).
Proof.
  pose proof (curve_point_of_card scenario (lit 5) n1) as H.
  assert (E : sortByFmv scenario = scenario) by (vm_compute; reflexivity).
  rewrite E in *.
  assert (G : forall c, In c scenario -> leb n0_01 (fmv c) = true)
    by each_card.
  revert H G.
  generalize (curveOf scenario (lit 5) n1) as curve.
  generalize scenario as sorted.
  intros sorted curve H G.
  induction H as [| card pt sorted curve (_ & _ & Hc) _ IH].
  - reflexivity.
  - cbn [map]. f_equal.
    + apply Hc, G. left. reflexivity.
    + apply IH. intros c Hin. apply G. right. exact Hin.
Defined.

(** C4 fails on a card worth 0 at price 5: x is 0.01 and profitPct is
    (0.01 - 5) / 5 * 100, about -99.8, where the raw fmv gives -100. *)
Lemma profitPct_from_floored_value :
  let priceUsd := lit 5 in
  let card := mkCard "bulk"%string n0 n1 in
  ltb n0 priceUsd = true /\
  map CurvePoint.x (curveOf [card] priceUsd n1) = [n0_01] /\
  map CurvePoint.profitPct (curveOf [card] priceUsd n1)
  = [Fin (-7022800668930867 # 70368744177664)] /\
  mul (div (sub (fmv card) priceUsd) priceUsd) n100 = Fin (-100) /\
  mul (div (sub n0_01 priceUsd) priceUsd) n100
  = Fin (-7022800668930867 # 70368744177664).
Proof. vm_compute. repeat split; reflexivity. Qed.




(** C6, as the code has it.  For at most 2^20 cards with non-negative
    probabilities whose scaled probabilities, with the scale of the
    normalizer, are finite and sum to exactly 1, oddsOverCost is finite
    and lies in [0, 100 * (1 + n * 2^-51)] for n cards, whatever the
    price.  It lies in [0, 100] when the sum the code computes, card after
    card in the order of the list, is [===] 1. *)
Theorem oddsOverCost_bounded (cards : list Card) (priceUsd : number) :
  (Z.of_nat (List.length cards) <= 2 ^ 20)%Z ->
  (forall c, In c cards ->
     nonneg (probability c) /\
     isFinite (mul (probability c) (probabilityScale cards)) = true) ->
  exactSum (fun c => mul (probability c) (probabilityScale cards)) cards
  == 1 ->
  let o := oddsOverCost (metricsOf cards priceUsd) in
  isFinite o = true /\ le n0 o /\
  R o <= 100 * (1 + cardCount cards * pow2 (-51)) /\
  (eqb (scaledMass cards (probabilityScale cards)) n1 = true -> le o n100).
Proof.
  intros Hlen H W1 o.
  assert (Hp : forall c, In c cards -> nonneg (probability c))
    by (intros c Hc; apply (H c Hc)).
  pose proof (probabilityScale_nonneg cards Hp) as Hs.
  assert (Hw : forall c, In c cards ->
            nonneg (mul (probability c) (probabilityScale cards)) /\
            isFinite (mul (probability c) (probabilityScale cards)) = true).
  { intros c Hc. destruct (H c Hc) as [Pn Wf]. split; [| exact Wf].
    destruct (mul_nonneg_or_NaN _ _ Pn Hs) as [N | N]; [exact N |].
    rewrite N in Wf. discriminate. }
  destruct (oddsOverCost_near cards (probabilityScale cards) priceUsd Hlen Hw)
    as (A & B & C); [lra | lra |].
  split; [exact A |]. split; [exact B |]. split; [exact C |].
  intro Hm. apply andb_prop in Hm. destruct Hm as [Hm1 _].
  destruct (oddsSum_le_mass cards (probabilityScale cards) priceUsd n0 n0)
    as [On Om]; try reflexivity.
  { intros c Hc. apply (Hw c Hc). }
  { exact isDouble_0. }
  cbv zeta in On, Om.
  fold (oddsSum cards (probabilityScale cards) priceUsd) in On, Om.
  fold (scaledMass cards (probabilityScale cards)) in Om.
  unfold o. cbn [metricsOf metricsRecord oddsOverCost]. unfold oddsOverCostOf.
  change n100 with (mul n1 n100) at 2. rewrite n100_eq.
  apply mul_pos_mono; [reflexivity |].
  eapply le_trans; [exact Om | exact Hm1].
Qed.

Lemma oddsOverCost_bounded_witness :
  isFinite (oddsOverCost (metricsOf fiveCards (lit 1))) = true /\
  le n0 (oddsOverCost (metricsOf fiveCards (lit 1))) /\
  R (oddsOverCost (metricsOf fiveCards (lit 1)))
  <= 100 * (1 + cardCount fiveCards * pow2 (-51)).
Proof.
  destruct (oddsOverCost_bounded fiveCards (lit 1)) as (A & B & C & _).
  - vm_compute. discriminate.
  - exact fiveCards_ok.
  - apply Qeq_bool_iff. vm_compute. reflexivity.
  - split; [exact A | split; [exact B | exact C]].
Defined.

(** C6 fails on five cards of probabilities 0.35, 0.45, 0.05, 0.05 and
    0.1 at price 1: the scale is 1, the five scaled probabilities sum to
    exactly 1, the code adds them up to 1.0000000000000002, and
    oddsOverCost is 100.00000000000003. *)
Lemma oddsOverCost_above_100 :
  let m := metricsOf fiveCards (lit 1) in
  (forall c, In c fiveCards -> nonneg (probability c)) /\
  probScale m = n1 /\
  Qeq_bool
    (exactSum (fun c => mul (probability c) (probScale m)) fiveCards) 1
  = true /\
  scaledMass fiveCards (probScale m)
  = Fin (4503599627370497 # 4503599627370496) /\
  oddsOverCost m = Fin (3518437208883201 # 35184372088832) /\
  leb (oddsOverCost m) n100 = false.
Proof.
  split; [each_card |].
  vm_compute. repeat split; reflexivity.
Qed.

(** C7, as the code has it.  For at most 2^20 cards with finite
    non-negative fmv, the greatest at most 2^900, and probabilities that
    are non-negative finite doubles with an exact sum between 2^-999 and
    2^999, the expected value is finite and lies between
    minFmv * (1 - 2^-12) - 2^-1000 and maxFmv * (1 + 2^-12) + 2^-1000,
    where minFmv and maxFmv are the least and the greatest fmv among the
    cards: between the two up to the tolerance of the normalizer and to
    rounding. *)
Theorem expectedValue_near_fmv_range (cards : list Card)
  (priceUsd : number) (least greatest : Card) :
  In least cards -> In greatest cards ->
  (forall c, In c cards ->
     isFinite (fmv c) = true /\
     le (fmv least) (fmv c) /\ le (fmv c) (fmv greatest)) ->
  nonneg (fmv least) -> R (fmv greatest) <= pow2 900 ->
  (Z.of_nat (List.length cards) <= 2 ^ 20)%Z ->
  (forall c, In c cards ->
     nonneg (probability c) /\ isFinite (probability c) = true /\
     representable (probability c)) ->
  pow2 (-999) <= exactSum probability cards ->
  exactSum probability cards <= pow2 999 ->
  let ev := expectedValue (metricsOf cards priceUsd) in
  isFinite ev = true /\
  R (fmv least) * (1 - pow2 (-12)) - pow2 (-1000) <= R ev /\
  R ev <= R (fmv greatest) * (1 + pow2 (-12)) + pow2 (-1000).
Proof.
  intros Hl Hg Hv Hn Hhi Hlen Hp Plo Phi.
  destruct (Hv least Hl) as (Fl & _ & _).
  destruct (Hv greatest Hg) as (Fg & _ & _).
  apply (expectedValue_near_average cards priceUsd
           (R (fmv least)) (R (fmv greatest))); try assumption.
  - intros c Hc. destruct (Hv c Hc) as (Fc & Lc & Gc).
    split; [exact Fc |].
    split; [apply (le_finite _ _ Fl Fc), Lc | apply (le_finite _ _ Fc Fg), Gc].
  - apply nonneg_R; assumption.
Qed.

Lemma expectedValue_near_fmv_range_witness :
  let least := mkCard "common"%string (lit 1) (lit (1 # 2)) in
  let greatest := mkCard "chase"%string (lit 100) (lit (2 # 10)) in
  let ev := expectedValue (metricsOf scenario (lit 5)) in
  In least scenario /\ In greatest scenario /\
  isFinite ev = true /\
  R (fmv least) * (1 - pow2 (-12)) - pow2 (-1000) <= R ev /\
  R ev <= R (fmv greatest) * (1 + pow2 (-12)) + pow2 (-1000).
Proof.
  cbv zeta.
  assert (Hl : In (mkCard "common"%string (lit 1) (lit (1 # 2))) scenario)
    by (left; reflexivity).
  assert (Hg : In (mkCard "chase"%string (lit 100) (lit (2 # 10))) scenario)
    by (right; right; left; reflexivity).
  split; [exact Hl |]. split; [exact Hg |].
  apply (expectedValue_near_fmv_range scenario (lit 5) _ _ Hl Hg).
  - intros c H.
    repeat (destruct H as [<- | H];
            [vm_compute; repeat split; reflexivity |]).
    destruct H.
  - vm_compute. reflexivity.
  - apply Qle_bool_iff. vm_compute. reflexivity.
  - vm_compute. discriminate.
  - exact scenario_ok.
  - apply Qle_bool_iff. vm_compute. reflexivity.
  - apply Qle_bool_iff. vm_compute. reflexivity.
Defined.

(** C7 fails on one card of fmv 10 and probability 1.0000005: the sum is
    within 1e-6 of 1, the scale is 1, and the expected value, about
    10.000005, is above the only fmv.  It fails also, by rounding, on three cards of
    fmv 3 and probabilities 0.1, 0.7 and 0.2, whose scaled probabilities
    sum to 1: the expected value is 2.9999999999999996. *)
Lemma expectedValue_above_max_fmv :
  let m := metricsOf nearlyOne (lit 5) in
  let m3 := metricsOf allWorthThree (lit 5) in
  (forall c, In c nearlyOne ->
     fmv c = lit 10 /\ nonneg (fmv c) /\ nonneg (probability c)) /\
  probScale m = n1 /\
  expectedValue m = Fin (703687793620361 # 70368744177664) /\
  leb (expectedValue m) (lit 10) = false /\
  (forall c, In c allWorthThree ->
     fmv c = lit 3 /\ nonneg (fmv c) /\ nonneg (probability c)) /\
  eqb (scaledMass allWorthThree (probabilityScale allWorthThree)) n1
  = true /\
  expectedValue m3 = Fin (6755399441055743 # 2251799813685248) /\
  leb (lit 3) (expectedValue m3) = false.
Proof.
  split; [each_card |].
  split; [vm_compute; reflexivity |].
  split; [vm_compute; reflexivity |].
  split; [vm_compute; reflexivity |].
  split; [each_card |].
  vm_compute. repeat split; reflexivity.
Qed.

(** C8, as the code has it.  computeMetrics validates nothing: for every
    price, zero and negative ones too, it returns the metrics, with
    costOfPack the price and the three percentages the quotients by the
    price times 100; when the price is zero none of the three is
    finite. *)
Theorem computeMetrics_divides_by_any_price (s : Store) (cards : ref)
  (cs : list Card) (priceUsd : number) :
  nth_error s cards = Some cs ->
  exists m s',
    computeMetrics cards priceUsd s = Some (m, s') /\
    costOfPack m = priceUsd /\
    evPercent m = mul (div (expectedValue m) priceUsd) n100 /\
    profitPercent m
    = mul (div (sub (expectedValue m) priceUsd) priceUsd) n100 /\
    medianPercent m
    = mul (div (sub (medianValue m) priceUsd) priceUsd) n100 /\
    (isZero priceUsd = true ->
     isFinite (evPercent m) = false /\
     isFinite (profitPercent m) = false /\
     isFinite (medianPercent m) = false).
Proof.
  intro H. exists (metricsOf cs priceUsd), (s ++ [sortByFmv cs]).
  split; [apply computeMetrics_run, H |].
  repeat (split; [reflexivity |]).
  intro Z. cbn [metricsOf metricsRecord evPercent profitPercent medianPercent].
  repeat split; apply mul_100_not_finite, div_by_zero, Z.
Qed.

Lemma computeMetrics_divides_by_any_price_witness :
  exists m s',
    computeMetrics 0%nat (lit (-5)) [scenario] = Some (m, s') /\
    costOfPack m = lit (-5) /\
    evPercent m = mul (div (expectedValue m) (lit (-5))) n100.
Proof.
  destruct (computeMetrics_divides_by_any_price [scenario] 0%nat scenario
              (lit (-5)) eq_refl) as (m & s' & A & B & C & _).
  exists m, s'. split; [exact A | split; [exact B | exact C]].
Defined.

(** C8 fails at price 0 on the scenario: computeMetrics returns, and the
    divisions by the price were made: the three percentages are
    +Infinity. *)
Lemma zero_price_is_divided_by :
  exists m s',
    leb n0 n0 = true /\
    computeMetrics 0%nat n0 [scenario] = Some (m, s') /\
    costOfPack m = n0 /\
    expectedValue m = Fin (47 # 2) /\
    evPercent m = PosInf /\ profitPercent m = PosInf /\
    medianPercent m = PosInf.
Proof.
  eexists. eexists.
  split; [reflexivity |]. split; [vm_compute; reflexivity |].
  vm_compute. repeat split; reflexivity.
Qed.

(** C9.  computeMetrics and buildProfitCurve return, and leave the array
    they were given, and every other array of the store, as it was: the
    array they sort is a new one. *)
Theorem cards_array_unchanged (s : Store) (cards : ref) (cs : list Card)
  (priceUsd scale : number) :
  nth_error s cards = Some cs ->
  (exists m s',
     computeMetrics cards priceUsd s = Some (m, s') /\
     nth_error s' cards = Some cs /\
     forall r other, nth_error s r = Some other -> nth_error s' r = Some other)
  /\
  (exists curve s',
     buildProfitCurve cards priceUsd scale s = Some (curve, s') /\
     nth_error s' cards = Some cs /\
     forall r other, nth_error s r = Some other -> nth_error s' r = Some other).
Proof.
  intro H.
  assert (Fr : forall r other,
             nth_error s r = Some other ->
             nth_error (s ++ [sortByFmv cs]) r = Some other).
  { intros r other Hr. rewrite nth_error_app1; [exact Hr |].
    apply nth_error_Some. congruence. }
  split.
  - exists (metricsOf cs priceUsd), (s ++ [sortByFmv cs]).
    split; [apply computeMetrics_run, H | split; [apply Fr, H | exact Fr]].
  - exists (curveOf cs priceUsd scale), (s ++ [sortByFmv cs]).
    split; [apply buildProfitCurve_run, H | split; [apply Fr, H | exact Fr]].
Qed.

Lemma cards_array_unchanged_witness :
  exists m s',
    computeMetrics 0%nat (lit 5) [descending; scenario] = Some (m, s') /\
    nth_error s' 0%nat = Some descending /\
    nth_error s' 1%nat = Some scenario.
Proof.
  destruct (cards_array_unchanged [descending; scenario] 0%nat descending
              (lit 5) n1 eq_refl) as [(m & s' & A & B & C) _].
  exists m, s'. split; [exact A | split; [exact B |]].
  apply C. reflexivity.
Defined.

(** C10.  For the empty list computeMetrics returns expectedValue 0,
    medianValue 0 and oddsOverCost 0, all finite, whatever the price, and
    the scale it computed, 1 / 0, is +Infinity. *)
Theorem computeMetrics_empty (priceUsd : number) :
  let m := metricsOf [] priceUsd in
  expectedValue m = n0 /\ medianValue m = n0 /\ oddsOverCost m = n0 /\
  isFinite (expectedValue m) = true /\ isFinite (medianValue m) = true /\
  isFinite (oddsOverCost m) = true /\
  probScale m = PosInf /\ isFinite (probScale m) = false.
Proof. vm_compute. repeat split; reflexivity. Qed.

(* ===================================================================== *)
(** * Part 6. Further facts                                               *)
(* ===================================================================== *)

(** ** The metrics *)

(** X1.  The sorted copy holds the same cards, in ascending order of fmv,
    as long as no fmv is NaN. *)
Theorem sorted_copy_ascending (cards : list Card) :
  Forall wellFormed cards ->
  Permutation (sortByFmv cards) cards /\
  StronglySorted ascending (sortByFmv cards).
Proof. apply sortByFmv_sorted. Qed.

Lemma sorted_copy_ascending_witness :
  Permutation (sortByFmv (rev scenario)) (rev scenario) /\
  StronglySorted ascending (sortByFmv (rev scenario)).
Proof.
  apply (sorted_copy_ascending (rev scenario)).
  repeat constructor; apply F_representable.
Defined.

(** X2.  The script computes what the dashboard computes: every value it
    prints is the metric of the same name. *)
Theorem script_matches_dashboard (cards : list Card) (price : number) :
  let r := Script.calculateExpectedValue cards price in
  let m := metricsOf cards price in
  Script.expectedCardValue r = expectedValue m /\
  Script.medianCardValue r = medianValue m /\
  Script.costOfPack r = costOfPack m /\
  Script.expectedProfit r = profit m /\
  Script.evPercent r = evPercent m /\
  Script.profitPercent r = profitPercent m /\
  Script.oddsOverCostPercent r = oddsOverCost m.
Proof.
  pose proof (script_agrees cards price) as (A & B & C & D & E & G).
  repeat split; assumption || reflexivity.
Qed.

(** X3.  When no probability is negative (or NaN), the raw sum and the
    scale of the normalizer are neither negative nor NaN; the scale is
    +Infinity when the raw sum is zero, and +0 when the raw sum is
    +Infinity. *)
Theorem scale_of_nonnegative_probabilities (cards : list Card) :
  (forall c, In c cards -> nonneg (probability c)) ->
  nonneg (rawSum cards) /\
  nonneg (probabilityScale cards) /\
  isNaN (probabilityScale cards) = false /\
  (isZero (rawSum cards) = true -> probabilityScale cards = PosInf) /\
  (isFinite (rawSum cards) = false -> probabilityScale cards = n0).
Proof.
  intro Hp.
  destruct (rawSum_sign cards n0 Hp) as [Hn Hs]; try reflexivity.
  cbv zeta in Hn, Hs. fold (rawSum cards) in Hn, Hs.
  pose proof (probabilityScale_nonneg cards Hp) as Hsc.
  split; [exact Hn |]. split; [exact Hsc |].
  split; [apply nonneg_not_NaN, Hsc |].
  split.
  - intro Z. rewrite (probabilityScale_zero_sum cards Z), Hs. reflexivity.
  - intro Hf. destruct (nonneg_cases _ Hn) as [E | [Ff _]]; [| congruence].
    unfold probabilityScale. rewrite E. vm_compute. reflexivity.
Qed.

Lemma scale_of_nonnegative_probabilities_witness :
  nonneg (probabilityScale threeAlike) /\
  isNaN (probabilityScale threeAlike) = false.
Proof.
  destruct (scale_of_nonnegative_probabilities threeAlike) as (_ & A & B & _).
  - each_card.
  - split; [exact A | exact B].
Defined.

(** X4.  The normalizer normalizes.  For at most 2^20 cards whose
    probabilities are non-negative finite doubles with an exact sum
    between 2^-999 and 2^999, the scale is finite and not negative, and
    the scaled probabilities, summed one after the other in any order
    (the code sums them in the order of the payload and in the order of
    the sorted copy), give a finite total within 2^-13 of 1: the two
    tolerance branches leave it within their tolerance of 1, rounding
    does the rest.  When the scale is 1 / rawSum, the total is within
    n * 2^-49 of 1 for n cards. *)
Theorem normalizer_normalizes (cards order : list Card) :
  Permutation order cards ->
  (Z.of_nat (List.length cards) <= 2 ^ 20)%Z ->
  (forall c, In c cards ->
     nonneg (probability c) /\ isFinite (probability c) = true /\
     representable (probability c)) ->
  pow2 (-999) <= exactSum probability cards ->
  exactSum probability cards <= pow2 999 ->
  let scale := probabilityScale cards in
  let mass := scaledMass order scale in
  isFinite scale = true /\ nonneg scale /\ isFinite mass = true /\
  1 - pow2 (-13) <= R mass /\ R mass <= 1 + pow2 (-13) /\
  (scale = div n1 (rawSum cards) ->
   1 - cardCount cards * pow2 (-49) <= R mass /\
   R mass <= 1 + cardCount cards * pow2 (-49)).
Proof.
  intros Perm Hlen Hp Plo Phi scale mass.
  destruct (normalized_weights cards order Perm Hlen Hp Plo Phi)
    as [(A & B & C & _ & D & E & _) Last].
  split; [exact A |]. split; [exact B |]. split; [exact C |].
  split; [exact D |]. split; [exact E |].
  intro Hs. destruct (Last Hs) as (_ & _ & _ & _ & G1 & G2 & _).
  split; assumption.
Qed.

Lemma normalizer_normalizes_witness :
  1 - pow2 (-13)
  <= R (scaledMass (rev threeAlike) (probabilityScale threeAlike)) /\
  R (scaledMass (rev threeAlike) (probabilityScale threeAlike))
  <= 1 + pow2 (-13).
Proof.
  destruct (normalizer_normalizes threeAlike (rev threeAlike))
    as (_ & _ & _ & A & B & _).
  - apply Permutation_sym, Permutation_rev.
  - vm_compute. discriminate.
  - exact threeAlike_ok.
  - apply Qle_bool_iff. vm_compute. reflexivity.
  - apply Qle_bool_iff. vm_compute. reflexivity.
  - split; [exact A | exact B].
Defined.

(** X5.  For the same distributions, whatever the price, oddsOverCost
    and the pull percentage of every row of the table lie between 0 and
    100.01220703125, that is 100 * (1 + 2^-13). *)
Theorem percentages_within_100 (cards : list Card) (priceUsd : number)
  (card : Card) :
  (Z.of_nat (List.length cards) <= 2 ^ 20)%Z ->
  (forall c, In c cards ->
     nonneg (probability c) /\ isFinite (probability c) = true /\
     representable (probability c)) ->
  pow2 (-999) <= exactSum probability cards ->
  exactSum probability cards <= pow2 999 ->
  In card cards ->
  let m := metricsOf cards priceUsd in
  le n0 (oddsOverCost m) /\ le (oddsOverCost m) (Fin (204825 # 2048)) /\
  le n0 (chance card m) /\ le (chance card m) (Fin (204825 # 2048)).
Proof.
  intros Hlen Hp Plo Phi Hin m.
  destruct (normalized_weights cards cards (Permutation_refl _)
              Hlen Hp Plo Phi)
    as [(_ & _ & Fm & _ & _ & Mh & _) _].
  cbv zeta in Fm, Mh.
  set (scale := probabilityScale cards) in *.
  set (mass := scaledMass cards scale) in *.
  assert (Hpn : forall c, In c cards -> nonneg (probability c))
    by (intros c Hc; apply (Hp c Hc)).
  pose proof (scaled_nonneg cards Hpn (finite_not_NaN _ Fm)) as Hw.
  fold scale in Hw.
  assert (Hm : le mass (Fin (1 + pow2 (-13)))).
  { apply le_finite; [exact Fm | reflexivity | exact Mh]. }
  assert (Up : forall x, le x mass -> le (mul x n100) (Fin (204825 # 2048))).
  { intros x Hx. rewrite <- hundred_and_a_bit, n100_eq.
    apply mul_pos_mono; [reflexivity |]. eapply le_trans; eassumption. }
  assert (Lo : forall x, nonneg x -> le n0 (mul x n100)).
  { intros x Hx. change n0 with (mul n0 n100). rewrite n100_eq.
    apply mul_pos_mono; [reflexivity | exact Hx]. }
  destruct (oddsSum_le_mass cards scale priceUsd n0 n0 Hw)
    as [On Om]; try reflexivity.
  { exact isDouble_0. }
  cbv zeta in On, Om.
  fold (oddsSum cards scale priceUsd) in On, Om.
  fold (scaledMass cards scale) in Om. fold mass in Om.
  split; [exact (Lo _ On) |]. split; [exact (Up _ Om) |].
  split.
  - apply Lo, Hw, Hin.
  - apply Up. apply term_le_mass; [exact Hw | reflexivity | exact Hin].
Qed.

Lemma percentages_within_100_witness :
  let rare := mkCard "b"%string (lit 2) (lit 1) in
  le (oddsOverCost (metricsOf threeAlike (lit 2))) (Fin (204825 # 2048)) /\
  le (chance rare (metricsOf threeAlike (lit 2))) (Fin (204825 # 2048)).
Proof.
  destruct (percentages_within_100 threeAlike (lit 2)
              (mkCard "b"%string (lit 2) (lit 1)))
    as (_ & A & _ & B).
  - vm_compute. discriminate.
  - exact threeAlike_ok.
  - apply Qle_bool_iff. vm_compute. reflexivity.
  - apply Qle_bool_iff. vm_compute. reflexivity.
  - right. left. reflexivity.
  - split; [exact A | exact B].
Defined.

(** X6.  One card whose probability is NaN is enough: the scale, the
    expected value, the profit, EV percent and profit percent are NaN,
    the median is 0 as if no card had been seen, every pull percentage of
    the table is NaN and so is every y of the curve drawn with that
    scale.  Nothing is reported. *)
Theorem malformed_probability_spreads (cards : list Card)
  (priceUsd : number) (card : Card) :
  In card cards -> probability card = NaN ->
  let m := metricsOf cards priceUsd in
  probScale m = NaN /\ expectedValue m = NaN /\ medianValue m = n0 /\
  profit m = NaN /\ evPercent m = NaN /\ profitPercent m = NaN /\
  (forall c, In c cards -> chance c m = NaN) /\
  Forall (fun pt => CurvePoint.y pt = NaN)
    (curveOf cards (costOfPack m) (probScale m)).
Proof.
  intros Hin E m.
  assert (Hs : probabilityScale cards = NaN).
  { apply probabilityScale_NaN. exact (rawSum_NaN cards n0 card Hin E). }
  assert (Hne : cards <> []) by (intro N; rewrite N in Hin; destruct Hin).
  assert (Hev : expectedValue m = NaN).
  { unfold m. cbn [metricsOf metricsRecord expectedValue]. rewrite Hs.
    apply expectedValueOf_NaN_scale, Hne. }
  assert (Hpr : profit m = NaN).
  { change (profit m) with (sub (expectedValue m) priceUsd).
    rewrite Hev. reflexivity. }
  split; [exact Hs |]. split; [exact Hev |].
  split.
  { unfold m. cbn [metricsOf metricsRecord medianValue]. rewrite Hs.
    apply medianLoop_NaN_scale. }
  split; [exact Hpr |].
  split.
  { change (evPercent m) with (mul (div (expectedValue m) priceUsd) n100).
    rewrite Hev. reflexivity. }
  split.
  { change (profitPercent m) with (mul (div (profit m) priceUsd) n100).
    rewrite Hpr. reflexivity. }
  split.
  { intros c _. unfold chance.
    change (probScale m) with (probabilityScale cards).
    rewrite Hs, mul_NaN_r. reflexivity. }
  change (probScale m) with (probabilityScale cards).
  change (costOfPack m) with priceUsd. rewrite Hs.
  unfold curveOf, curveFrom.
  assert (Hm : scaledMass (sortByFmv cards) NaN = NaN).
  { apply (mass_NaN_term _ _ _ card); [apply sortByFmv_In, Hin |].
    apply mul_NaN_r. }
  rewrite Hm. apply curveWalk_NaN.
Qed.

Lemma malformed_probability_spreads_witness :
  probScale (metricsOf malformed (lit 5)) = NaN /\
  expectedValue (metricsOf malformed (lit 5)) = NaN /\
  medianValue (metricsOf malformed (lit 5)) = n0.
Proof.
  destruct (malformed_probability_spreads malformed (lit 5)
              (mkCard "rare"%string (lit 10) NaN))
    as (A & B & C & _).
  - right. left. reflexivity.
  - reflexivity.
  - split; [exact A | split; [exact B | exact C]].
Defined.

(** X7.  When the running total over the whole sorted copy is >= 0.5, the
    loop breaks: the median is the fmv of one of the cards, not the
    initial 0. *)
Theorem median_is_a_card_value (cards : list Card) (priceUsd : number) :
  geb (scaledMass (sortByFmv cards) (probabilityScale cards)) n0_5 = true ->
  exists card,
    In card cards /\ medianValue (metricsOf cards priceUsd) = fmv card.
Proof.
  intro H.
  destruct (medianLoop_spec (sortByFmv cards) [] (probabilityScale cards))
    as [(pre & card & post & E & _ & _ & Hm) | [Hall _]].
  - intros k Hk. simpl in Hk. replace k with 0%nat by lia. reflexivity.
  - exists card. split; [| exact Hm].
    apply sortByFmv_In. cbn [app] in E. rewrite E.
    apply in_or_app. right. left. reflexivity.
  - specialize (Hall (List.length (sortByFmv cards))).
    cbn [app] in Hall. rewrite firstn_all in Hall. congruence.
Qed.

Lemma median_is_a_card_value_witness :
  exists card,
    In card scenario /\ medianValue (metricsOf scenario (lit 5)) = fmv card.
Proof.
  apply (median_is_a_card_value scenario (lit 5)).
  vm_compute; reflexivity.
Defined.

(** X8.  For at most 2^20 cards whose probabilities are non-negative
    finite doubles with an exact sum between 2^-999 and 2^999, the
    running total does reach 0.5 on the sorted copy: the median is the
    fmv of one of the cards, whatever the fmv are. *)
Theorem median_of_a_distribution (cards : list Card) (priceUsd : number) :
  (Z.of_nat (List.length cards) <= 2 ^ 20)%Z ->
  (forall c, In c cards ->
     nonneg (probability c) /\ isFinite (probability c) = true /\
     representable (probability c)) ->
  pow2 (-999) <= exactSum probability cards ->
  exactSum probability cards <= pow2 999 ->
  exists card,
    In card cards /\ medianValue (metricsOf cards priceUsd) = fmv card.
Proof.
  intros Hlen Hp Plo Phi.
  destruct (normalized_weights cards (sortByFmv cards)
              (sortWith_perm byFmv cards) Hlen Hp Plo Phi)
    as [(_ & _ & Fm & _ & Ml & _) _].
  pose proof pow2_13 as H13.
  assert (Half : geb (scaledMass (sortByFmv cards) (probabilityScale cards))
                   n0_5 = true).
  { unfold geb. rewrite n0_5_eq.
    apply le_finite; [reflexivity | exact Fm |]. cbn [R]. lra. }
  destruct (medianLoop_spec (sortByFmv cards) [] (probabilityScale cards))
    as [(pre & card & post & E & _ & _ & Hm) | [Hall _]].
  - intros k Hk. simpl in Hk. replace k with 0%nat by lia. reflexivity.
  - exists card. split; [| exact Hm].
    apply sortByFmv_In. cbn [app] in E. rewrite E.
    apply in_or_app. right. left. reflexivity.
  - specialize (Hall (List.length (sortByFmv cards))).
    cbn [app] in Hall. rewrite firstn_all in Hall. congruence.
Qed.

Lemma median_of_a_distribution_witness :
  exists card,
    In card threeAlike /\
    medianValue (metricsOf threeAlike (lit 2)) = fmv card.
Proof.
  apply (median_of_a_distribution threeAlike (lit 2)).
  - vm_compute. discriminate.
  - exact threeAlike_ok.
  - apply Qle_bool_iff. vm_compute. reflexivity.
  - apply Qle_bool_iff. vm_compute. reflexivity.
Defined.

(** X9.  The expected value is a weighted average, up to rounding.  For
    the same distributions and finite fmv between [lo >= 0] and
    [hi <= 2^900], the expected value is finite and lies between
    [lo * (1 - 2^-12) - 2^-1000] and [hi * (1 + 2^-12) + 2^-1000]. *)
Theorem expectedValue_between_least_and_greatest (cards : list Card)
  (priceUsd : number) (lo hi : Q) :
  (Z.of_nat (List.length cards) <= 2 ^ 20)%Z ->
  (forall c, In c cards ->
     nonneg (probability c) /\ isFinite (probability c) = true /\
     representable (probability c)) ->
  pow2 (-999) <= exactSum probability cards ->
  exactSum probability cards <= pow2 999 ->
  (forall c, In c cards ->
     isFinite (fmv c) = true /\ lo <= R (fmv c) /\ R (fmv c) <= hi) ->
  0 <= lo -> hi <= pow2 900 ->
  let ev := expectedValue (metricsOf cards priceUsd) in
  isFinite ev = true /\
  lo * (1 - pow2 (-12)) - pow2 (-1000) <= R ev /\
  R ev <= hi * (1 + pow2 (-12)) + pow2 (-1000).
Proof. exact (expectedValue_near_average cards priceUsd lo hi). Qed.

Lemma expectedValue_between_least_and_greatest_witness :
  1 * (1 - pow2 (-12)) - pow2 (-1000)
  <= R (expectedValue (metricsOf scenario (lit 5))) /\
  R (expectedValue (metricsOf scenario (lit 5)))
  <= 100 * (1 + pow2 (-12)) + pow2 (-1000).
Proof.
  destruct (expectedValue_between_least_and_greatest scenario (lit 5) 1 100)
    as (_ & A & B).
  - vm_compute. discriminate.
  - exact scenario_ok.
  - apply Qle_bool_iff. vm_compute. reflexivity.
  - apply Qle_bool_iff. vm_compute. reflexivity.
  - intros c H.
    repeat (destruct H as [<- | H];
            [split; [reflexivity |
                     split; apply Qle_bool_iff; vm_compute; reflexivity] |]).
    destruct H.
  - apply Qle_bool_iff. vm_compute. reflexivity.
  - apply Qle_bool_iff. vm_compute. reflexivity.
  - split; [exact A | exact B].
Defined.

(** X10.  A higher price never gives higher odds: with non-negative
    probabilities whose scaled sum is not NaN, oddsOverCost at [price2] is
    [<=] oddsOverCost at [price1] whenever [price1 <= price2]. *)
Theorem oddsOverCost_antitone (cards : list Card) (price1 price2 : number) :
  (forall c, In c cards -> nonneg (probability c)) ->
  isNaN (scaledMass cards (probabilityScale cards)) = false ->
  le price1 price2 ->
  le (oddsOverCost (metricsOf cards price2))
     (oddsOverCost (metricsOf cards price1)).
Proof.
  intros Hp Hn H12.
  pose proof (scaled_nonneg cards Hp Hn) as Hw.
  cbn [metricsOf metricsRecord oddsOverCost]. unfold oddsOverCostOf.
  rewrite n100_eq. apply mul_pos_mono; [reflexivity |].
  unfold oddsSum.
  apply (oddsSum_antitone cards (probabilityScale cards) price1 price2 n0 n0);
    try assumption; try reflexivity.
  exact isDouble_0.
Qed.

Lemma oddsOverCost_antitone_witness :
  le (oddsOverCost (metricsOf scenario (lit 50)))
     (oddsOverCost (metricsOf scenario (lit 5))).
Proof.
  apply (oddsOverCost_antitone scenario (lit 5) (lit 50)).
  - each_card.
  - vm_compute; reflexivity.
  - vm_compute; reflexivity.
Defined.

(** X11.  The two ends of oddsOverCost: it is 0 when no card is worth the
    price (every [fmv >= priceUsd] is false, as it is for a NaN price),
    and 100 times the sum of all scaled probabilities when every card is
    worth it. *)
Theorem oddsOverCost_extremes (cards : list Card) (priceUsd : number) :
  let m := metricsOf cards priceUsd in
  ((forall c, In c cards -> geb (fmv c) priceUsd = false) ->
   oddsOverCost m = n0) /\
  ((forall c, In c cards -> geb (fmv c) priceUsd = true) ->
   oddsOverCost m = mul (scaledMass cards (probScale m)) n100).
Proof.
  cbn [metricsOf metricsRecord oddsOverCost probScale]. unfold oddsOverCostOf, oddsSum.
  split; intro H.
  - rewrite oddsSum_none by exact H. reflexivity.
  - rewrite oddsSum_all by exact H. reflexivity.
Qed.

(** X12.  For a positive finite price the percentages of computeMetrics are
    on the side of the price the values are on.  If the expected value is
    >= the price, profit and profitPercent are >= 0, evPercent is >= 100,
    and the chip of TierSection is not negative and carries a plus sign;
    if it is <= the price they are <= 0, <= 100 and <= 0.  The same holds
    for the median and medianPercent.  A negative chip is shown only
    when the value is not >= the price. *)
Theorem percentages_follow_the_price (cards : list Card) (c : Q) :
  0 < c ->
  let m := metricsOf cards (Fin c) in
  (le (Fin c) (expectedValue m) ->
     le n0 (profit m) /\ le n100 (evPercent m) /\ le n0 (profitPercent m) /\
     chipClass (profitPercent m) = ""%string /\
     signPrefix (profitPercent m) = "+"%string) /\
  (le (expectedValue m) (Fin c) ->
     le (profit m) n0 /\ le (evPercent m) n100 /\ le (profitPercent m) n0) /\
  (le (Fin c) (medianValue m) ->
     le n0 (medianPercent m) /\
     chipClass (medianPercent m) = ""%string /\
     signPrefix (medianPercent m) = "+"%string) /\
  (le (medianValue m) (Fin c) -> le (medianPercent m) n0) /\
  (chipClass (profitPercent m) = "negative"%string ->
     leb (Fin c) (expectedValue m) = false) /\
  (chipClass (medianPercent m) = "negative"%string ->
     leb (Fin c) (medianValue m) = false).
Proof.
  intros Hc m.
  set (ev := expectedValue m). set (md := medianValue m).
  assert (Epr : profit m = sub ev (Fin c)) by reflexivity.
  assert (Eev : evPercent m = mul (div ev (Fin c)) n100) by reflexivity.
  assert (Epp : profitPercent m = mul (div (sub ev (Fin c)) (Fin c)) n100)
    by reflexivity.
  assert (Emp : medianPercent m = mul (div (sub md (Fin c)) (Fin c)) n100)
    by reflexivity.
  rewrite Epr, Eev, Epp, Emp. clearbody ev md. clear Epr Eev Epp Emp.
  assert (Up : forall v, le (Fin c) v ->
            le n0 (mul (div (sub v (Fin c)) (Fin c)) n100)).
  { intros v H. rewrite <- (percent_at_price c Hc). apply percent_mono; assumption. }
  assert (Down : forall v, le v (Fin c) ->
            le (mul (div (sub v (Fin c)) (Fin c)) n100) n0).
  { intros v H. rewrite <- (percent_at_price c Hc).
    apply percent_mono; assumption. }
  assert (Chip : forall v, le (Fin c) v ->
            chipClass (mul (div (sub v (Fin c)) (Fin c)) n100) = ""%string /\
            signPrefix (mul (div (sub v (Fin c)) (Fin c)) n100) = "+"%string).
  { intros v H. pose proof (Up v H) as G. unfold chipClass, signPrefix, geb.
    unfold le in G. rewrite G. split; reflexivity. }
  assert (Neg : forall v,
            chipClass (mul (div (sub v (Fin c)) (Fin c)) n100)
            = "negative"%string -> leb (Fin c) v = false).
  { intros v H. destruct (leb (Fin c) v) eqn:E; [| reflexivity].
    destruct (Chip v E) as [G _]. rewrite G in H. discriminate. }
  split; [| split; [| split; [| split; [| split]]]].
  - intro H. split; [| split; [| exact (conj (Up ev H) (Chip ev H))]].
    + unfold n0. rewrite <- (sub_self c).
      apply sub_mono_l; [reflexivity | exact H].
    + rewrite <- (ratio_at_price c Hc) at 1. apply ratio_mono; assumption.
  - intro H. split; [| split; [| exact (Down ev H)]].
    + unfold n0. rewrite <- (sub_self c).
      apply sub_mono_l; [reflexivity | exact H].
    + rewrite <- (ratio_at_price c Hc) at 2. apply ratio_mono; assumption.
  - intro H. exact (conj (Up md H) (Chip md H)).
  - exact (Down md).
  - exact (Neg ev).
  - exact (Neg md).
Qed.

Lemma percentages_follow_the_price_witness :
  le n100 (evPercent (metricsOf scenario (Fin 5))) /\
  chipClass (profitPercent (metricsOf scenario (Fin 5))) = ""%string /\
  le (medianPercent (metricsOf scenario (Fin 5))) n0.
Proof.
  destruct (percentages_follow_the_price scenario 5 eq_refl)
    as (A & _ & _ & B & _).
  destruct A as (_ & A1 & _ & A2 & _); [vm_compute; reflexivity |].
  split; [exact A1 | split; [exact A2 |]].
  apply B. vm_compute. reflexivity.
Defined.

(** X13.  With a positive price that is a double, non-negative
    probabilities, finite scaled probabilities and finite non-negative
    fmv, the expected value, the median and evPercent are >= 0, and
    profitPercent and medianPercent are >= -100: no more than the price
    is lost. *)
Theorem loss_at_most_the_price (cards : list Card) (c : Q) :
  0 < c -> isDouble c ->
  (forall card, In card cards ->
     nonneg (probability card) /\
     isFinite (mul (probability card) (probabilityScale cards)) = true /\
     nonneg (fmv card) /\ isFinite (fmv card) = true) ->
  let m := metricsOf cards (Fin c) in
  nonneg (expectedValue m) /\ nonneg (medianValue m) /\
  nonneg (evPercent m) /\
  le (Fin (-100)) (profitPercent m) /\ le (Fin (-100)) (medianPercent m).
Proof.
  intros Hc D H m.
  assert (Hp : forall card, In card cards -> nonneg (probability card))
    by (intros card Hin; apply (H card Hin)).
  pose proof (probabilityScale_nonneg cards Hp) as Hs.
  assert (Hev : nonneg (expectedValue m)).
  { unfold m. cbn [metricsOf metricsRecord expectedValue].
    apply expectedValue_nonneg_acc; [| reflexivity].
    intros card Hin. destruct (H card Hin) as (Pn & Wf & Vn & Vf).
    repeat split; try assumption.
    destruct (mul_nonneg_or_NaN _ _ Pn Hs) as [N | N]; [exact N |].
    rewrite N in Wf. discriminate. }
  assert (Hmd : nonneg (medianValue m)).
  { destruct (medianLoop_spec (sortByFmv cards) [] (probabilityScale cards))
      as [(pre & card & post & E & _ & _ & Hm) | [_ Hm]].
    - intros k Hk. simpl in Hk. replace k with 0%nat by lia. reflexivity.
    - change (medianValue m)
        with (medianLoop (sortByFmv cards) (probabilityScale cards) n0).
      change (scaledMass [] (probabilityScale cards)) with n0 in Hm.
      rewrite Hm. apply (H card). apply sortByFmv_In. cbn [app] in E.
      rewrite E. apply in_or_app. right. left. reflexivity.
    - change (medianValue m)
        with (medianLoop (sortByFmv cards) (probabilityScale cards) n0).
      change (scaledMass [] (probabilityScale cards)) with n0 in Hm.
      rewrite Hm. reflexivity. }
  split; [exact Hev |]. split; [exact Hmd |].
  split; [| split].
  - change (evPercent m) with (mul (div (expectedValue m) (Fin c)) n100).
    unfold nonneg. fold (le (Fin 0) (mul (div (expectedValue m) (Fin c)) n100)).
    replace (Fin 0) with (mul (div (Fin 0) (Fin c)) n100)
      by (rewrite (div_zero_pos c Hc); reflexivity).
    apply ratio_mono; assumption.
  - change (profitPercent m)
      with (mul (div (sub (expectedValue m) (Fin c)) (Fin c)) n100).
    eapply le_trans; [apply (percent_at_zero c Hc D) |].
    apply percent_mono; assumption.
  - change (medianPercent m)
      with (mul (div (sub (medianValue m) (Fin c)) (Fin c)) n100).
    eapply le_trans; [apply (percent_at_zero c Hc D) |].
    apply percent_mono; assumption.
Qed.

Lemma loss_at_most_the_price_witness :
  nonneg (expectedValue (metricsOf scenario (Fin 5))) /\
  le (Fin (-100)) (medianPercent (metricsOf scenario (Fin 5))).
Proof.
  destruct (loss_at_most_the_price scenario 5 eq_refl isDouble_5)
    as (A & _ & _ & _ & B).
  - each_card.
  - split; [exact A | exact B].
Defined.

(** ** The curve *)

(** X14.  As long as no fmv is NaN, the x values of the curve are in
    ascending order and none is below 0.01. *)
Theorem curve_x_ascending (cards : list Card) (priceUsd scale : number) :
  Forall wellFormed cards ->
  let xs := map CurvePoint.x (curveOf cards priceUsd scale) in
  Forall (fun x => le n0_01 x) xs /\ StronglySorted le xs.
Proof.
  intros H xs. destruct (sortByFmv_sorted cards H) as [P S].
  unfold xs, curveOf, curveFrom. rewrite curveWalk_x, n0_01_eq.
  split.
  - apply Forall_map.
    apply (Permutation_Forall (Permutation_sym P)).
    eapply Forall_impl; [| exact H].
    intros c [N _]. apply mathMax_floor, N.
  - apply (StronglySorted_map ascending); [| exact S].
    intros a b Hab. apply mathMax_mono, Hab.
Qed.

Lemma curve_x_ascending_witness :
  StronglySorted le (map CurvePoint.x (curveOf (rev scenario) (lit 5) n1)).
Proof.
  apply (curve_x_ascending (rev scenario) (lit 5) n1).
  repeat constructor; apply F_representable.
Defined.

(** X15.  For a positive finite price and cards whose fmv is not NaN, the
    profitPct values never decrease along the curve; a point whose x is
    >= the price has profitPct >= 0, and a point whose x is <= the price
    has profitPct <= 0. *)
Theorem curve_profitPct_ascending (cards : list Card) (c : Q)
  (scale : number) :
  0 < c -> Forall wellFormed cards ->
  let curve := curveOf cards (Fin c) scale in
  StronglySorted le (map CurvePoint.profitPct curve) /\
  Forall
    (fun pt =>
       (le (Fin c) (CurvePoint.x pt) -> le n0 (CurvePoint.profitPct pt)) /\
       (le (CurvePoint.x pt) (Fin c) -> le (CurvePoint.profitPct pt) n0))
    curve.
Proof.
  intros Hc H curve. destruct (sortByFmv_sorted cards H) as [P S].
  split.
  - unfold curve, curveOf, curveFrom. rewrite curveWalk_profitPct.
    apply (StronglySorted_map ascending); [| exact S].
    intros a b Hab. apply percent_mono; [exact Hc |].
    rewrite n0_01_eq. apply mathMax_mono, Hab.
  - unfold curve, curveOf, curveFrom.
    pose proof (curveWalk_points (sortByFmv cards) (Fin c) scale
                  (scaledMass (sortByFmv cards) scale)) as F2.
    clear P S.
    induction F2 as [| card pt sorted walk [_ Ep] _ IH]; constructor.
    + rewrite Ep. split; intro G.
      * rewrite <- (percent_at_price c Hc). apply percent_mono; assumption.
      * rewrite <- (percent_at_price c Hc). apply percent_mono; assumption.
    + exact IH.
Qed.

Lemma curve_profitPct_ascending_witness :
  StronglySorted le
    (map CurvePoint.profitPct (curveOf (rev scenario) (Fin 5) n1)).
Proof.
  apply (curve_profitPct_ascending (rev scenario) 5 n1 eq_refl).
  repeat constructor; apply F_representable.
Defined.

(** X16.  For at most 2^20 cards whose probabilities are non-negative
    finite doubles with an exact sum between 2^-999 and 2^999, the curve
    built with the scale of the normalizer starts within 100 * 2^-13 of
    100 and never goes above 100.01220703125: its first y is at least
    99.98779296875 and every y is at most 100 * (1 + 2^-13). *)
Theorem curve_within_100 (cards : list Card) (priceUsd : number) :
  (Z.of_nat (List.length cards) <= 2 ^ 20)%Z ->
  (forall c, In c cards ->
     nonneg (probability c) /\ isFinite (probability c) = true /\
     representable (probability c)) ->
  pow2 (-999) <= exactSum probability cards ->
  exactSum probability cards <= pow2 999 ->
  let ys :=
    map CurvePoint.y (curveOf cards priceUsd (probabilityScale cards)) in
  Forall (fun y => le y (Fin (204825 # 2048))) ys /\
  exists y0, nth_error ys 0 = Some y0 /\ le (Fin (204775 # 2048)) y0.
Proof.
  intros Hlen Hp Plo Phi ys.
  destruct (normalized_weights cards (sortByFmv cards)
              (sortWith_perm byFmv cards) Hlen Hp Plo Phi)
    as [(_ & Ns & Fm & _ & Ml & Mh & _) _].
  cbv zeta in Ns, Fm, Ml, Mh.
  set (scale := probabilityScale cards) in *.
  set (mass := scaledMass (sortByFmv cards) scale) in *.
  assert (Hw : forall c, In c (sortByFmv cards) ->
             nonneg (mul (probability c) scale)).
  { intros c Hc.
    destruct (mul_nonneg_or_NaN (probability c) scale) as [N | N];
      [apply (Hp c), sortByFmv_In, Hc | exact Ns | exact N |].
    pose proof (mass_NaN_term (sortByFmv cards) scale n0 c Hc N) as E.
    fold (scaledMass (sortByFmv cards) scale) in E. fold mass in E.
    rewrite E in Fm. discriminate. }
  destruct (curveWalk_nonIncreasing (sortByFmv cards) priceUsd scale mass Hw)
    as [Hall _].
  { apply mass_representable. exact isDouble_0. }
  { apply finite_not_NaN, Fm. }
  { apply finite_not_PosInf, Fm. }
  cbv zeta in Hall. fold (curveFrom (sortByFmv cards) priceUsd scale) in Hall.
  fold (curveOf cards priceUsd scale) in Hall. fold ys in Hall.
  assert (Hm : le mass (Fin (1 + pow2 (-13))))
    by (apply le_finite; [exact Fm | reflexivity | exact Mh]).
  assert (Hm' : le (Fin (1 - pow2 (-13))) mass)
    by (apply le_finite; [reflexivity | exact Fm | exact Ml]).
  assert (Up : le (mul mass n100) (Fin (204825 # 2048))).
  { rewrite <- hundred_and_a_bit, n100_eq.
    apply mul_pos_mono; [reflexivity | exact Hm]. }
  split.
  - eapply Forall_impl; [| exact Hall].
    intros y Hy. eapply le_trans; [exact Hy | exact Up].
  - assert (Hne : sortByFmv cards <> []).
    { intro E. pose proof (sortByFmv_length cards) as L. rewrite E in L.
      destruct cards; [| discriminate L].
      cbn in Plo. pose proof (pow2_pos (-999)). lra. }
    destruct (sortByFmv cards) as [| c rest] eqn:E; [congruence |].
    exists (mul mass n100). split.
    + unfold ys, curveOf, curveFrom. rewrite E. reflexivity.
    + rewrite <- hundred_less_a_bit, n100_eq.
      apply mul_pos_mono; [reflexivity | exact Hm'].
Qed.

Lemma curve_within_100_witness :
  Forall (fun y => le y (Fin (204825 # 2048)))
    (map CurvePoint.y
       (curveOf threeAlike (lit 2) (probabilityScale threeAlike))).
Proof.
  destruct (curve_within_100 threeAlike (lit 2)) as [A _].
  - vm_compute. discriminate.
  - exact threeAlike_ok.
  - apply Qle_bool_iff. vm_compute. reflexivity.
  - apply Qle_bool_iff. vm_compute. reflexivity.
  - exact A.
Defined.

(** X17.  When no fmv is NaN and no two different cards have the same
    fmv, the sorted copy, and with it the curve for a given price and
    scale, does not depend on the order of the cards in the payload. *)
Theorem curve_ignores_card_order (cards cards' : list Card)
  (priceUsd scale : number) :
  Permutation cards cards' ->
  Forall wellFormed cards ->
  (forall a b, In a cards -> In b cards ->
     eqb (fmv a) (fmv b) = true -> a = b) ->
  sortByFmv cards = sortByFmv cards' /\
  curveOf cards priceUsd scale = curveOf cards' priceUsd scale.
Proof.
  intros P W D.
  assert (W' : Forall wellFormed cards') by (apply (Permutation_Forall P), W).
  destruct (sortByFmv_sorted cards W) as [P1 S1].
  destruct (sortByFmv_sorted cards' W') as [P2 S2].
  assert (E : sortByFmv cards = sortByFmv cards').
  { apply sorted_unique; try assumption.
    - intros a b Ha Hb Hab Hba. apply D.
      + apply sortByFmv_In, Ha.
      + apply sortByFmv_In, Hb.
      + unfold eqb. unfold ascending, le in Hab, Hba. rewrite Hab, Hba.
        reflexivity.
    - eapply perm_trans; [exact P1 |].
      eapply perm_trans; [exact P | apply Permutation_sym, P2]. }
  split; [exact E |]. unfold curveOf. rewrite E. reflexivity.
Qed.

Lemma curve_ignores_card_order_witness :
  curveOf scenario (lit 5) n1 = curveOf (rev scenario) (lit 5) n1.
Proof.
  apply (curve_ignores_card_order scenario (rev scenario) (lit 5) n1).
  - apply Permutation_rev.
  - repeat constructor; apply F_representable.
  - intros a b Ha Hb.
    repeat (destruct Ha as [<- | Ha];
            [repeat (destruct Hb as [<- | Hb];
                     [vm_compute; intro; (reflexivity || discriminate) |]);
             destruct Hb |]).
    destruct Ha.
Defined.

(** ** TierSection and the tier of loadData *)

(** X18.  When the probabilities are non-negative and the scaled
    probabilities sum to 1 (the sum of the code, [===] 1), the pull
    percentage of every row of the table lies in [0, 100]. *)
Theorem pull_chance_bounded (cards : list Card) (priceUsd : number)
  (card : Card) :
  (forall c, In c cards -> nonneg (probability c)) ->
  eqb (scaledMass cards (probabilityScale cards)) n1 = true ->
  In card cards ->
  let pct := chance card (metricsOf cards priceUsd) in
  le n0 pct /\ le pct n100.
Proof.
  intros Hp Hm Hin.
  apply andb_prop in Hm. destruct Hm as [Hm1 _].
  destruct (le_not_NaN _ _ Hm1) as [Hn _].
  pose proof (scaled_nonneg cards Hp Hn) as Hw.
  unfold chance. cbn [metricsOf metricsRecord probScale].
  split.
  - change n0 with (mul n0 n100). rewrite n100_eq.
    apply mul_pos_mono; [reflexivity | exact (Hw card Hin)].
  - change n100 with (mul n1 n100) at 2. rewrite n100_eq.
    apply mul_pos_mono; [reflexivity |].
    eapply le_trans; [| exact Hm1].
    apply term_le_mass; [exact Hw | reflexivity | exact Hin].
Qed.

Lemma pull_chance_bounded_witness :
  let rare := mkCard "rare"%string (lit 10) (lit (3 # 10)) in
  le n0 (chance rare (metricsOf scenario (lit 5))) /\
  le (chance rare (metricsOf scenario (lit 5))) n100.
Proof.
  apply (pull_chance_bounded scenario (lit 5)).
  - each_card.
  - vm_compute; reflexivity.
  - right. left. reflexivity.
Defined.

(** X19.  What loadData builds for a tier whose payload has an array:
    the metrics of the cards at the price, and the curve of the same
    cards for the costOfPack and the probScale of these metrics, one
    point per card.  The array of the payload and every other array are
    left as they were.  TierSection then shows the table and a chart of
    all the points when there is a card, and the text for no card data
    when the array is empty. *)
Theorem tier_pipeline (s : Store) (cards : ref) (cs : list Card)
  (name : string) (priceUsd : number) :
  nth_error s cards = Some cs ->
  exists tier s',
    loadTier name (Some cards) priceUsd s = Some (tier, s') /\
    Tier.tierName tier = name /\ Tier.cards tier = cards /\
    Tier.metrics tier = metricsOf cs priceUsd /\
    Tier.curve tier = curveOf cs priceUsd (probabilityScale cs) /\
    List.length (Tier.curve tier) = List.length cs /\
    nth_error s' cards = Some cs /\
    (forall r other,
       nth_error s r = Some other -> nth_error s' r = Some other) /\
    tierSection tier s'
    = Some (match cs with
            | [] => NoCardData
            | _ => CardTable
                     (map (fun card => chance card (Tier.metrics tier)) cs)
                     (Some (map (fun pt => (CurvePoint.x pt, CurvePoint.y pt))
                              (Tier.curve tier)))
            end, s').
Proof.
  intro H. eexists. eexists.
  split; [apply loadTier_run, H |]. cbn [Tier.tierName Tier.cards Tier.metrics Tier.curve].
  repeat (split; [reflexivity |]).
  split; [apply curveOf_length |].
  split; [apply nth_error_grown, H |].
  split; [intros r other Hr; apply nth_error_grown, Hr |].
  unfold tierSection, bind, ret. cbn [Tier.tierName Tier.cards Tier.metrics Tier.curve].
  rewrite (elements_run _ cards cs) by (apply nth_error_grown, H).
  unfold tierBody. destruct cs as [| c rest]; [reflexivity |].
  unfold chartData.
  pose proof (curveOf_length (c :: rest) priceUsd
                (probabilityScale (c :: rest))) as L.
  destruct (curveOf (c :: rest) priceUsd (probabilityScale (c :: rest)));
    [discriminate L | reflexivity].
Qed.

Lemma tier_pipeline_witness :
  exists tier s',
    loadTier "Starter" (Some 0%nat) (lit 5) [scenario] = Some (tier, s') /\
    List.length (Tier.curve tier) = 3%nat /\
    nth_error s' 0%nat = Some scenario.
Proof.
  destruct (tier_pipeline [scenario] 0%nat scenario "Starter" (lit 5) eq_refl)
    as (tier & s' & A & _ & _ & _ & _ & B & C & _).
  exists tier, s'. split; [exact A | split; [exact B | exact C]].
Defined.

(** X20.  A payload without [data] gives a tier like one with no cards:
    a new empty array, expected value, median and odds 0, an empty curve,
    and TierSection shows the text for no card data. *)
Theorem missing_data_is_an_empty_tier (s : Store) (name : string)
  (priceUsd : number) :
  exists tier s',
    loadTier name None priceUsd s = Some (tier, s') /\
    nth_error s' (Tier.cards tier) = Some [] /\
    nth_error s (Tier.cards tier) = None /\
    Tier.metrics tier = metricsOf [] priceUsd /\
    expectedValue (Tier.metrics tier) = n0 /\
    medianValue (Tier.metrics tier) = n0 /\
    oddsOverCost (Tier.metrics tier) = n0 /\
    Tier.curve tier = [] /\
    tierSection tier s' = Some (NoCardData, s') /\
    (forall r other,
       nth_error s r = Some other -> nth_error s' r = Some other).
Proof.
  eexists. eexists.
  assert (E : loadTier name None priceUsd s
              = Some (Tier.mk name (List.length s) (metricsOf [] priceUsd)
                        (curveOf [] priceUsd (probabilityScale [])),
                      (s ++ [[]]) ++ [sortByFmv []] ++ [sortByFmv []])).
  { unfold loadTier at 1. unfold dataOrEmpty, newArray.
    change (loadTier name (Some (List.length s)) priceUsd (s ++ [[]])
            = Some (Tier.mk name (List.length s) (metricsOf [] priceUsd)
                        (curveOf [] priceUsd (probabilityScale [])),
                      (s ++ [[]]) ++ [sortByFmv []] ++ [sortByFmv []])).
    apply loadTier_run, nth_error_snoc. }
  split; [exact E |]. cbn [Tier.tierName Tier.cards Tier.metrics Tier.curve].
  split; [apply nth_error_grown, nth_error_snoc |].
  split; [apply nth_error_None; lia |].
  split; [reflexivity |].
  repeat (split; [reflexivity |]).
  split.
  - unfold tierSection, bind, ret. cbn [Tier.cards Tier.metrics Tier.curve].
    rewrite (elements_run _ (List.length s) [])
      by (apply nth_error_grown, nth_error_snoc).
    reflexivity.
  - intros r other Hr. apply nth_error_grown, nth_error_grown, Hr.
Qed.

(** ** The theme *)

(** X21.  After the first render and any number of clicks, the item
    theme of localStorage and the attribute data-theme hold the current
    theme, a page loaded from that storage starts with the same theme,
    and no other item of localStorage has changed. *)
Theorem theme_is_persisted (st : Storage) (attribute : option string)
  (clicks : nat) :
  let p := pageAfter st attribute clicks in
  getItem (storage p) "theme" = Some (theme p) /\
  dataTheme p = Some (theme p) /\
  theme (usePersistentTheme (storage p) (dataTheme p)) = theme p /\
  (forall key, String.eqb key "theme" = false ->
     getItem (storage p) key = getItem st key).
Proof.
  intro p. destruct (theme_invariant st attribute clicks)
    as (Hne & Hst & Hdt & Hk). fold p in Hne, Hst, Hdt, Hk.
  split; [exact Hst |]. split; [exact Hdt |]. split; [| exact Hk].
  unfold usePersistentTheme, themeEffect. cbn [theme].
  rewrite Hst. unfold orElse. rewrite Hne. reflexivity.
Qed.

(** X22.  Without a stored theme the first theme is light, and a click
    on a light theme gives dark.  After a click the theme is dark or
    light, whatever was stored; from then on a click changes it and two
    clicks give it back. *)
Theorem theme_toggle_alternates (st : Storage) (attribute : option string)
  (clicks : nat) :
  let first := usePersistentTheme st attribute in
  let p := pageAfter st attribute (S clicks) in
  (getItem st "theme" = None -> theme first = "light"%string) /\
  (theme first = "light"%string -> theme (toggleTheme first) = "dark"%string) /\
  (theme p = "dark"%string \/ theme p = "light"%string) /\
  String.eqb (theme (toggleTheme p)) (theme p) = false /\
  theme (toggleTheme (toggleTheme p)) = theme p.
Proof.
  intros first p.
  split; [| split].
  - intro E. unfold first, usePersistentTheme, themeEffect. cbn [theme].
    rewrite E. reflexivity.
  - intro E. rewrite toggleTheme_theme, E. reflexivity.
  - assert (Hp : theme p = "dark"%string \/ theme p = "light"%string).
    { unfold p. rewrite pageAfter_S, toggleTheme_theme.
      destruct (String.eqb _ "dark"); [right | left]; reflexivity. }
    split; [exact Hp |].
    rewrite !toggleTheme_theme.
    destruct Hp as [-> | ->]; split; reflexivity.
Qed.

(** ** loadData *)

(** X23.  One failed card request is enough to lose every tier: when the
    request of a tier is rejected, is not ok, or cannot be parsed,
    loadData ends in the catch block whatever the other requests gave;
    the tiers shown before stay, the status is the error text, the error
    message is not empty and loading is false. *)
Theorem failed_card_request_discards_every_tier (time : string)
  (priceResponse : Settled (Response PriceData))
  (cardResponse : string -> Settled (Response CardData))
  (app : App) (s : Store) (entries : list (string * number))
  (tierName : string) (priceUsd : number) (app' : App) (s' : Store) :
  fetchPrices priceResponse = Fulfilled entries ->
  In (tierName, priceUsd) entries ->
  cardsFailed (cardResponse tierName) = true ->
  loadData time priceResponse cardResponse app s app' s' ->
  tiers app' = tiers app /\ status app' = ErrorLoading /\
  String.eqb (error app') "" = false /\ loading app' = false.
Proof.
  intros Hp Hin Hf Hl.
  assert (Err : forall e,
            let a := settle time (Rejected e) app in
            tiers a = tiers app /\ status a = ErrorLoading /\
            String.eqb (error a) "" = false /\ loading a = false).
  { intro e. cbv zeta. cbn [settle tiers status error loading].
    repeat split. apply orElse_nonempty. reflexivity. }
  destruct Hl as [e He | entries' ps s1 outcome He Hs Ho].
  - apply Err.
  - rewrite Hp in He. injection He as <-.
    destruct (settleAll_run entries cardResponse s) as (ps' & extra & E & F2).
    rewrite E in Hs. injection Hs as <- <-.
    assert (Hr : exists e, In (Rejected e) ps').
    { clear E Ho Hp. induction F2 as [| entry p rest ps [Hrej _] _ IH].
      - destruct Hin.
      - destruct Hin as [-> | Hin].
        + destruct (Hrej Hf) as [e ->]. exists e. left. reflexivity.
        + destruct (IH Hin) as [e He]. exists e. right. exact He. }
    destruct Hr as [e Hr].
    destruct Ho as [vs Hv | e' _].
    + rewrite (allFulfilled_rejected ps' e Hr) in Hv. discriminate.
    + apply Err.
Qed.

Lemma failed_card_request_discards_every_tier_witness :
  exists app' s',
    loadData "12:00" twoPrices premiumDown firstApp [] app' s' /\
    tiers app' = [] /\ status app' = ErrorLoading /\
    String.eqb (error app') "" = false /\ loading app' = false.
Proof.
  destruct (loadData_settles "12:00" twoPrices premiumDown firstApp [])
    as (app' & s' & L).
  exists app', s'. split; [exact L |].
  apply (failed_card_request_discards_every_tier "12:00" twoPrices
           premiumDown firstApp []
           [ ("Starter"%string, lit 5); ("Premium"%string, lit 50) ]
           "Premium" (lit 50) app' s').
  - reflexivity.
  - right. left. reflexivity.
  - reflexivity.
  - exact L.
Defined.

(** X24.  When the price response is not ok, loadData ends with the
    message that the prices could not be fetched, the tiers shown before
    and loading false; no card request is made and no array is
    allocated. *)
Theorem failed_price_request_discards_every_tier (time : string)
  (res : Response PriceData)
  (cardResponse : string -> Settled (Response CardData))
  (app : App) (s : Store) (app' : App) (s' : Store) :
  ok res = false ->
  loadData time (Fulfilled res) cardResponse app s app' s' ->
  app' = {| tiers := tiers app;
            status := ErrorLoading;
            error := "Failed to fetch prices";
            loading := false |} /\
  s' = s.
Proof.
  intros Hok Hl.
  assert (E : fetchPrices (Fulfilled res)
              = Rejected "Failed to fetch prices"%string).
  { unfold fetchPrices. rewrite Hok. reflexivity. }
  destruct Hl as [e He | entries ps s1 outcome He _ _].
  - rewrite E in He. injection He as <-. split; reflexivity.
  - rewrite E in He. discriminate.
Qed.

Lemma failed_price_request_discards_every_tier_witness :
  exists app' s',
    loadData "12:00" (Fulfilled pricesDown) goodCards firstApp [] app' s' /\
    error app' = "Failed to fetch prices"%string /\ tiers app' = [].
Proof.
  destruct (loadData_settles "12:00" (Fulfilled pricesDown) goodCards
              firstApp [])
    as (app' & s' & L).
  exists app', s'. split; [exact L |].
  destruct (failed_price_request_discards_every_tier "12:00" pricesDown
              goodCards firstApp [] app' s' eq_refl L) as [-> _].
  split; reflexivity.
Defined.

(** X25.  When the price request and every card request succeed,
    loadData has one outcome: status Updated, no error, loading false, and
    one tier per key of the prices, in their order, each with its name,
    the metrics and the curve of its cards at its price, and its cards
    in the store. *)
Theorem load_of_good_responses (time : string)
  (priceResponse : Settled (Response PriceData))
  (cardResponse : string -> Settled (Response CardData))
  (app : App) (s : Store) (entries : list (string * number)) :
  fetchPrices priceResponse = Fulfilled entries ->
  (forall tierName priceUsd, In (tierName, priceUsd) entries ->
     cardsFailed (cardResponse tierName) = false) ->
  exists app' s',
    loadData time priceResponse cardResponse app s app' s' /\
    (forall app'' s'',
       loadData time priceResponse cardResponse app s app'' s'' ->
       app'' = app' /\ s'' = s') /\
    status app' = Updated time /\ error app' = ""%string /\
    loading app' = false /\
    Forall2
      (fun entry tier =>
         let cs := cardsOf (cardResponse (fst entry)) in
         tier = tierOf entry cs (Tier.cards tier) /\
         nth_error s' (Tier.cards tier) = Some cs)
      entries (tiers app').
Proof.
  intros Hp Hok.
  destruct (settleAll_run entries cardResponse s) as (ps & extra & E & F2).
  assert (Hv : exists vs,
            allFulfilled ps = Some vs /\
            Forall2
              (fun entry tier =>
                 let cs := cardsOf (cardResponse (fst entry)) in
                 tier = tierOf entry cs (Tier.cards tier) /\
                 nth_error (s ++ extra) (Tier.cards tier) = Some cs)
              entries vs).
  { clear E Hp. induction F2 as [| entry p rest ps [_ Hs] _ IH].
    - exists []. split; [reflexivity | constructor].
    - destruct IH as (vs & Ev & Fv).
      { intros n pr Hin. apply (Hok n pr). right. exact Hin. }
      destruct entry as [name price].
      destruct (Hs (Hok name price (or_introl eq_refl))) as (r & -> & Hr).
      eexists. split; [cbn [allFulfilled]; rewrite Ev; reflexivity |].
      constructor; [| exact Fv].
      cbv zeta. split; [reflexivity | exact Hr]. }
  destruct Hv as (vs & Ev & Fv).
  exists (settle time (Fulfilled vs) app), (s ++ extra).
  split; [| split].
  - apply (tiers_settled _ _ _ _ _ entries ps); [exact Hp | exact E |].
    apply all_fulfilled, Ev.
  - intros app'' s'' Hl.
    destruct Hl as [e He | entries' ps' s1 outcome He Hs Ho].
    + rewrite Hp in He. discriminate.
    + rewrite Hp in He. injection He as <-.
      rewrite E in Hs. injection Hs as <- <-.
      destruct Ho as [vs' Hv' | e Hin].
      * rewrite Ev in Hv'. injection Hv' as <-. split; reflexivity.
      * rewrite (allFulfilled_rejected ps e Hin) in Ev. discriminate.
  - repeat (split; [reflexivity |]). exact Fv.
Qed.

Lemma load_of_good_responses_witness :
  exists app' s',
    loadData "12:00" twoPrices goodCards firstApp [] app' s' /\
    status app' = Updated "12:00" /\ error app' = ""%string /\
    List.length (tiers app') = 2%nat.
Proof.
  destruct (load_of_good_responses "12:00" twoPrices goodCards firstApp []
              [ ("Starter"%string, lit 5); ("Premium"%string, lit 50) ])
    as (app' & s' & L & _ & A & B & _ & C).
  - reflexivity.
  - intros tierName priceUsd _. reflexivity.
  - exists app', s'. split; [exact L |]. split; [exact A |].
    split; [exact B |].
    symmetry. apply (Forall2_length C).
Defined.

(** X26.  Once the price request and the card requests have settled,
    however they did, loadData settles, and however it does, loading is
    false afterwards, either the tiers are the ones shown before or the
    error is empty, and every array that existed before is as it
    was. *)
Theorem loading_ends_once_requests_settle (time : string)
  (priceResponse : Settled (Response PriceData))
  (cardResponse : string -> Settled (Response CardData))
  (app : App) (s : Store) :
  (exists app' s', loadData time priceResponse cardResponse app s app' s') /\
  (forall app' s',
     loadData time priceResponse cardResponse app s app' s' ->
     loading app' = false /\
     (tiers app' = tiers app \/ error app' = ""%string) /\
     (forall r other,
        nth_error s r = Some other -> nth_error s' r = Some other)).
Proof.
  split; [apply loadData_settles |].
  intros app' s' Hl.
  destruct Hl as [e He | entries ps s1 outcome He Hs Ho].
  - split; [reflexivity |]. split; [left; reflexivity |]. auto.
  - destruct (settleAll_run entries cardResponse s) as (ps' & extra & E & _).
    rewrite E in Hs. injection Hs as <- <-.
    split; [destruct outcome; reflexivity |].
    split; [destruct outcome; [right | left]; reflexivity |].
    intros r other Hr. apply nth_error_grown, Hr.
Qed.

(** ** Worked examples *)

(** The scenario of the specification at price 5: scale 1, expected
    value 23.5, median 1, odds over cost 50, profit 18.5, EV 470 percent. *)
Theorem scenario_metrics :
  metricsOf scenario (lit 5)
  = {| expectedValue := Fin (47 # 2);
       medianValue := Fin 1;
       oddsOverCost := Fin 50;
       costOfPack := Fin 5;
       profit := Fin (37 # 2);
       evPercent := Fin 470;
       profitPercent := Fin 370;
       medianPercent := Fin (-80);
       probScale := Fin 1 |}.
Proof. vm_compute. reflexivity. Qed.

(** The same scenario with the probabilities written as percentages
    (scale 0.01) or in arbitrary units (scale 1/10) gives the same
    metrics. *)
Theorem scenario_encodings_agree :
  probabilityScale scenarioPercent = n0_01 /\
  probabilityScale scenarioUnits = div n1 (lit 10) /\
  withoutScale (metricsOf scenarioPercent (lit 5))
  = withoutScale (metricsOf scenario (lit 5)) /\
  withoutScale (metricsOf scenarioUnits (lit 5))
  = withoutScale (metricsOf scenario (lit 5)).
Proof. vm_compute. repeat split; reflexivity. Qed.
